(** * parseLaws: extraction of citations, actions and entities from legal texts

    A shallow embedding of [Project/parseLaws.py] and the verification of its
    specification.  Python strings are sequences of Unicode code points, the
    regular expressions of the module are run by a backtracking matcher that
    follows the [re] module (leftmost match, greedy and lazy repetition,
    non-overlapping left-to-right scan), Python sets are [gset]s whose
    iteration order is left unspecified, and files are the sequences of text
    chunks written to them. *)

From Stdlib Require Import NArith Ascii String DecimalString.
From stdpp Require Import gmap sets list sorting.

(** ** Text *)

(** A Python [str]: a sequence of code points. *)
Definition char : Type := N.
Definition str : Type := list char.

(** The code points of an ASCII literal. *)
Definition u (s : string) : str := map N_of_ascii (list_ascii_of_string s).

Definition TAB : char := 9%N.
Definition LF : char := 10%N.
Definition CR : char := 13%N.
Definition SPACE : char := 32%N.

(** [str(n)] for a non-negative [int]. *)
Definition str_of_int (n : nat) : str := u (NilZero.string_of_uint (Nat.to_uint n)).

(** [len(s) < n] and friends are on code points: [length]. *)

(** [s.startswith(p)]. *)
Fixpoint startswith (p s : str) : bool :=
  match p, s with
  | [], _ => true
  | a :: p', b :: s' => N.eqb a b && startswith p' s'
  | _ :: _, [] => false
  end.

(** [s.endswith(p)]. *)
Definition endswith (p s : str) : bool := startswith (rev p) (rev s).

(** [s.replace(old, new)]: every non-overlapping occurrence of [old], found
    from the left, is replaced; [skip] counts the characters of an occurrence
    that are still to be passed over.  With an empty [old], [new] is put
    around every character. *)
Fixpoint replace_from (old new s : str) (skip : nat) : str :=
  match s with
  | [] => []
  | c :: s' =>
      match skip with
      | S k => replace_from old new s' k
      | O => if startswith old s
             then new ++ replace_from old new s' (length old - 1)
             else c :: replace_from old new s' 0
      end
  end.

Definition str_replace (old new s : str) : str :=
  match old with
  | [] => new ++ concat (map (fun c => c :: new) s)
  | _ :: _ => replace_from old new s 0
  end.

(** Comparison of strings, code point by code point, as [sorted] uses it. *)
Fixpoint str_leb (a b : str) : bool :=
  match a, b with
  | [], _ => true
  | _ :: _, [] => false
  | x :: a', y :: b' => if N.ltb x y then true else if N.eqb x y then str_leb a' b' else false
  end.

Definition str_le (a b : str) : Prop := str_leb a b = true.

#[global] Instance str_le_dec : RelDecision str_le := fun a b => decide (str_leb a b = true).

(** [sorted(l)] on strings. *)
Definition sorted (l : list str) : list str := merge_sort str_le l.

(** ** The [re] module, for the patterns of this program *)

(** [\s] on [str] patterns: the Unicode white space characters. *)
Definition is_space (c : char) : bool :=
  ((9 <=? c) && (c <=? 13) || (28 <=? c) && (c <=? 32) || (c =? 0x85) || (c =? 0xA0)
   || (c =? 0x1680) || (0x2000 <=? c) && (c <=? 0x200A) || (c =? 0x2028)
   || (c =? 0x2029) || (c =? 0x202F) || (c =? 0x205F) || (c =? 0x3000))%N.

(** A pattern is a sequence of items; every repetition of this program is over
    a single character or class. *)
Inductive item : Type :=
  | Lit (c : char)                        (* a literal character *)
  | Cls (p : char -> bool)                (* [...] or . *)
  | LazyStar (p : char -> bool)           (* x*? *)
  | Plus (p : char -> bool)               (* x+ *)
  | Rep (p : char -> bool) (lo hi : nat)  (* x{lo,hi}; x? is x{0,1} *)
  | Eol.                                  (* $ without MULTILINE *)

Definition regex : Type := list item.

(** The literal characters of a keyword. *)
Definition lits (kw : str) : regex := map Lit kw.

(** A match result: the text matched and the text after it. *)
Definition consume (x : char) (r : option (str * str)) : option (str * str) :=
  match r with
  | Some (m, rest) => Some (x :: m, rest)
  | None => None
  end.

(** x*? : try the continuation first, take one more character on failure. *)
Fixpoint lazy_star (p : char -> bool) (k : str -> option (str * str)) (s : str)
  : option (str * str) :=
  match k s with
  | Some res => Some res
  | None =>
      match s with
      | x :: s' => if p x then consume x (lazy_star p k s') else None
      | [] => None
      end
  end.

(** x+ : take as many characters as possible, give them back one at a time. *)
Fixpoint greedy_plus (p : char -> bool) (k : str -> option (str * str)) (s : str)
  : option (str * str) :=
  match s with
  | x :: s' =>
      if p x then
        match greedy_plus p k s' with
        | Some res => consume x (Some res)
        | None => consume x (k s')
        end
      else None
  | [] => None
  end.

(** x{lo,hi} : greedy, between [lo] and [hi] characters. *)
Fixpoint greedy_rep (p : char -> bool) (k : str -> option (str * str))
    (lo hi : nat) (s : str) : option (str * str) :=
  let stop := match lo with O => k s | S _ => None end in
  match hi with
  | O => stop
  | S hi' =>
      match s with
      | x :: s' =>
          if p x then
            match greedy_rep p k (pred lo) hi' s' with
            | Some res => consume x (Some res)
            | None => stop
            end
          else stop
      | [] => stop
      end
  end.

(** The match of a pattern at the start of [s], if there is one: the first one
    in the order of a backtracking search. *)
Fixpoint match_here (r : regex) (s : str) {struct r} : option (str * str) :=
  match r with
  | [] => Some ([], s)
  | Lit c :: r' =>
      match s with
      | x :: s' => if N.eqb x c then consume x (match_here r' s') else None
      | [] => None
      end
  | Cls p :: r' =>
      match s with
      | x :: s' => if p x then consume x (match_here r' s') else None
      | [] => None
      end
  | LazyStar p :: r' => lazy_star p (match_here r') s
  | Plus p :: r' => greedy_plus p (match_here r') s
  | Rep p lo hi :: r' => greedy_rep p (match_here r') lo hi s
  | Eol :: r' =>
      match s with
      | [] => match_here r' s
      | [x] => if N.eqb x LF then match_here r' s else None
      | _ => None
      end
  end.

(** The left-to-right scan shared by [re.findall] and [re.sub]: the text is cut
    into matches and the characters between them.  After a match the scan
    resumes behind it ([skip] characters further); a position with no match
    yields its character.  No pattern of this program matches the empty
    string; such a match would be reported and the scan moved on by one
    character. *)
Inductive tok : Type :=
  | M (m : str)
  | C (c : char).

Fixpoint tokens (r : regex) (s : str) (skip : nat) : list tok :=
  match s with
  | [] =>
      match skip, match_here r [] with
      | O, Some (m, _) => [M m]
      | _, _ => []
      end
  | c :: s' =>
      match skip with
      | S k => tokens r s' k
      | O =>
          match match_here r s with
          | Some ([], _) => M [] :: C c :: tokens r s' 0
          | Some (x :: m', _) => M (x :: m') :: tokens r s' (length m')
          | None => C c :: tokens r s' 0
          end
      end
  end.

(** [re.findall(pattern, s)], for a pattern without groups. *)
Definition re_findall (r : regex) (s : str) : list str :=
  omap (fun t => match t with M m => Some m | C _ => None end) (tokens r s 0).

(** [re.sub(pattern, repl, s)], for a replacement without group references. *)
Definition re_sub (r : regex) (repl s : str) : str :=
  concat (map (fun t => match t with M _ => repl | C c => [c] end) (tokens r s 0)).

(** The matches with their start offsets, as [re.finditer] gives them. *)
Fixpoint spans (pos : nat) (ts : list tok) : list (nat * str) :=
  match ts with
  | [] => []
  | M m :: ts' => (pos, m) :: spans (pos + length m) ts'
  | C _ :: ts' => spans (S pos) ts'
  end.

Definition re_finditer (r : regex) (s : str) : list (nat * str) :=
  spans 0 (tokens r s 0).

(** ** Windows-1252 and Windows-1255 *)

(** The upper halves (bytes 0x80 to 0xFF) of the two code pages, as the
    codecs' decoding tables list them; 0xFFFE marks an undefined byte.  The
    lower halves are ASCII. *)
Local Open Scope N_scope.

Definition cp1252_high : list char :=
  [ 0x20AC; 0xFFFE; 0x201A; 0x0192; 0x201E; 0x2026; 0x2020; 0x2021;
    0x02C6; 0x2030; 0x0160; 0x2039; 0x0152; 0xFFFE; 0x017D; 0xFFFE;
    0xFFFE; 0x2018; 0x2019; 0x201C; 0x201D; 0x2022; 0x2013; 0x2014;
    0x02DC; 0x2122; 0x0161; 0x203A; 0x0153; 0xFFFE; 0x017E; 0x0178;
    0x00A0; 0x00A1; 0x00A2; 0x00A3; 0x00A4; 0x00A5; 0x00A6; 0x00A7;
    0x00A8; 0x00A9; 0x00AA; 0x00AB; 0x00AC; 0x00AD; 0x00AE; 0x00AF;
    0x00B0; 0x00B1; 0x00B2; 0x00B3; 0x00B4; 0x00B5; 0x00B6; 0x00B7;
    0x00B8; 0x00B9; 0x00BA; 0x00BB; 0x00BC; 0x00BD; 0x00BE; 0x00BF;
    0x00C0; 0x00C1; 0x00C2; 0x00C3; 0x00C4; 0x00C5; 0x00C6; 0x00C7;
    0x00C8; 0x00C9; 0x00CA; 0x00CB; 0x00CC; 0x00CD; 0x00CE; 0x00CF;
    0x00D0; 0x00D1; 0x00D2; 0x00D3; 0x00D4; 0x00D5; 0x00D6; 0x00D7;
    0x00D8; 0x00D9; 0x00DA; 0x00DB; 0x00DC; 0x00DD; 0x00DE; 0x00DF;
    0x00E0; 0x00E1; 0x00E2; 0x00E3; 0x00E4; 0x00E5; 0x00E6; 0x00E7;
    0x00E8; 0x00E9; 0x00EA; 0x00EB; 0x00EC; 0x00ED; 0x00EE; 0x00EF;
    0x00F0; 0x00F1; 0x00F2; 0x00F3; 0x00F4; 0x00F5; 0x00F6; 0x00F7;
    0x00F8; 0x00F9; 0x00FA; 0x00FB; 0x00FC; 0x00FD; 0x00FE; 0x00FF ].

Definition cp1255_high : list char :=
  [ 0x20AC; 0xFFFE; 0x201A; 0x0192; 0x201E; 0x2026; 0x2020; 0x2021;
    0x02C6; 0x2030; 0xFFFE; 0x2039; 0xFFFE; 0xFFFE; 0xFFFE; 0xFFFE;
    0xFFFE; 0x2018; 0x2019; 0x201C; 0x201D; 0x2022; 0x2013; 0x2014;
    0x02DC; 0x2122; 0xFFFE; 0x203A; 0xFFFE; 0xFFFE; 0xFFFE; 0xFFFE;
    0x00A0; 0x00A1; 0x00A2; 0x00A3; 0x20AA; 0x00A5; 0x00A6; 0x00A7;
    0x00A8; 0x00A9; 0x00D7; 0x00AB; 0x00AC; 0x00AD; 0x00AE; 0x00AF;
    0x00B0; 0x00B1; 0x00B2; 0x00B3; 0x00B4; 0x00B5; 0x00B6; 0x00B7;
    0x00B8; 0x00B9; 0x00F7; 0x00BB; 0x00BC; 0x00BD; 0x00BE; 0x00BF;
    0x05B0; 0x05B1; 0x05B2; 0x05B3; 0x05B4; 0x05B5; 0x05B6; 0x05B7;
    0x05B8; 0x05B9; 0xFFFE; 0x05BB; 0x05BC; 0x05BD; 0x05BE; 0x05BF;
    0x05C0; 0x05C1; 0x05C2; 0x05C3; 0x05F0; 0x05F1; 0x05F2; 0x05F3;
    0x05F4; 0xFFFE; 0xFFFE; 0xFFFE; 0xFFFE; 0xFFFE; 0xFFFE; 0xFFFE;
    0x05D0; 0x05D1; 0x05D2; 0x05D3; 0x05D4; 0x05D5; 0x05D6; 0x05D7;
    0x05D8; 0x05D9; 0x05DA; 0x05DB; 0x05DC; 0x05DD; 0x05DE; 0x05DF;
    0x05E0; 0x05E1; 0x05E2; 0x05E3; 0x05E4; 0x05E5; 0x05E6; 0x05E7;
    0x05E8; 0x05E9; 0x05EA; 0xFFFE; 0xFFFE; 0x200E; 0x200F; 0xFFFE ].

Local Close Scope N_scope.

Definition UNDEFINED : char := 0xFFFE%N.

(** The first index of [c] in a table. *)
Fixpoint index_of (c : char) (tbl : list char) : option nat :=
  match tbl with
  | [] => None
  | x :: tbl' => if N.eqb x c then Some O else S <$> index_of c tbl'
  end.

Definition charmap_encode (tbl : list char) (c : char) : option N :=
  if (c <? 0x80)%N then Some c
  else if N.eqb c UNDEFINED then None
  else (fun i => (0x80 + N.of_nat i)%N) <$> index_of c tbl.

Definition charmap_decode (tbl : list char) (b : N) : option char :=
  if (b <? 0x80)%N then Some b
  else match tbl !! N.to_nat (b - 0x80) with
       | Some c => if N.eqb c UNDEFINED then None else Some c
       | None => None
       end.

(** The exceptions this program can raise on a document. *)
Inductive exn : Type :=
  | AttributeError       (* soup.body is None *)
  | UnicodeEncodeError   (* a character outside Windows-1252; a surrogate, for UTF-8 *)
  | UnicodeDecodeError.  (* a byte undefined in Windows-1255 *)

(** [txt.encode('windows-1252').decode('windows-1255')]. *)
Definition recode (txt : str) : exn + str :=
  match mapM (charmap_encode cp1252_high) txt with
  | None => inl UnicodeEncodeError
  | Some bytes =>
      match mapM (charmap_decode cp1255_high) bytes with
      | None => inl UnicodeDecodeError
      | Some t => inr t
      end
  end.

(** ** UTF-8 *)

(** The surrogate code points, U+D800 to U+DFFF.  A text holds one when it
    comes from bytes that could not be decoded: a file name that is not valid
    in the encoding of the file system is listed with them. *)
Definition surrogate (c : char) : bool := ((0xD800 <=? c) && (c <=? 0xDFFF))%N.

(** [s.encode('utf-8')]: a surrogate has no encoding.  The bytes of a text
    that is encoded are kept as that text, of which they are a one-to-one
    image. *)
Definition encode_utf8 (s : str) : exn + str :=
  if existsb surrogate s then inl UnicodeEncodeError else inr s.

(** ** The pattern catalog *)

Definition any_char : char -> bool := fun _ => true.      (* . with re.S *)
Definition is_char (c : char) : char -> bool := N.eqb c.
Definition opt (c : char) : item := Rep (is_char c) 0 1.  (* c? *)

(** The class of the Hebrew letters alef to tav and the double quote. *)
Definition hebrew_or_quote (c : char) : bool :=
  ((0x5D0 <=? c) && (c <=? 0x5EA) || (c =? 34))%N.

(** [[0-9]] *)
Definition digit (c : char) : bool := ((48 <=? c) && (c <=? 57))%N.

(** The word-boundary class: space, full stop, semicolon, comma, white space. *)
Definition boundary (c : char) : bool :=
  ((c =? 32) || (c =? 46) || (c =? 59) || (c =? 44))%N || is_space c.

(** The terminator class: full stop, comma, semicolon, double quote, square
    brackets, white space and colon. *)
Definition terminator (c : char) : bool :=
  ((c =? 46) || (c =? 44) || (c =? 59) || (c =? 34) || (c =? 91) || (c =? 93))%N
  || is_space c || (c =? 58)%N.

Local Open Scope N_scope.

(** What follows the keyword of a citation pattern: anything (lazily), an
    optional he, tav shin, one or two letters of the class above, anything
    (lazily), four digits. *)
Definition citation_tail : regex :=
  [LazyStar any_char; opt 0x5D4; Lit 0x5EA; Lit 0x5E9; Rep hebrew_or_quote 1 2;
   LazyStar any_char; Rep digit 4 4].

Definition CITATION_RES : list (string * regex) :=
  [ ("COMMANDS_RE"%string, lits [0x5E4; 0x5E7; 0x5D5; 0x5D3; 0x5D4] ++ citation_tail);
    ("COMMANDS2_RE"%string, lits [0x5E4; 0x5E7; 0x5D5; 0x5D3; 0x5EA] ++ citation_tail);
    ("COMMANDS3_RE"%string, lits [0x5E4; 0x5E7; 0x5D5; 0x5D3; 0x5D5; 0x5EA] ++ citation_tail);
    ("LAWS_RE"%string, lits [0x5D7; 0x5D5; 0x5E7] ++ citation_tail);
    ("REGULATIONS_RE"%string, lits [0x5EA; 0x5E7; 0x5E0; 0x5D4] ++ citation_tail);
    ("REGULATIONS2_RE"%string, lits [0x5EA; 0x5E7; 0x5E0; 0x5EA] ++ citation_tail);
    ("REGULATIONS3_RE"%string, lits [0x5EA; 0x5E7; 0x5E0; 0x5D5; 0x5EA] ++ citation_tail);
    ("INSTRUCTIONS_RE"%string, lits [0x5D4; 0x5D5; 0x5E8; 0x5D0; 0x5D4] ++ citation_tail);
    ("INSTRUCTIONS2_RE"%string, lits [0x5D4; 0x5D5; 0x5E8; 0x5D0; 0x5EA] ++ citation_tail);
    ("INSTRUCTIONS3_RE"%string, lits [0x5D4; 0x5D5; 0x5E8; 0x5D0; 0x5D5; 0x5EA] ++ citation_tail) ].

Definition ACTION_RES : list (string * regex) :=
  [ ("INSTRUCTED_RE"%string, lits [0x5D4; 0x5D5; 0x5E8; 0x5D4] ++ [Cls boundary]);
    ("INSTRUCTED2_RE"%string, lits [0x5D4; 0x5E0; 0x5D7; 0x5D4] ++ [Cls boundary]);
    ("OVERSAW_RE"%string, lits [0x5E4; 0x5D9; 0x5E7; 0x5D7] ++ [Cls boundary]);
    ("SET_RE"%string, lits [0x5E7; 0x5D1; 0x5E2] ++ [Cls boundary]);
    ("APPROVED_RE"%string, lits [0x5D0; 0x5D9; 0x5E9; 0x5E8] ++ [Cls boundary]);
    ("ALLOWED_RE"%string, lits [0x5D4; 0x5EA; 0x5D9; 0x5E8] ++ [Cls boundary]);
    ("SET2_RE"%string, lits [0x5D4; 0x5DB; 0x5E8; 0x5D9; 0x5E2] ++ [Cls boundary]) ].

Definition ENTITIES_RES : list (string * regex) :=
  [ ("SUPERVISOR_RE"%string, lits [0x5DE; 0x5E4; 0x5E7; 0x5D7; 0x20; 0x5D4] ++ [LazyStar any_char; Cls boundary]);
    ("SUPERVISOR2_RE"%string, lits [0x5DE; 0x5E4; 0x5E7; 0x5D7; 0x20; 0x5E2; 0x5DC; 0x20] ++ [LazyStar any_char; Cls boundary]);
    ("SUPERIOR_RE"%string, lits [0x5DE; 0x5DE; 0x5D5; 0x5E0; 0x5D4; 0x20; 0x5E2; 0x5DC; 0x20] ++ [LazyStar any_char; Cls boundary]);
    ("TESTER_RE"%string, [opt 0x5D4] ++ lits [0x5D1; 0x5D5; 0x5D3; 0x5E7; 0x20] ++ [opt 0x5D4] ++ lits [0x5DE; 0x5D5; 0x5E1; 0x5DE; 0x5DA]);
    ("BUILDER_RE"%string, [opt 0x5D4] ++ lits [0x5D1; 0x5D5; 0x5E0; 0x5D4; 0x20] ++ [opt 0x5D4] ++ lits [0x5DE; 0x5E7; 0x5E6; 0x5D5; 0x5E2; 0x5D9]);
    ("CONTRACTOR_RE"%string, lits [0x5DE; 0x5D1; 0x5E6; 0x5E2; 0x20] ++ [opt 0x5D4] ++ lits [0x5D1; 0x5E0; 0x5D9; 0x5D4]);
    ("CONTRACTOR2_RE"%string, lits [0x5E7; 0x5D1; 0x5DC; 0x5DF]);
    ("INSPECTION_INSTITUTE_RE"%string, lits [0x5DE; 0x5D5; 0x5E1; 0x5D3; 0x20] ++ [opt 0x5D4] ++ lits [0x5D1; 0x5D9; 0x5E7; 0x5D5; 0x5E8; 0x5EA; 0x20] ++ [opt 0x5D4] ++ lits [0x5DE; 0x5D5; 0x5E1; 0x5DE; 0x5DA]);
    ("PLANNER_RE"%string, lits [0x5DE; 0x5EA; 0x5DB; 0x5E0; 0x5DF; 0x20] ++ [LazyStar any_char; Cls boundary]);
    ("SIGNALING_PERSON_RE"%string, [opt 0x5D4] ++ lits [0x5DE; 0x5D5; 0x5E1; 0x5DE; 0x5DA; 0x20; 0x5DC; 0x5DE; 0x5EA; 0x5DF; 0x20; 0x5D0; 0x5D9; 0x5EA; 0x5D5; 0x5EA]);
    ("EMPLOYER_RE"%string, [opt 0x5D4] ++ lits [0x5DE; 0x5E2; 0x5E1; 0x5D9; 0x5E7]) ].

Definition LONGEST_POSSIBLE_CITATION_LENGTH : nat := 200%nat.

Definition UNICODE_CHARS_TO_IGNORE : list str := [[0x2003]; [0x3BC]; [0xFC]].

Local Close Scope N_scope.

(** Each node type has its own X coordinate. *)
Definition ACTIONS_X : nat := 10.
Definition ENTITIES_X : nat := 20.
Definition LAWS_X : nat := 30.
Definition CITATIONS_X : nat := 40.

Definition X_COORDINATES : list nat := [ACTIONS_X; ENTITIES_X; LAWS_X; CITATIONS_X].

(** ** Extraction and normalisation *)

Definition apply_filter_on_text (txt : str) (filters : list (string * regex)) : list str :=
  fold_left (fun results f => results ++ re_findall f.2 txt) filters [].

Definition get_citations_from_text (txt : str) : list str :=
  apply_filter_on_text txt CITATION_RES.

Definition get_actions_from_text (txt : str) : list str :=
  apply_filter_on_text txt ACTION_RES.

Definition get_entities_from_test (txt : str) : list str :=
  apply_filter_on_text txt ENTITIES_RES.

Definition remove_weird_unicode (txt : str) : str :=
  fold_left (fun txt c => str_replace c (u " ") txt) UNICODE_CHARS_TO_IGNORE txt.

(** [re.sub] of every run of line feeds by one space. *)
Definition clean_list_item (item : str) : str :=
  re_sub [Plus (is_char LF)] (u " ") item.

(** [re.sub] of a maximal run of terminators before [$], by the empty string. *)
Definition remove_trailing_chars (s : str) : str :=
  re_sub [Plus terminator; Eol] [] s.

(** ** Sets, details and files *)

(** [set(l)]. *)
Definition set_of (l : list str) : gset str := list_to_set l.

(** Iterating over a Python set visits every element once, in an order the
    language leaves open. *)
Class SetIteration : Type := {
  set_iter : gset str -> list str;
  set_iter_perm : forall X : gset str, set_iter X ≡ₚ elements X
}.

(** The details of one law. *)
Record details : Type := Details {
  citations : list str;
  actions : list str;
  entities : list str
}.

(** A dict from law names to details, in insertion order; assigning to a key
    that is present keeps its place. *)
Fixpoint dict_set {A : Type} (d : list (str * A)) (k : str) (v : A) : list (str * A) :=
  match d with
  | [] => [(k, v)]
  | (k', v') :: d' =>
      if decide (k' = k) then (k, v) :: d' else (k', v') :: dict_set d' k v
  end.

(** The output directory: each file is the sequence of the texts written to
    it (every one of them is encoded in UTF-8 on its way to the disk). *)
Abbreviation files := (gmap str (list str)).

(** What a function that writes leaves behind: the state it reached, and the
    exception that ended it, if one did. *)
Definition outcome (S : Type) : Type := (S * option exn)%type.

(** The next statement runs only when nothing was raised. *)
Definition and_then {S : Type} (r : outcome S) (k : S -> outcome S) : outcome S :=
  match r with
  | (s, None) => k s
  | (s, Some e) => (s, Some e)
  end.

Notation "'let!' s ':=' r 'in' k" := (and_then r (fun s => k))
  (at level 10, s name, r at level 100, k at level 200).

Definition CRLF : str := [CR; LF].

Definition OUTPUT_DICTIONARY : str := u "..\Laws\HTML\out".

Definition ENTITIES_CONNECTED_BY_ACTIONS : str := u "entities_connected_by_actions.csv".
Definition ENTITIES_LAWS_BIPARTITE : str := u "entities_laws_bipartite.csv".
Definition ENTITIES_CITATIONS_BIPARTITE : str := u "entities_citations_bipartite.csv".
Definition LAWS_CITATIONS_BIPARTITE : str := u "laws_citations_bipartite.csv".
Definition ENTITIES_FILENAME : str := u "entities.csv".
Definition CITATIONS_FILENAME : str := u "citations.csv".
Definition LAWS_FILENAME : str := u "laws.csv".
Definition ACTIONS_FILENAME : str := u "actions.csv".

Definition OUTPUT_FILES : list str :=
  [ENTITIES_CONNECTED_BY_ACTIONS; ENTITIES_LAWS_BIPARTITE; ENTITIES_CITATIONS_BIPARTITE;
   LAWS_CITATIONS_BIPARTITE; ENTITIES_FILENAME; CITATIONS_FILENAME; LAWS_FILENAME;
   ACTIONS_FILENAME].

(** [os.path.join(OUTPUT_DICTIONARY, name)], with the separator of the paths
    of this program. *)
Definition out_path (name : str) : str := OUTPUT_DICTIONARY ++ u "\" ++ name.

(** [open(path, 'ab')], [open(path, 'wb')] and [fout.close()]. *)
Definition open_ab (fs : files) (path : str) : list str := default [] (fs !! path).
Definition open_wb (fs : files) (path : str) : list str := [].
Definition close (fs : files) (path : str) (fout : list str) : files := <[path := fout]> fs.

(** The end of a function that opened [path]: when its writes returned, it
    calls [fout.close()]; when one of them raised, it is left before that
    call, and the file object is closed as it is reclaimed.  Either way the
    file holds what was written, and the exception goes on to the caller. *)
Definition leave (fs : files) (path : str) (r : outcome (list str)) : outcome files :=
  (close fs path r.1, r.2).

(** ** Writers *)

(** [fout.write(s.encode('utf-8'))] *)
Definition write (fout : list str) (s : str) : outcome (list str) :=
  match encode_utf8 s with
  | inr bytes => (fout ++ [bytes], None)
  | inl e => (fout, Some e)
  end.

Fixpoint write_list_out (fout : list str) (enum : list str) : outcome (list str) :=
  match enum with
  | [] => (fout, None)
  | e :: enum' =>
      let! fout := write fout (clean_list_item e ++ CRLF) in
      write_list_out fout enum'
  end.

Local Open Scope N_scope.
Definition CITATIONS_HEADER : str := [0x5E6; 0x5D9; 0x5D8; 0x5D5; 0x5D8; 0x5D9; 0x5DD].
Definition ACTIONS_HEADER : str := [0x5E4; 0x5E2; 0x5D5; 0x5DC; 0x5D5; 0x5EA].
Definition ENTITIES_HEADER : str := [0x5D2; 0x5D5; 0x5E4; 0x5D9; 0x5DD].
Local Close Scope N_scope.

Definition write_to_fout_txt (fs : files) (law_name : str) (d : details) : outcome files :=
  let path := out_path (str_replace (u "htm") (u "out.txt") law_name) in
  let fout := open_wb fs path in
  leave fs path
    (let! fout := write fout (CITATIONS_HEADER ++ CRLF) in
     let! fout := write_list_out fout (citations d) in
     let! fout := write fout (CRLF ++ CRLF) in
     let! fout := write fout (ACTIONS_HEADER ++ CRLF) in
     let! fout := write_list_out fout (actions d) in
     let! fout := write fout (CRLF ++ CRLF) in
     let! fout := write fout (ENTITIES_HEADER ++ CRLF) in
     write_list_out fout (entities d)).

(** [f'{a}\t{b}'] *)
Definition tab_pair (a b : str) : str := a ++ [TAB] ++ b.

Section Writers.
Context `{SetIteration}.

(** The [out_list] of [write_to_fout_entities_actions]. *)
Definition entities_actions_out_list (d : details) : list str :=
  fold_left (fun out_list entity =>
    fold_left (fun out_list entity2 =>
      if decide (entity = entity2) then out_list
      else fold_left (fun out_list action => out_list ++ [tab_pair entity entity2])
             (set_iter (set_of (actions d))) out_list)
      (set_iter (set_of (entities d))) out_list)
    (set_iter (set_of (entities d))) [].

Definition write_to_fout_entities_actions (fs : files) (d : details) : outcome files :=
  let path := out_path ENTITIES_CONNECTED_BY_ACTIONS in
  let fout := open_ab fs path in
  leave fs path (write_list_out fout (entities_actions_out_list d)).

Definition entities_laws_out_list (law_name : str) (d : details) : list str :=
  fold_left (fun out_list entity => out_list ++ [tab_pair entity law_name])
    (set_iter (set_of (entities d))) [].

Definition write_to_fout_entities_laws (fs : files) (law_name : str) (d : details) :
    outcome files :=
  let path := out_path ENTITIES_LAWS_BIPARTITE in
  let fout := open_ab fs path in
  leave fs path (write_list_out fout (entities_laws_out_list law_name d)).

Definition entities_citations_out_list (d : details) : list str :=
  fold_left (fun out_list entity =>
    fold_left (fun out_list citation => out_list ++ [tab_pair entity citation])
      (set_iter (set_of (citations d))) out_list)
    (set_iter (set_of (entities d))) [].

Definition write_to_fout_entities_citations (fs : files) (d : details) : outcome files :=
  let path := out_path ENTITIES_CITATIONS_BIPARTITE in
  let fout := open_ab fs path in
  leave fs path (write_list_out fout (entities_citations_out_list d)).

Definition laws_citations_out_list (law_name : str) (d : details) : list str :=
  fold_left (fun out_list citation => out_list ++ [tab_pair law_name citation])
    (set_iter (set_of (citations d))) [].

Definition write_to_fout_laws_citations (fs : files) (law_name : str) (d : details) :
    outcome files :=
  let path := out_path LAWS_CITATIONS_BIPARTITE in
  let fout := open_ab fs path in
  leave fs path (write_list_out fout (laws_citations_out_list law_name d)).

(** The header and one line per item, numbered from 1 in iteration order. *)
Definition LISTING_HEADER : str := u "Id" ++ [TAB] ++ u "x_coord" ++ [TAB] ++ u "y_coord".

Definition iter_to_list_of_strings (iterable : list str) (x_coord : nat) : list str :=
  fold_left (fun l '(idx, item) =>
               l ++ [item ++ [TAB] ++ str_of_int x_coord ++ [TAB] ++ str_of_int (idx + 1)])
    (imap pair iterable) [LISTING_HEADER].

(** What the four [write_all_*] functions share: the file and the X
    coordinate are theirs. *)
Definition write_all (name : str) (x_coord : nat) (fs : files) (items : list str) :
    outcome files :=
  let path := out_path name in
  let fout := open_wb fs path in
  let clean_list := map clean_list_item items in
  leave fs path
    (write_list_out fout (iter_to_list_of_strings (set_iter (set_of clean_list)) x_coord)).

Definition write_all_actions : files -> list str -> outcome files :=
  write_all ACTIONS_FILENAME ACTIONS_X.
Definition write_all_entities : files -> list str -> outcome files :=
  write_all ENTITIES_FILENAME ENTITIES_X.
Definition write_all_citations : files -> list str -> outcome files :=
  write_all CITATIONS_FILENAME CITATIONS_X.
Definition write_all_laws : files -> list str -> outcome files :=
  write_all LAWS_FILENAME LAWS_X.

Definition write_to_fout (fs : files) (law_name : str) (d : details) : outcome files :=
  let! fs := write_to_fout_txt fs law_name d in
  let! fs := write_to_fout_entities_actions fs d in
  let! fs := write_to_fout_entities_laws fs law_name d in
  let! fs := write_to_fout_entities_citations fs d in
  write_to_fout_laws_citations fs law_name d.
End Writers.

(** ** The corpus pass *)

(** The error monad of a run: an exception ends it. *)
#[global] Instance exn_ret : MRet (sum exn) := fun _ x => inr x.
#[global] Instance exn_bind : MBind (sum exn) :=
  fun _ _ f x => match x with inl e => inl e | inr a => f a end.

(** An entry of the input directory, with what the HTML parser finds in the
    file: the text of its body, or no body at all. *)
Record dir_entry : Type := DirEntry {
  d_name : str;
  d_is_file : bool;
  d_body : option str
}.

(** The variables of [parse_laws], and the lines it prints (the standard
    output is taken to accept every text). *)
Record corpus : Type := Corpus {
  tot_cites : nat;
  tot_actions : nat;
  tot_entities : nat;
  all_entities : gset str;
  all_actions : gset str;
  all_citations : gset str;
  laws : list (str * details);
  printed : list str
}.

Definition corpus_init : corpus :=
  {| tot_cites := 0; tot_actions := 0; tot_entities := 0;
     all_entities := ∅; all_actions := ∅; all_citations := ∅;
     laws := []; printed := [] |}.

(** [soup.body.get_text()] *)
Definition get_text (d : dir_entry) : exn + str :=
  match d_body d with
  | Some txt => inr txt
  | None => inl AttributeError
  end.

(** The three collections of one law, from its repaired text. *)
Definition law_details (txt : str) : details :=
  let citations := get_citations_from_text txt in
  let actions := sorted (map remove_trailing_chars (get_actions_from_text txt)) in
  let entities := sorted (map remove_trailing_chars (get_entities_from_test txt)) in
  {| citations := filter (fun x : str => length x < LONGEST_POSSIBLE_CITATION_LENGTH)
                    (sorted citations);
     actions := actions;
     entities := entities |}.

(** The three [update] lines of the loop. *)
Definition fold_in (st : corpus) (d : details) : corpus :=
  {| tot_cites := tot_cites st; tot_actions := tot_actions st;
     tot_entities := tot_entities st;
     all_entities := all_entities st ∪ set_of (entities d);
     all_actions := all_actions st ∪ set_of (actions d);
     all_citations := all_citations st ∪ set_of (citations d);
     laws := laws st; printed := printed st |}.

(** The entries the loop does not skip. *)
Definition is_law (d : dir_entry) : bool :=
  negb (negb (d_is_file d) || negb (endswith (u "htm") (d_name d))).

(** The text of a law as the patterns see it. *)
Definition law_text (d : dir_entry) : exn + str :=
  txt ← get_text d;
  let txt := remove_weird_unicode txt in
  recode txt.

(** One turn of the loop of [parse_laws]. *)
Definition parse_law (st : corpus) (d : dir_entry) : exn + corpus :=
  if negb (d_is_file d) || negb (endswith (u "htm") (d_name d)) then mret st
  else
    txt ← law_text d;
    let det := law_details txt in
    let st := fold_in st det in
    mret {| tot_cites := tot_cites st + length (get_citations_from_text txt);
            tot_actions := tot_actions st + length (actions det);
            tot_entities := tot_entities st + length (entities det);
            all_entities := all_entities st;
            all_actions := all_actions st;
            all_citations := all_citations st;
            laws := dict_set (laws st) (d_name d) det;
            printed := printed st ++ [d_name d] |}.

Fixpoint scan_laws (st : corpus) (ds : list dir_entry) : exn + corpus :=
  match ds with
  | [] => mret st
  | d :: ds' => st' ← parse_law st d; scan_laws st' ds'
  end.

Definition totals_line (st : corpus) : str :=
  u "Total cites: " ++ str_of_int (tot_cites st) ++
  u ", total actions: " ++ str_of_int (tot_actions st) ++
  u ", total entities: " ++ str_of_int (tot_entities st).

(** [parse_laws()] on the entries [os.scandir] yields: the laws and the three
    sets are the fields of the result. *)
Definition parse_laws (ds : list dir_entry) : exn + corpus :=
  st ← scan_laws corpus_init ds;
  mret {| tot_cites := tot_cites st; tot_actions := tot_actions st;
          tot_entities := tot_entities st;
          all_entities := all_entities st; all_actions := all_actions st;
          all_citations := all_citations st; laws := laws st;
          printed := printed st ++ [totals_line st] |}.

(** ** The whole run *)

Definition clear_old_files (fs : files) : files :=
  fold_left (fun fs f => delete (out_path f) fs) OUTPUT_FILES fs.

(** [main()]: the files it leaves, and what [parse_laws] gave or the exception
    that ended the run (the progress lines of [main] itself are left out). *)
Definition main `{SetIteration} (fs : files) (ds : list dir_entry) : files * (exn + corpus) :=
  let fs := clear_old_files fs in
  match parse_laws ds with
  | inl e => (fs, inl e)
  | inr st =>
      let r :=
        let! fs := fold_left (fun r '(law, det) => let! fs := r in write_to_fout fs law det)
                     (laws st) (fs, None) in
        let! fs := write_all_actions fs (set_iter (all_actions st)) in
        let! fs := write_all_entities fs (set_iter (all_entities st)) in
        let! fs := write_all_citations fs (set_iter (all_citations st)) in
        write_all_laws fs (map fst (laws st)) in
      match r with
      | (fs, None) => (fs, inr st)
      | (fs, Some e) => (fs, inl e)
      end
  end.

(** ** The notions of the specification *)

(** Stripping from the end only: the longest suffix made of characters of the
    class goes. *)
Fixpoint strip_trailing (p : char -> bool) (s : str) : str :=
  match s with
  | [] => []
  | c :: s' => if forallb p s then [] else c :: strip_trailing p s'
  end.

(** Every maximal run of line feeds becomes one space; [in_run] tells that the
    run at hand has already given its space. *)
Fixpoint collapse_from (in_run : bool) (s : str) : str :=
  match s with
  | [] => []
  | c :: s' =>
      if N.eqb c LF then (if in_run then [] else [SPACE]) ++ collapse_from true s'
      else c :: collapse_from false s'
  end.

Definition collapse_newlines (s : str) : str := collapse_from false s.

(** The normaliser of the specification: the incidental characters become
    spaces, then the trailing terminators go. *)
Definition normalize (raw : str) : str := remove_trailing_chars (remove_weird_unicode raw).

(** The citation collection as the specification words it: every raw match is
    normalised, then the length filter and the sort apply. *)
Definition citations_normalized (txt : str) : list str :=
  filter (fun x : str => length x < LONGEST_POSSIBLE_CITATION_LENGTH)
    (sorted (map remove_trailing_chars (get_citations_from_text txt))).

(** How many times a value occurs in a list. *)
Definition occurrences {A : Type} `{EqDecision A} (x : A) (l : list A) : nat :=
  length (filter (fun y => y = x) l).

(** The entity-entity edges behind the lines of [entities_actions_out_list],
    as ordered pairs. *)
Definition entities_actions_edges `{SetIteration} (d : details) : list (str * str) :=
  entity ← set_iter (set_of (entities d));
  entity2 ← set_iter (set_of (entities d));
  if decide (entity = entity2) then []
  else (action ← set_iter (set_of (actions d)); [(entity, entity2)]).

(** The keyword of a pattern: its literal characters. *)
Definition keyword (r : regex) : str :=
  omap (fun i => match i with Lit c => Some c | _ => None end) r.

(** A line of an output table: a value free of line feeds, then CR LF. *)
Definition table_line (chunk : str) : Prop :=
  exists v : str, chunk = v ++ CRLF /\ LF ∉ v.

(** A text that UTF-8 can encode: it holds no surrogate. *)
Definition utf8_encodable (s : str) : bool := negb (existsb surrogate s).

(** The values of a list that come before the first one UTF-8 cannot encode. *)
Fixpoint written (enum : list str) : list str :=
  match enum with
  | [] => []
  | e :: enum' => if utf8_encodable e then e :: written enum' else []
  end.

(** The iteration order used to run the writers on examples. *)
Definition elements_iteration : SetIteration :=
  {| set_iter := elements; set_iter_perm := fun X => reflexivity (elements X) |}.

(** The length of the run of line feeds a text starts with. *)
Fixpoint lf_run (s : str) : nat :=
  match s with
  | [] => 0
  | c :: s' => if N.eqb c LF then S (lf_run s') else 0
  end.

(** The characters of [UNICODE_CHARS_TO_IGNORE]. *)
Definition weird (c : char) : bool :=
  (N.eqb 0x2003 c || N.eqb 0x3BC c || N.eqb 0xFC c)%N.

(** The record of a law that is extracted; none for an entry that is skipped
    or whose extraction raises. *)
Definition law_record (d : dir_entry) : option details :=
  if is_law d then
    match law_text d with
    | inr txt => Some (law_details txt)
    | inl _ => None
    end
  else None.

(** A law whose extraction raises [e]. *)
Definition fails (d : dir_entry) (e : exn) : Prop :=
  is_law d = true /\ law_text d = inl e.

(** The propagation policy of the specification: whatever fails, the run
    returns, with a record of every law that could be extracted. *)
Definition survives_failures : Prop :=
  forall ds : list dir_entry, exists st : corpus,
    parse_laws ds = inr st /\
    forall d txt, d ∈ ds -> is_law d = true -> law_text d = inr txt ->
      d_name d ∈ (laws st).*1.

(** The lines of a listing table for the items [rows] at the X coordinate
    [x]: the header, then the items numbered from 1. *)
Definition listing_rows (rows : list str) (x : nat) : list str :=
  LISTING_HEADER ::
  imap (fun i item => item ++ [TAB] ++ str_of_int x ++ [TAB] ++ str_of_int (i + 1)) rows.

(** The listing tables as the specification words them: whatever the items,
    each table is the header row followed by one row per unique item, the
    unique items taken in some order. *)
Definition one_row_per_unique_item : Prop :=
  forall (I : SetIteration) (fs : files) (items : list str) (name : str) (x : nat),
    (name, x) ∈ [(ACTIONS_FILENAME, ACTIONS_X); (ENTITIES_FILENAME, ENTITIES_X);
                 (LAWS_FILENAME, LAWS_X); (CITATIONS_FILENAME, CITATIONS_X)] ->
    exists rows : list str,
      rows ≡ₚ elements (set_of items) /\
      (write_all name x fs items).1 !! out_path name
        = Some (map (fun row => row ++ CRLF) (listing_rows rows x)).

(** ** Inputs for the examples *)

(** A law whose body holds one Hebrew letter, alef, as a character: it has no
    Windows-1252 byte. *)
Definition law_alef : dir_entry :=
  {| d_name := u "alef.htm"; d_is_file := true; d_body := Some [0x5D0%N] |}.

(** A law whose body is plain ASCII. *)
Definition law_plain : dir_entry :=
  {| d_name := u "plain.htm"; d_is_file := true; d_body := Some (u "no citation here") |}.

(** A document with the entities A and B and the actions a1 and a2. *)
Definition details_AB : details :=
  {| citations := []; actions := [u "a1"; u "a2"]; entities := [u "A"; u "B"] |}.

(** The pattern of the action keyword qof bet ayin. *)
Definition SET_RE : string * regex :=
  ("SET_RE"%string, lits [0x5E7; 0x5D1; 0x5E2]%N ++ [Cls boundary]).

(** A document with the entities A and C and the action a3. *)
Definition details_AC : details :=
  {| citations := [u "c"]; actions := [u "a3"]; entities := [u "A"; u "C"] |}.

(** The pattern of the action keyword he vav resh he. *)
Definition INSTRUCTED_RE : string * regex :=
  ("INSTRUCTED_RE"%string, lits [0x5D4; 0x5D5; 0x5E8; 0x5D4]%N ++ [Cls boundary]).

(** The citation het vav qof, tav shin kaf, 1954, with a line feed after its
    keyword, and with a space there. *)
Definition CITATION_LF : str :=
  [0x5D7; 0x5D5; 0x5E7; 10; 0x5EA; 0x5E9; 0x5DB; 32]%N ++ u "1954".
Definition CITATION_SPACE : str :=
  [0x5D7; 0x5D5; 0x5E7; 32; 0x5EA; 0x5E9; 0x5DB; 32]%N ++ u "1954".

(** A law that cites it both ways, as a Windows-1255 file read as
    Windows-1252 shows it. *)
Definition law_cited_twice : dir_entry :=
  {| d_name := u "twice.htm"; d_is_file := true;
     d_body := Some (map (fun c => if (0x5D0 <=? c)%N then (c - 0x4F0)%N else c)
                       (CITATION_LF ++ u ". " ++ CITATION_SPACE)) |}.

(** What the run on that law alone returns. *)
Definition corpus_cited_twice : corpus :=
  match parse_laws [law_cited_twice] with
  | inr st => st
  | inl _ => corpus_init
  end.

(** The name of a file with a byte that could not be decoded. *)
Definition UNDECODABLE_NAME : str := u "law" ++ [0xDCE7%N] ++ u ".htm".

(** ** Notions for the further properties *)

(** The seven action keywords. *)
Definition ACTION_KEYWORDS : list str := map (fun f => keyword f.2) ACTION_RES.

(** Every character an item can take satisfies [P]. *)
Definition item_takes (P : char -> Prop) (i : item) : Prop :=
  match i with
  | Lit c => P c
  | Cls p | LazyStar p | Plus p | Rep p _ _ => forall x, p x = true -> P x
  | Eol => True
  end.

(** A character that is no white space other than the plain space. *)
Definition no_break (c : char) : Prop := is_space c = true -> c = SPACE.

(** The chunks that [write_list_out] writes for a list of values. *)
Definition file_lines (enum : list str) : list str :=
  map (fun e => clean_list_item e ++ CRLF) enum.

(** The repaired text of a law that is extracted. *)
Definition extracted_text (d : dir_entry) : option str :=
  if is_law d then
    match law_text d with
    | inr txt => Some txt
    | inl _ => None
    end
  else None.

(** What the repair makes of one character. *)
Definition recode_char (c : char) : option char :=
  charmap_encode cp1252_high c ≫= charmap_decode cp1255_high.

(** The entities qof bet lamed nun sofit and he mem ayin samekh yod qof. *)
Definition KABLAN : str := [0x5E7; 0x5D1; 0x5DC; 0x5DF]%N.
Definition HAMAASIK : str := [0x5D4; 0x5DE; 0x5E2; 0x5E1; 0x5D9; 0x5E7]%N.

(** A text with the two entities, one action and one citation. *)
Definition text_example : str :=
  KABLAN ++ u " " ++ HAMAASIK ++ u " " ++ keyword SET_RE.2 ++ u ". "
  ++ [0x5D7; 0x5D5; 0x5E7; 32; 0x5EA; 0x5E9; 0x5DB]%N ++ u " 1954".

(** The same text as a Windows-1255 file read as Windows-1252 shows it. *)
Definition latin_example : str :=
  map (fun c => if (0x5D0 <=? c)%N then (c - 0x4F0)%N else c) text_example.

Definition law_example : dir_entry :=
  {| d_name := u "example.htm"; d_is_file := true; d_body := Some latin_example |}.

(** What the run on that law alone returns. *)
Definition corpus_example : corpus :=
  match parse_laws [law_example] with
  | inr st => st
  | inl _ => corpus_init
  end.

(** The law of the example under a file name that cannot be decoded, and
    what the run on it returns. *)
Definition law_undecodable : dir_entry :=
  {| d_name := UNDECODABLE_NAME; d_is_file := true; d_body := Some latin_example |}.

Definition corpus_undecodable : corpus :=
  match parse_laws [law_undecodable] with
  | inr st => st
  | inl _ => corpus_init
  end.

(** * Verification *)

(** ** Text *)

Lemma startswith_single (c x : char) (s : str) :
  startswith [c] (x :: s) = N.eqb c x.
Proof. simpl. by rewrite andb_true_r. Qed.

(** Replacing a one-character string is a character-wise map. *)
Lemma str_replace_char (c n : char) (s : str) :
  str_replace [c] [n] s = map (fun x => if N.eqb c x then n else x) s.
Proof.
  unfold str_replace.
  induction s as [|x s IH]; [done|].
  cbn [replace_from map]. rewrite startswith_single.
  destruct (N.eqb c x); simpl; by rewrite IH.
Qed.

Lemma str_leb_total (a b : str) : str_leb a b = true \/ str_leb b a = true.
Proof.
  revert b. induction a as [|x a IH]; intros [|y b]; simpl; auto.
  destruct (N.ltb_spec x y), (N.ltb_spec y x), (N.eqb_spec x y), (N.eqb_spec y x);
    auto; try lia.
Qed.

Lemma sorted_perm (l : list str) : sorted l ≡ₚ l.
Proof. apply merge_sort_Permutation. Qed.

#[global] Instance str_le_total : Total str_le.
Proof. intros a b. apply str_leb_total. Qed.

Lemma sorted_is_sorted (l : list str) : Sorted str_le (sorted l).
Proof. apply (Sorted_merge_sort str_le). Qed.

Lemma elem_of_sorted (x : str) (l : list str) : x ∈ sorted l <-> x ∈ l.
Proof. by rewrite sorted_perm. Qed.

(** ** The matcher *)

Lemma consume_Some x r m rest :
  consume x r = Some (m, rest) ->
  exists m', m = x :: m' /\ r = Some (m', rest).
Proof. destruct r as [[m' rest']|]; simpl; [|done]. intros [= <- <-]. eauto. Qed.

(** What a repetition hands to its continuation: the characters it took are in
    its class, and the continuation matched what follows them. *)
Lemma lazy_star_inv p k s m rest :
  lazy_star p k s = Some (m, rest) ->
  exists m1 m2 s2,
    m = m1 ++ m2 /\ s = m1 ++ s2 /\ Forall (fun x => p x = true) m1 /\
    k s2 = Some (m2, rest).
Proof.
  revert m. induction s as [|x s IH]; intros m; simpl.
  - destruct (k []) as [[m2 r2]|] eqn:Hk; [|done].
    intros [= <- <-]. exists [], m2, []. by repeat split.
  - destruct (k (x :: s)) as [[m2 r2]|] eqn:Hk.
    + intros [= <- <-]. exists [], m2, (x :: s). by repeat split.
    + destruct (p x) eqn:Hp; [|done]. intros Hc.
      apply consume_Some in Hc as (m' & -> & Hl).
      destruct (IH _ Hl) as (m1 & m2 & s2 & -> & -> & Hall & Hk2).
      exists (x :: m1), m2, s2. repeat split; auto.
Qed.

Lemma greedy_plus_inv p k s m rest :
  greedy_plus p k s = Some (m, rest) ->
  exists m1 m2 s2,
    m = m1 ++ m2 /\ s = m1 ++ s2 /\ Forall (fun x => p x = true) m1 /\ m1 <> [] /\
    k s2 = Some (m2, rest).
Proof.
  revert m. induction s as [|x s IH]; intros m; simpl; [done|].
  destruct (p x) eqn:Hp; [|done].
  destruct (greedy_plus p k s) as [[m' r']|] eqn:Hg.
  - intros [= <- <-].
    destruct (IH _ eq_refl) as (m1 & m2 & s2 & -> & -> & Hall & _ & Hk2).
    exists (x :: m1), m2, s2. repeat split; auto.
  - intros Hc. apply consume_Some in Hc as (m' & -> & Hk).
    exists [x], m', s. repeat split; auto.
Qed.

Lemma greedy_rep_inv p k lo hi s m rest :
  greedy_rep p k lo hi s = Some (m, rest) ->
  exists m1 m2 s2,
    m = m1 ++ m2 /\ s = m1 ++ s2 /\ Forall (fun x => p x = true) m1 /\
    lo <= length m1 <= hi /\ k s2 = Some (m2, rest).
Proof.
  assert (Hstop : forall lo s m,
    match lo with O => k s | S _ => None end = Some (m, rest) ->
    forall hi, exists m1 m2 s2,
      m = m1 ++ m2 /\ s = m1 ++ s2 /\ Forall (fun x => p x = true) m1 /\
      lo <= length m1 <= hi /\ k s2 = Some (m2, rest)).
  { intros [|lo'] s' m' Hk hi'; [|done].
    exists [], m', s'. repeat split; simpl; auto; lia. }
  revert lo s m. induction hi as [|hi IH]; intros lo s m; simpl.
  - intros Hk. by apply Hstop.
  - destruct s as [|x s]; [intros Hk; by apply Hstop|].
    destruct (p x) eqn:Hp; [|intros Hk; by apply Hstop].
    destruct (greedy_rep p k (pred lo) hi s) as [[m' r']|] eqn:Hg;
      [|intros Hk; by apply Hstop].
    intros [= <- <-].
    destruct (IH _ _ _ Hg) as (m1 & m2 & s2 & -> & -> & Hall & Hlen & Hk2).
    exists (x :: m1), m2, s2. repeat split; simpl; auto; lia.
Qed.

(** A match is a prefix of the text, and the end of a pattern matched the end
    of the match. *)
Lemma match_here_app_inv (r1 r2 : regex) (s m rest : str) :
  match_here (r1 ++ r2) s = Some (m, rest) ->
  exists m1 m2,
    m = m1 ++ m2 /\ s = m ++ rest /\ match_here r2 (m2 ++ rest) = Some (m2, rest).
Proof.
  revert s m. induction r1 as [|i r1 IH]; intros s m.
  - simpl. intros Hm. exists [], m.
    assert (s = m ++ rest) as ->; [|done].
    clear -Hm. revert s m Hm. induction r2 as [|i r2 IH2]; intros s m; simpl.
    + by intros [= <- <-].
    + destruct i.
      * destruct s as [|x s]; [done|]. destruct (N.eqb x c); [|done].
        intros Hc. apply consume_Some in Hc as (m' & -> & Hm).
        simpl. f_equal. eauto.
      * destruct s as [|x s]; [done|]. destruct (p x); [|done].
        intros Hc. apply consume_Some in Hc as (m' & -> & Hm).
        simpl. f_equal. eauto.
      * intros (m1 & m2 & s2 & -> & -> & _ & Hk)%lazy_star_inv.
        rewrite <- app_assoc. f_equal. eauto.
      * intros (m1 & m2 & s2 & -> & -> & _ & _ & Hk)%greedy_plus_inv.
        rewrite <- app_assoc. f_equal. eauto.
      * intros (m1 & m2 & s2 & -> & -> & _ & _ & Hk)%greedy_rep_inv.
        rewrite <- app_assoc. f_equal. eauto.
      * destruct s as [|x [|y s]]; [eauto| |done].
        destruct (N.eqb x LF); [eauto|done].
  - cbn [app match_here]. destruct i.
    + destruct s as [|x s]; [done|]. destruct (N.eqb x c); [|done].
      intros Hc. apply consume_Some in Hc as (m' & -> & Hm).
      destruct (IH _ _ Hm) as (m1 & m2 & -> & -> & H2).
      exists (x :: m1), m2. by repeat split.
    + destruct s as [|x s]; [done|]. destruct (p x); [|done].
      intros Hc. apply consume_Some in Hc as (m' & -> & Hm).
      destruct (IH _ _ Hm) as (m1 & m2 & -> & -> & H2).
      exists (x :: m1), m2. by repeat split.
    + intros (m1 & m2 & s2 & -> & -> & _ & Hk)%lazy_star_inv.
      destruct (IH _ _ Hk) as (m1' & m2' & -> & -> & H2).
      exists (m1 ++ m1'), m2'. rewrite !app_assoc. by repeat split.
    + intros (m1 & m2 & s2 & -> & -> & _ & _ & Hk)%greedy_plus_inv.
      destruct (IH _ _ Hk) as (m1' & m2' & -> & -> & H2).
      exists (m1 ++ m1'), m2'. rewrite !app_assoc. by repeat split.
    + intros (m1 & m2 & s2 & -> & -> & _ & _ & Hk)%greedy_rep_inv.
      destruct (IH _ _ Hk) as (m1' & m2' & -> & -> & H2).
      exists (m1 ++ m1'), m2'. rewrite !app_assoc. by repeat split.
    + destruct s as [|x [|y s]]; [eauto| |done].
      destruct (N.eqb x LF); [eauto|done].
Qed.

Lemma match_here_prefix (r : regex) (s m rest : str) :
  match_here r s = Some (m, rest) -> s = m ++ rest.
Proof.
  intros Hm. rewrite <- (app_nil_r r) in Hm.
  by apply match_here_app_inv in Hm as (_ & _ & _ & -> & _).
Qed.

(** ** The scan *)

(** Every reported match is the match of the pattern at its offset. *)
Lemma spans_tokens_sound (r : regex) (s : str) (pos skip i : nat) (m : str) :
  (i, m) ∈ spans (pos + skip) (tokens r s skip) ->
  pos <= i /\ exists rest, match_here r (drop (i - pos) s) = Some (m, rest).
Proof.
  revert pos skip. induction s as [|c s IH]; intros pos skip; simpl.
  - destruct skip as [|k]; [|by intros ?%elem_of_nil].
    destruct (match_here r []) as [[m' rest]|] eqn:Hm; [|by intros ?%elem_of_nil].
    simpl. intros [= -> ->]%list_elem_of_singleton.
    split; [lia|]. exists rest. by rewrite drop_nil.
  - destruct skip as [|k].
    + destruct (match_here r (c :: s)) as [[[|x m'] rest]|] eqn:Hm; simpl.
      * rewrite elem_of_cons. intros [[= -> ->]|Hin].
        { split; [lia|]. exists rest. by replace (pos + 0 - pos) with 0 by lia. }
        replace (S (pos + 0 + 0)) with (S pos + 0) in Hin by lia.
        destruct (IH _ _ Hin) as [Hle [rest' Hr]]. split; [lia|].
        exists rest'. by replace (i - pos) with (S (i - S pos)) by lia.
      * rewrite elem_of_cons. intros [[= -> ->]|Hin].
        { split; [lia|]. exists rest. by replace (pos + 0 - pos) with 0 by lia. }
        replace (pos + 0 + S (length m')) with (S pos + length m') in Hin by lia.
        destruct (IH _ _ Hin) as [Hle [rest' Hr]]. split; [lia|].
        exists rest'. by replace (i - pos) with (S (i - S pos)) by lia.
      * intros Hin. replace (S (pos + 0)) with (S pos + 0) in Hin by lia.
        destruct (IH _ _ Hin) as [Hle [rest' Hr]]. split; [lia|].
        exists rest'. by replace (i - pos) with (S (i - S pos)) by lia.
    + intros Hin. replace (pos + S k) with (S pos + k) in Hin by lia.
      destruct (IH _ _ Hin) as [Hle [rest' Hr]]. split; [lia|].
      exists rest'. by replace (i - pos) with (S (i - S pos)) by lia.
Qed.

Lemma re_finditer_sound (r : regex) (s : str) (i : nat) (m : str) :
  (i, m) ∈ re_finditer r s ->
  exists rest, match_here r (drop i s) = Some (m, rest).
Proof.
  intros Hin. destruct (spans_tokens_sound r s 0 0 i m Hin) as [_ [rest Hr]].
  exists rest. by rewrite Nat.sub_0_r in Hr.
Qed.

(** The matches of [re.findall] are those of [re.finditer]. *)
Lemma re_findall_spans (r : regex) (s : str) :
  re_findall r s = (re_finditer r s).*2.
Proof.
  unfold re_findall, re_finditer. generalize 0 at 2. generalize (tokens r s 0).
  induction l as [|[m|c] l IH]; intros pos; simpl; [done| |done].
  by rewrite <- IH.
Qed.

Lemma re_findall_sound (r : regex) (s m : str) :
  m ∈ re_findall r s ->
  exists i rest, match_here r (drop i s) = Some (m, rest).
Proof.
  rewrite re_findall_spans. intros [[i m'] [-> Hin]]%list_elem_of_fmap.
  exists i. by apply re_finditer_sound.
Qed.

(** Once the rest of the text is skipped, nothing more is reported. *)
Lemma tokens_skip_all (r : regex) (s : str) :
  match_here r [] = None -> tokens r s (length s) = [].
Proof.
  intros Hnil. induction s as [|c s IH]; simpl; [by rewrite Hnil|done].
Qed.

Lemma elem_of_apply_filter_on_text (txt : str) (filters : list (string * regex)) (m : str) :
  m ∈ apply_filter_on_text txt filters <-> exists f, f ∈ filters /\ m ∈ re_findall f.2 txt.
Proof.
  unfold apply_filter_on_text.
  assert (Hgen : forall init,
    m ∈ fold_left (fun results f => results ++ re_findall f.2 txt) filters init <->
    m ∈ init \/ exists f, f ∈ filters /\ m ∈ re_findall f.2 txt).
  { induction filters as [|f fs IH]; intros init; simpl.
    - split; [auto|]. intros [?|(f & Hf%elem_of_nil & _)]; done.
    - rewrite IH, elem_of_app. split.
      + intros [[?|?]|(g & Hg & Hm)]; [auto| |].
        * right. exists f. split; [left|done].
        * right. exists g. split; [by right|done].
      + intros [?|(g & Hg & Hm)]; [auto|].
        apply elem_of_cons in Hg as [->|Hg]; [auto|]. right. eauto. }
  rewrite Hgen. split; [|auto]. by intros [?%elem_of_nil|?].
Qed.

(** ** [remove_trailing_chars] *)

Lemma terminator_LF : terminator LF = true.
Proof. reflexivity. Qed.

(** The match of a run of the class before [$]: all of the text, when all of
    it is in the class. *)
Lemma match_run_eol (p : char -> bool) (s : str) :
  p LF = true ->
  match_here [Plus p; Eol] s =
    match s with
    | [] => None
    | _ :: _ => if forallb p s then Some (s, []) else None
    end.
Proof.
  intros HLF. cbn [match_here].
  induction s as [|x s IH]; [done|].
  cbn [greedy_plus forallb]. destruct (p x) eqn:Hp; [|done].
  rewrite IH. destruct s as [|y s]; [done|].
  destruct (forallb p (y :: s)) eqn:Hall; [done|].
  destruct s as [|z s]; [|done].
  simpl in Hall. rewrite andb_true_r in Hall.
  destruct (N.eqb_spec y LF) as [->|]; [congruence|done].
Qed.

Lemma re_sub_strip_trailing (p : char -> bool) (s : str) :
  p LF = true -> re_sub [Plus p; Eol] [] s = strip_trailing p s.
Proof.
  intros HLF. unfold re_sub.
  induction s as [|x s IH]; [done|].
  cbn [tokens strip_trailing]. rewrite (match_run_eol p (x :: s) HLF).
  destruct (forallb p (x :: s)); simpl.
  - rewrite tokens_skip_all; [done|]. by rewrite match_run_eol.
  - by rewrite IH.
Qed.

Lemma remove_trailing_chars_strip (s : str) :
  remove_trailing_chars s = strip_trailing terminator s.
Proof. apply re_sub_strip_trailing, terminator_LF. Qed.

Lemma strip_trailing_forallb_false (p : char -> bool) (s : str) :
  forallb p s = false -> forallb p (strip_trailing p s) = false.
Proof.
  induction s as [|x s IH]; [done|].
  intros Hall. cbn [strip_trailing]. rewrite Hall.
  simpl in *. destruct (p x); [|done]. simpl in *. auto.
Qed.

Lemma strip_trailing_idemp (p : char -> bool) (s : str) :
  strip_trailing p (strip_trailing p s) = strip_trailing p s.
Proof.
  induction s as [|x s IH]; [done|].
  cbn [strip_trailing]. destruct (forallb p (x :: s)) eqn:Hall; [done|].
  cbn [strip_trailing].
  assert (forallb p (x :: strip_trailing p s) = false) as ->.
  { simpl in *. destruct (p x); [|done]. simpl in *.
    by apply strip_trailing_forallb_false. }
  by rewrite IH.
Qed.

(** The result is what is left of the text once a suffix of terminators is
    cut, and it does not end in one. *)
Lemma strip_trailing_spec (p : char -> bool) (s : str) :
  exists t, s = strip_trailing p s ++ t /\ forallb p t = true /\
            forall x, last (strip_trailing p s) = Some x -> p x = false.
Proof.
  induction s as [|x s (t & Hs & Ht & Hlast)].
  - exists []. by repeat split.
  - cbn [strip_trailing]. destruct (forallb p (x :: s)) eqn:Hall.
    + exists (x :: s). by repeat split.
    + exists t. repeat split; [simpl; by rewrite <- Hs|done|].
      intros y. destruct (strip_trailing p s) as [|z l] eqn:Hst.
      * simpl. intros [= <-]. simpl in Hs. subst t.
        simpl in Hall. rewrite Ht, andb_true_r in Hall. done.
      * rewrite last_cons_cons. apply Hlast.
Qed.

(** A text that does not end in a character of the class is left as it is. *)
Lemma strip_trailing_id (p : char -> bool) (s : str) :
  (forall x, last s = Some x -> p x = false) -> strip_trailing p s = s.
Proof.
  induction s as [|x s IH]; [done|]. intros Hlast.
  cbn [strip_trailing].
  destruct (forallb p (x :: s)) eqn:Hall.
  - exfalso. destruct (last (x :: s)) as [y|] eqn:Hy.
    + specialize (Hlast _ eq_refl).
      apply last_Some in Hy as [l' Hl'].
      rewrite Hl', forallb_app in Hall. simpl in Hall.
      rewrite Hlast in Hall. by rewrite andb_false_r in Hall.
    + by apply last_None in Hy.
  - f_equal. apply IH. intros y Hy. apply Hlast.
    destruct s; [done|]. by rewrite last_cons_cons.
Qed.

(** ** [clean_list_item] *)

(** A run of line feeds is matched whole. *)
Lemma match_lf_run (s : str) :
  match_here [Plus (is_char LF)] s =
    match s with
    | [] => None
    | c :: s' =>
        if N.eqb c LF then Some (c :: take (lf_run s') s', drop (lf_run s') s') else None
    end.
Proof.
  cbn [match_here]. induction s as [|c s IH]; [done|].
  cbn [greedy_plus]. unfold is_char at 1. rewrite (N.eqb_sym LF c).
  destruct (N.eqb c LF) eqn:Hc; [|done]. rewrite IH.
  destruct s as [|y s]; [done|]. cbn [lf_run].
  destruct (N.eqb y LF); done.
Qed.

Lemma length_take_lf_run (s : str) : length (take (lf_run s) s) = lf_run s.
Proof.
  induction s as [|c s IH]; [done|]. simpl.
  destruct (N.eqb c LF); simpl; [by rewrite IH|done].
Qed.

Lemma clean_tokens_collapse (s : str) :
  let sub := fun ts : list tok =>
    concat (map (fun t => match t with M _ => u " " | C c => [c] end) ts) in
  sub (tokens [Plus (is_char LF)] s 0) = collapse_from false s /\
  sub (tokens [Plus (is_char LF)] s (lf_run s)) = collapse_from true s.
Proof.
  intros sub. induction s as [|c s [IH0 IHrun]]; [done|].
  assert (H0 : sub (tokens [Plus (is_char LF)] (c :: s) 0) = collapse_from false (c :: s)).
  { cbn [tokens collapse_from]. rewrite match_lf_run.
    destruct (N.eqb c LF); simpl.
    - rewrite length_take_lf_run. by rewrite <- IHrun.
    - by rewrite <- IH0. }
  split; [done|].
  cbn [lf_run collapse_from]. destruct (N.eqb c LF) eqn:Hc.
  - cbn [tokens]. by rewrite IHrun.
  - rewrite H0. cbn [collapse_from]. by rewrite Hc.
Qed.

Lemma clean_list_item_collapse (item : str) :
  clean_list_item item = collapse_newlines item.
Proof. apply (clean_tokens_collapse item). Qed.

Lemma collapse_from_no_LF (b : bool) (s : str) : LF ∉ collapse_from b s.
Proof.
  revert b. induction s as [|c s IH]; intros b; simpl; [by intros ?%elem_of_nil|].
  destruct (N.eqb_spec c LF) as [->|Hne].
  - destruct b; simpl; [apply IH|].
    rewrite elem_of_cons. intros [[=]|?]. by eapply IH.
  - rewrite elem_of_cons. intros [?|?]; [done|]. by eapply IH.
Qed.

Lemma clean_list_item_no_LF (item : str) : LF ∉ clean_list_item item.
Proof. rewrite clean_list_item_collapse. apply collapse_from_no_LF. Qed.

(** Without a line feed there is nothing to clean. *)
Lemma collapse_from_id (b : bool) (s : str) : LF ∉ s -> collapse_from b s = s.
Proof.
  revert b. induction s as [|c s IH]; intros b; [done|].
  rewrite not_elem_of_cons. intros [Hne Hs]. simpl.
  destruct (N.eqb_spec c LF) as [->|_]; [done|]. by rewrite IH.
Qed.

Lemma clean_list_item_id (item : str) : LF ∉ item -> clean_list_item item = item.
Proof. rewrite clean_list_item_collapse. apply collapse_from_id. Qed.

(** ** UTF-8 and the lines written *)

Lemma existsb_surrogate_collapse (b : bool) (s : str) :
  existsb surrogate (collapse_from b s) = existsb surrogate s.
Proof.
  revert b. induction s as [|c s IH]; intros b; [done|].
  cbn [collapse_from]. destruct (N.eqb_spec c LF) as [->|_].
  - rewrite existsb_app, IH. by destruct b.
  - cbn [existsb]. by rewrite IH.
Qed.

Lemma utf8_encodable_app (a b : str) :
  utf8_encodable (a ++ b) = utf8_encodable a && utf8_encodable b.
Proof. unfold utf8_encodable. by rewrite existsb_app, negb_orb. Qed.

Lemma utf8_encodable_clean (e : str) :
  utf8_encodable (clean_list_item e) = utf8_encodable e.
Proof.
  unfold utf8_encodable. rewrite clean_list_item_collapse. unfold collapse_newlines.
  f_equal. apply existsb_surrogate_collapse.
Qed.

Lemma utf8_encodable_Forall (s : str) :
  utf8_encodable s = true <-> Forall (fun c => surrogate c = false) s.
Proof.
  unfold utf8_encodable. rewrite negb_true_iff.
  induction s as [|c s IH]; simpl; [by split; [constructor|]|].
  rewrite orb_false_iff, IH, Forall_cons. done.
Qed.

(** A line is written when its value can be encoded. *)
Lemma write_line (fout : list str) (e : str) :
  write fout (clean_list_item e ++ CRLF)
    = if utf8_encodable e then (fout ++ [clean_list_item e ++ CRLF], None)
      else (fout, Some UnicodeEncodeError).
Proof.
  unfold write, encode_utf8.
  assert (Hline : existsb surrogate (clean_list_item e ++ CRLF) = negb (utf8_encodable e)).
  { rewrite <- (utf8_encodable_clean e). unfold utf8_encodable.
    rewrite existsb_app, negb_involutive. simpl. by rewrite orb_false_r. }
  rewrite Hline. by destruct (utf8_encodable e).
Qed.

(** [write_list_out] writes the lines of the values that come before the
    first one UTF-8 cannot encode, and raises at that one. *)
Lemma write_list_out_written (fout enum : list str) :
  write_list_out fout enum
    = (fout ++ map (fun e => clean_list_item e ++ CRLF) (written enum),
       if forallb utf8_encodable enum then None else Some UnicodeEncodeError).
Proof.
  revert fout. induction enum as [|e enum IH]; intros fout.
  - simpl. by rewrite app_nil_r.
  - cbn [write_list_out written forallb]. rewrite write_line.
    destruct (utf8_encodable e); simpl.
    + by rewrite IH, <- app_assoc.
    + by rewrite app_nil_r.
Qed.

Lemma written_all (enum : list str) :
  Forall (fun e => utf8_encodable e = true) enum -> written enum = enum.
Proof. induction 1 as [|e enum He _ IH]; simpl; [done|]. by rewrite He, IH. Qed.

Lemma forallb_utf8_encodable (enum : list str) :
  Forall (fun e => utf8_encodable e = true) enum -> forallb utf8_encodable enum = true.
Proof. induction 1 as [|e enum He _ IH]; simpl; [done|]. by rewrite He, IH. Qed.

(** When every value can be encoded, every line is written. *)
Lemma write_list_out_app (fout enum : list str) :
  Forall (fun e => utf8_encodable e = true) enum ->
  write_list_out fout enum = (fout ++ map (fun e => clean_list_item e ++ CRLF) enum, None).
Proof.
  intros Henum.
  by rewrite write_list_out_written, written_all, forallb_utf8_encodable.
Qed.


(** ** The normaliser *)

Lemma remove_weird_unicode_map (txt : str) :
  remove_weird_unicode txt = map (fun x => if weird x then SPACE else x) txt.
Proof.
  unfold remove_weird_unicode, UNICODE_CHARS_TO_IGNORE. cbn [fold_left].
  change (u " ") with [SPACE]. rewrite !str_replace_char, !map_map.
  apply map_ext. intros x. unfold weird, SPACE.
  destruct (N.eqb_spec 0x2003 x) as [<-|]; [done|].
  destruct (N.eqb_spec 0x3BC x) as [<-|]; [done|].
  destruct (N.eqb_spec 0xFC x) as [<-|]; done.
Qed.

Lemma remove_weird_unicode_clean (txt : str) :
  Forall (fun x => weird x = false) (remove_weird_unicode txt).
Proof.
  rewrite remove_weird_unicode_map. apply list.Forall_forall. intros y Hy.
  apply list_elem_of_fmap in Hy as (x & -> & _).
  destruct (weird x) eqn:Hx; done.
Qed.

Lemma remove_weird_unicode_id (txt : str) :
  Forall (fun x => weird x = false) txt -> remove_weird_unicode txt = txt.
Proof.
  rewrite remove_weird_unicode_map. induction 1 as [|x l Hx _ IH]; [done|].
  simpl. by rewrite Hx, IH.
Qed.

Lemma strip_trailing_Forall (P : char -> Prop) (p : char -> bool) (s : str) :
  Forall P s -> Forall P (strip_trailing p s).
Proof.
  induction 1 as [|x l Hx Hl IH]; [done|].
  cbn [strip_trailing]. destruct (forallb p (x :: l)); auto.
Qed.

Lemma remove_weird_unicode_idemp (txt : str) :
  remove_weird_unicode (remove_weird_unicode txt) = remove_weird_unicode txt.
Proof. apply remove_weird_unicode_id, remove_weird_unicode_clean. Qed.

Lemma remove_trailing_chars_idemp (s : str) :
  remove_trailing_chars (remove_trailing_chars s) = remove_trailing_chars s.
Proof. rewrite !remove_trailing_chars_strip. apply strip_trailing_idemp. Qed.

(** C5: the normaliser replaces each incidental character by one space and
    then strips the trailing terminators, from the end only, and it is
    idempotent: normalising twice is normalising once. *)
Theorem normalize_idempotent (x : str) :
  normalize (normalize x) = normalize x /\
  normalize x
    = strip_trailing terminator (map (fun c => if weird c then SPACE else c) x).
Proof.
  unfold normalize. rewrite !remove_trailing_chars_strip. split.
  - rewrite (remove_weird_unicode_id (strip_trailing _ _)).
    + apply strip_trailing_idemp.
    + apply strip_trailing_Forall, remove_weird_unicode_clean.
  - by rewrite remove_weird_unicode_map.
Qed.

(** ** Counting *)

Section Occurrences.
Context {A : Type} `{EqDecision A}.
Implicit Types (x : A) (l : list A).

Lemma occurrences_nil x : occurrences x [] = 0.
Proof. done. Qed.

Lemma occurrences_app x l1 l2 :
  occurrences x (l1 ++ l2) = occurrences x l1 + occurrences x l2.
Proof. unfold occurrences. by rewrite filter_app, length_app. Qed.

Lemma occurrences_cons x y l :
  occurrences x (y :: l) = (if decide (y = x) then 1 else 0) + occurrences x l.
Proof. unfold occurrences. rewrite filter_cons. by destruct (decide (y = x)). Qed.

Lemma occurrences_not_elem x l : x ∉ l -> occurrences x l = 0.
Proof.
  induction l as [|y l IH]; [done|].
  rewrite not_elem_of_cons, occurrences_cons. intros [Hne Hl].
  rewrite decide_False by done. by rewrite IH.
Qed.

Lemma occurrences_pos x l : x ∈ l <-> 0 < occurrences x l.
Proof.
  split.
  - induction 1 as [y l|y z l _ IH]; rewrite occurrences_cons.
    + rewrite decide_True by done. lia.
    + lia.
  - intros Hpos. destruct (decide (x ∈ l)) as [|Hn]; [done|].
    rewrite occurrences_not_elem in Hpos by done. lia.
Qed.

Lemma occurrences_perm x l1 l2 : l1 ≡ₚ l2 -> occurrences x l1 = occurrences x l2.
Proof. intros Hp. unfold occurrences. by rewrite Hp. Qed.

(** In a concatenation over a duplicate-free list where only the part of [y0]
    can hold [x], the occurrences of [x] are those of that part. *)
Lemma occurrences_bind_unique {B : Type} `{EqDecision B} (f : B -> list A)
    (ys : list B) (y0 : B) x :
  NoDup ys ->
  (forall y, y ∈ ys -> y <> y0 -> x ∉ f y) ->
  occurrences x (ys ≫= f) = if decide (y0 ∈ ys) then occurrences x (f y0) else 0.
Proof.
  induction 1 as [|y ys Hy Hnd IH]; intros Hother; [done|].
  rewrite bind_cons, occurrences_app.
  rewrite IH by (intros z Hz; apply Hother; by right).
  destruct (decide (y = y0)) as [->|Hne].
  - rewrite (decide_True (P := y0 ∈ y0 :: ys)) by left.
    rewrite decide_False by done. lia.
  - rewrite (occurrences_not_elem x (f y)) by (apply Hother; [left|done]).
    destruct (decide (y0 ∈ ys)) as [Hin|Hnin].
    + rewrite decide_True; [done|by right].
    + rewrite decide_False; [done|]. rewrite elem_of_cons. intros [?|?]; congruence.
Qed.
End Occurrences.

(** The loops that append to a list build a concatenation. *)
Lemma fold_left_app_bind {A B : Type} (g : list B -> A -> list B) (f : A -> list B)
    (l : list A) (init : list B) :
  (forall acc x, g acc x = acc ++ f x) ->
  fold_left g l init = init ++ (l ≫= f).
Proof.
  intros Hg. revert init. induction l as [|x l IH]; intros init; cbn [fold_left].
  - by rewrite app_nil_r.
  - rewrite IH, Hg, bind_cons. by rewrite app_assoc.
Qed.

Lemma occurrences_map_inj_on {A B : Type} `{EqDecision A} `{EqDecision B}
    (f : A -> B) (x : A) (l : list A) :
  (forall y, y ∈ l -> f y = f x -> y = x) ->
  occurrences (f x) (map f l) = occurrences x l.
Proof.
  induction l as [|y l IH]; intros Hinj; [done|].
  cbn [map]. rewrite !occurrences_cons.
  rewrite IH by (intros z Hz; apply Hinj; by right).
  destruct (decide (y = x)) as [->|Hne].
  - by rewrite decide_True.
  - rewrite decide_False; [done|]. intros Heq. apply Hne, Hinj; [left|done].
Qed.

Lemma tab_pair_inj (a b a' b' : str) :
  TAB ∉ a -> TAB ∉ a' -> tab_pair a b = tab_pair a' b' -> a = a' /\ b = b'.
Proof.
  unfold tab_pair. revert a'. induction a as [|x a IH]; intros [|y a']; simpl.
  - by intros _ _ [= ->].
  - intros _ Hy%not_elem_of_cons [= <- _]. by destruct Hy.
  - intros Hx%not_elem_of_cons _ [= -> _]. by destruct Hx.
  - intros [_ Ha]%not_elem_of_cons [_ Ha']%not_elem_of_cons [= -> Heq].
    destruct (IH a' Ha Ha' Heq) as [-> ->]. done.
Qed.

Lemma map_id_on {A : Type} (f : A -> A) (l : list A) :
  Forall (fun x => f x = x) l -> map f l = l.
Proof. induction 1 as [|x l Hx _ IH]; [done|]. simpl. by rewrite Hx, IH. Qed.

Lemma map_bind {A B C : Type} (g : B -> C) (f : A -> list B) (l : list A) :
  map g (l ≫= f) = l ≫= fun x => map g (f x).
Proof.
  induction l as [|x l IH]; [done|]. by rewrite !bind_cons, map_app, IH.
Qed.

(** ** Set iteration *)

Section SetIterationFacts.
Context `{SetIteration}.

Lemma elem_of_set_iter (x : str) (X : gset str) : x ∈ set_iter X <-> x ∈ X.
Proof. by rewrite set_iter_perm, elem_of_elements. Qed.

Lemma NoDup_set_iter (X : gset str) : NoDup (set_iter X).
Proof. rewrite set_iter_perm. apply NoDup_elements. Qed.

Lemma length_set_iter (X : gset str) : length (set_iter X) = size X.
Proof. by rewrite set_iter_perm. Qed.

Lemma elem_of_set_iter_set_of (x : str) (l : list str) :
  x ∈ set_iter (set_of l) <-> x ∈ l.
Proof. rewrite elem_of_set_iter. unfold set_of. by rewrite elem_of_list_to_set. Qed.

Lemma set_iter_empty : set_iter ∅ = [].
Proof.
  apply Permutation_nil_r. rewrite set_iter_perm. by rewrite elements_empty.
Qed.

(** ** The entity-entity edges *)

Lemma entities_actions_out_list_edges (d : details) :
  entities_actions_out_list d =
  map (fun e => tab_pair e.1 e.2) (entities_actions_edges d).
Proof.
  unfold entities_actions_out_list, entities_actions_edges.
  rewrite (fold_left_app_bind _ (fun entity =>
    entity2 ← set_iter (set_of (entities d));
    if decide (entity = entity2) then []
    else (action ← set_iter (set_of (actions d)); [tab_pair entity entity2]))).
  - cbn [app]. rewrite map_bind. apply list_bind_ext; [|done]. intros e.
    rewrite map_bind. apply list_bind_ext; [|done]. intros e2.
    destruct (decide (e = e2)); [done|]. by rewrite map_bind.
  - intros acc entity.
    apply (fold_left_app_bind _ (fun entity2 =>
      if decide (entity = entity2) then []
      else (action ← set_iter (set_of (actions d)); [tab_pair entity entity2]))).
    intros acc2 entity2. destruct (decide (entity = entity2)).
    + by rewrite app_nil_r.
    + by apply (fold_left_app_bind _ (fun _ => [tab_pair entity entity2])).
Qed.

Lemma occurrences_const_bind {A B : Type} `{EqDecision B} (x : B) (l : list A) :
  occurrences x (l ≫= fun _ => [x]) = length l.
Proof.
  induction l as [|a l IH]; [done|].
  rewrite bind_cons, occurrences_app, IH. simpl.
  rewrite occurrences_cons, decide_True by done. done.
Qed.

Lemma entities_actions_edges_occurrences (d : details) (e1 e2 : str) :
  occurrences (e1, e2) (entities_actions_edges d) =
  if decide (e1 ∈ entities d /\ e2 ∈ entities d /\ e1 <> e2)
  then size (set_of (actions d)) else 0.
Proof.
  unfold entities_actions_edges.
  rewrite (occurrences_bind_unique _ _ e1); [|apply NoDup_set_iter|].
  2:{ intros e He Hne (e' & Hin & _)%list_elem_of_bind.
      destruct (decide (e = e')); [by apply elem_of_nil in Hin|].
      apply list_elem_of_bind in Hin as (_ & [= -> _]%list_elem_of_singleton & _).
      done. }
  destruct (decide (e1 ∈ set_iter (set_of (entities d)))) as [H1|H1];
    rewrite elem_of_set_iter_set_of in H1;
    [|rewrite decide_False; [done|tauto]].
  rewrite (occurrences_bind_unique _ _ e2); [|apply NoDup_set_iter|].
  2:{ intros e He Hne Hin.
      destruct (decide (e1 = e)); [by apply elem_of_nil in Hin|].
      apply list_elem_of_bind in Hin as (_ & [= ->]%list_elem_of_singleton & _).
      done. }
  destruct (decide (e2 ∈ set_iter (set_of (entities d)))) as [H2|H2];
    rewrite elem_of_set_iter_set_of in H2;
    [|rewrite decide_False; [done|tauto]].
  destruct (decide (e1 = e2)) as [->|Hne].
  - rewrite decide_False; [done|tauto].
  - rewrite decide_True by done.
    by rewrite occurrences_const_bind, length_set_iter.
Qed.

Lemma elem_of_entities_actions_edges (d : details) (e1 e2 : str) :
  (e1, e2) ∈ entities_actions_edges d -> e1 ∈ entities d /\ e2 ∈ entities d /\ e1 <> e2.
Proof.
  intros Hin%occurrences_pos. rewrite entities_actions_edges_occurrences in Hin.
  destruct (decide _) as [Hd|_]; [done|lia].
Qed.

(** On entities without a tab, a line determines its edge. *)
Lemma entities_actions_out_list_occurrences (d : details) (e1 e2 : str) :
  Forall (fun e => TAB ∉ e) (entities d) -> TAB ∉ e1 ->
  occurrences (tab_pair e1 e2) (entities_actions_out_list d)
    = occurrences (e1, e2) (entities_actions_edges d).
Proof.
  intros Hent He1. rewrite entities_actions_out_list_edges.
  apply (occurrences_map_inj_on (fun e : str * str => tab_pair e.1 e.2) (e1, e2)).
  intros [a b] (Ha & _ & _)%elem_of_entities_actions_edges Heq.
  apply (proj1 (list.Forall_forall _ _) Hent) in Ha.
  destruct (tab_pair_inj a b e1 e2 Ha He1 Heq) as [-> ->]. done.
Qed.

(** C1: the entity-entity edge builder emits one line per edge; the edge
    (e1, e2) of two distinct entities of the document occurs as many times as
    the document has distinct actions, in both orientations; a pair of equal
    entities, or with a member that is no entity of the document, never
    occurs; without actions nothing is emitted at all.  When no entity holds
    a tab, the line e1, tab, e2 occurs that many times as well. *)
Theorem entity_entity_multiplicity (d : details) :
  entities_actions_out_list d
    = map (fun e => tab_pair e.1 e.2) (entities_actions_edges d) /\
  (forall e1 e2 : str, e1 ∈ entities d -> e2 ∈ entities d -> e1 <> e2 ->
     occurrences (e1, e2) (entities_actions_edges d) = size (set_of (actions d)) /\
     occurrences (e2, e1) (entities_actions_edges d) = size (set_of (actions d))) /\
  (forall e1 e2 : str, e1 = e2 \/ e1 ∉ entities d \/ e2 ∉ entities d ->
     occurrences (e1, e2) (entities_actions_edges d) = 0) /\
  (set_of (actions d) = ∅ -> entities_actions_out_list d = []) /\
  (Forall (fun e => TAB ∉ e) (entities d) ->
   forall e1 e2 : str, e1 ∈ entities d -> e2 ∈ entities d ->
     occurrences (tab_pair e1 e2) (entities_actions_out_list d)
       = if decide (e1 = e2) then 0 else size (set_of (actions d))).
Proof.
  split; [apply entities_actions_out_list_edges|]. split; [|split; [|split]].
  - intros e1 e2 H1 H2 Hne. rewrite !entities_actions_edges_occurrences.
    rewrite !decide_True; done.
  - intros e1 e2 Hcase. rewrite entities_actions_edges_occurrences.
    rewrite decide_False; [done|]. intros (? & ? & ?). destruct Hcase as [?|[?|?]]; done.
  - intros Hempty. rewrite entities_actions_out_list_edges.
    assert (entities_actions_edges d = []) as ->; [|done].
    apply elem_of_nil_inv. intros [e1 e2] Hin%occurrences_pos.
    rewrite entities_actions_edges_occurrences, Hempty, size_empty in Hin.
    destruct (decide _); lia.
  - intros Hent e1 e2 H1 H2.
    rewrite entities_actions_out_list_occurrences;
      [|done|by apply (proj1 (list.Forall_forall _ _) Hent)].
    rewrite entities_actions_edges_occurrences.
    destruct (decide (e1 = e2)) as [->|Hne].
    + rewrite decide_False; [done|]. by intros (_ & _ & ?).
    + by rewrite decide_True.
Qed.
End SetIterationFacts.

(** ** The corpus fold *)

Lemma fold_in_union (l : list details) (st : corpus) :
  all_actions (fold_left fold_in l st)
    = all_actions st ∪ ⋃ (map (fun d => set_of (actions d)) l) /\
  all_entities (fold_left fold_in l st)
    = all_entities st ∪ ⋃ (map (fun d => set_of (entities d)) l) /\
  all_citations (fold_left fold_in l st)
    = all_citations st ∪ ⋃ (map (fun d => set_of (citations d)) l).
Proof.
  revert st. induction l as [|d l IH]; intros st; cbn [fold_left map].
  - rewrite !union_list_nil, !(right_id_L ∅ (∪)). done.
  - destruct (IH (fold_in st d)) as (-> & -> & ->).
    rewrite !union_list_cons, !(assoc_L (∪)). done.
Qed.

(** C7: the corpus fold does not depend on the order of the document records:
    folding the records of a collection in any order into the corpus-wide sets
    gives the same three sets of actions, entities and citations. *)
Theorem corpus_fold_order_independent (l1 l2 : list details) (st : corpus) :
  l1 ≡ₚ l2 ->
  all_actions (fold_left fold_in l1 st) = all_actions (fold_left fold_in l2 st) /\
  all_entities (fold_left fold_in l1 st) = all_entities (fold_left fold_in l2 st) /\
  all_citations (fold_left fold_in l1 st) = all_citations (fold_left fold_in l2 st).
Proof.
  intros Hperm.
  destruct (fold_in_union l1 st) as (-> & -> & ->).
  destruct (fold_in_union l2 st) as (-> & -> & ->).
  repeat split; f_equal; apply union_list_permutation_proper_L;
    by apply Permutation_map.
Qed.

(** The loop of [parse_laws] folds the records of the laws it extracts. *)
Lemma parse_law_fold_in (st st' : corpus) (d : dir_entry) :
  parse_law st d = inr st' ->
  let st1 := fold_left fold_in (option_list (law_record d)) st in
  all_actions st' = all_actions st1 /\
  all_entities st' = all_entities st1 /\
  all_citations st' = all_citations st1.
Proof.
  unfold parse_law, law_record, is_law.
  destruct (negb (d_is_file d) || negb (endswith (u "htm") (d_name d))); simpl.
  - by intros [= ->].
  - destruct (law_text d) as [e|txt]; simpl; [done|]. by intros [= <-].
Qed.

Lemma fold_in_same_sets (l : list details) (st st' : corpus) :
  all_actions st = all_actions st' ->
  all_entities st = all_entities st' ->
  all_citations st = all_citations st' ->
  all_actions (fold_left fold_in l st) = all_actions (fold_left fold_in l st') /\
  all_entities (fold_left fold_in l st) = all_entities (fold_left fold_in l st') /\
  all_citations (fold_left fold_in l st) = all_citations (fold_left fold_in l st').
Proof.
  intros Ha He Hc.
  destruct (fold_in_union l st) as (-> & -> & ->).
  destruct (fold_in_union l st') as (-> & -> & ->).
  by rewrite Ha, He, Hc.
Qed.

Lemma scan_laws_fold_in (st st' : corpus) (ds : list dir_entry) :
  scan_laws st ds = inr st' ->
  let st1 := fold_left fold_in (omap law_record ds) st in
  all_actions st' = all_actions st1 /\
  all_entities st' = all_entities st1 /\
  all_citations st' = all_citations st1.
Proof.
  revert st. induction ds as [|d ds IH]; intros st; cbn [scan_laws].
  - by intros [= ->].
  - destruct (parse_law st d) as [e|st2] eqn:Hd; cbn [mbind exn_bind]; [done|].
    intros Hscan. destruct (IH _ Hscan) as (-> & -> & ->).
    destruct (parse_law_fold_in _ _ _ Hd) as (Ha & He & Hc).
    assert (Hcons : fold_left fold_in (omap law_record (d :: ds)) st
              = fold_left fold_in (omap law_record ds)
                  (fold_left fold_in (option_list (law_record d)) st)).
    { cbn [omap list_omap]. by destruct (law_record d). }
    cbv zeta. rewrite Hcons. by apply fold_in_same_sets.
Qed.

(** Whatever order the directory is listed in, a run that returns gives the
    same three sets. *)
Lemma parse_laws_order_independent (ds1 ds2 : list dir_entry) (c1 c2 : corpus) :
  ds1 ≡ₚ ds2 -> parse_laws ds1 = inr c1 -> parse_laws ds2 = inr c2 ->
  all_actions c1 = all_actions c2 /\
  all_entities c1 = all_entities c2 /\
  all_citations c1 = all_citations c2.
Proof.
  unfold parse_laws. intros Hperm.
  destruct (scan_laws corpus_init ds1) as [|st1] eqn:H1; simpl; [done|].
  destruct (scan_laws corpus_init ds2) as [|st2] eqn:H2; simpl; [done|].
  intros [= <-] [= <-]. simpl.
  destruct (scan_laws_fold_in _ _ _ H1) as (-> & -> & ->).
  destruct (scan_laws_fold_in _ _ _ H2) as (-> & -> & ->).
  destruct (fold_in_union (omap law_record ds1) corpus_init) as (-> & -> & ->).
  destruct (fold_in_union (omap law_record ds2) corpus_init) as (-> & -> & ->).
  assert (Hrec : omap law_record ds1 ≡ₚ omap law_record ds2) by (by rewrite Hperm).
  repeat split; f_equal; apply union_list_permutation_proper_L;
    by apply Permutation_map.
Qed.

(** ** The citation collection *)

Lemma occurrences_filter {A : Type} `{EqDecision A} (P : A -> Prop)
    `{forall x, Decision (P x)} (x : A) (l : list A) :
  occurrences x (filter P l) = if decide (P x) then occurrences x l else 0.
Proof.
  induction l as [|y l IH]; [by destruct (decide (P x))|].
  rewrite filter_cons. destruct (decide (P y)) as [Hy|Hy].
  - rewrite !occurrences_cons, IH. destruct (decide (P x)); [done|].
    rewrite decide_False; [done|]. by intros ->.
  - rewrite IH, occurrences_cons. destruct (decide (P x)); [|done].
    rewrite decide_False; [done|]. by intros ->.
Qed.

(** C4: a citation that the patterns extracted is in the citation collection
    of the document exactly when it is shorter than 200 characters: one of
    length 200 or more is excluded, a shorter one is retained, as many times
    as it was extracted. *)
Theorem citation_length_filter (txt c : str) :
  (c ∈ citations (law_details txt) <->
     c ∈ get_citations_from_text txt /\ length c < 200) /\
  (200 <= length c -> c ∉ citations (law_details txt)) /\
  (length c < 200 ->
     occurrences c (citations (law_details txt))
       = occurrences c (get_citations_from_text txt)).
Proof.
  cbn [law_details citations]. unfold LONGEST_POSSIBLE_CITATION_LENGTH.
  split; [|split].
  - rewrite list_elem_of_filter, elem_of_sorted. tauto.
  - intros Hlen. rewrite list_elem_of_filter. lia.
  - intros Hlen. rewrite occurrences_filter, decide_True by done.
    apply occurrences_perm, sorted_perm.
Qed.

Lemma digit_not_terminator (x : char) : digit x = true -> terminator x = false.
Proof.
  unfold digit. intros [H1%N.leb_le H2%N.leb_le]%andb_true_iff.
  assert (Hx : (x = 48 \/ x = 49 \/ x = 50 \/ x = 51 \/ x = 52 \/ x = 53 \/ x = 54 \/
                x = 55 \/ x = 56 \/ x = 57)%N) by lia.
  repeat destruct Hx as [->|Hx]; try reflexivity. by subst.
Qed.

Lemma citation_pattern_shape (f : string * regex) :
  f ∈ CITATION_RES -> exists r1, f.2 = r1 ++ [Rep digit 4 4].
Proof.
  assert (Htail : forall kw, exists r1, lits kw ++ citation_tail = r1 ++ [Rep digit 4 4]).
  { intros kw. exists (lits kw ++ removelast citation_tail).
    by rewrite <- app_assoc. }
  unfold CITATION_RES. rewrite !elem_of_cons, elem_of_nil.
  intros Hf. repeat destruct Hf as [->|Hf]; try apply Htail. done.
Qed.

(** A match of a citation pattern ends in the last digit of its year. *)
Lemma citation_match_ends_in_digit (f : string * regex) (s m rest : str) :
  f ∈ CITATION_RES ->
  match_here f.2 s = Some (m, rest) ->
  exists x, last m = Some x /\ digit x = true.
Proof.
  intros [r1 ->]%citation_pattern_shape (m1 & m2 & -> & _ & H2)%match_here_app_inv.
  cbn [match_here] in H2.
  apply greedy_rep_inv in H2 as (d & m' & s2 & -> & _ & Hall & Hlen & [= <- _]).
  rewrite app_nil_r. destruct (last d) as [x|] eqn:Hlast.
  - exists x. rewrite last_app, Hlast. split; [done|].
    apply last_Some_elem_of in Hlast.
    by apply (proj1 (list.Forall_forall _ _) Hall).
  - apply last_None in Hlast as ->. simpl in Hlen. lia.
Qed.

Lemma citations_end_in_digit (txt c : str) :
  c ∈ get_citations_from_text txt -> exists x, last c = Some x /\ digit x = true.
Proof.
  intros (f & Hf & Hc)%elem_of_apply_filter_on_text.
  apply re_findall_sound in Hc as (i & rest & Hm).
  by eapply citation_match_ends_in_digit.
Qed.

Lemma remove_trailing_chars_citation (txt c : str) :
  c ∈ get_citations_from_text txt -> remove_trailing_chars c = c.
Proof.
  intros (x & Hlast & Hd)%citations_end_in_digit.
  rewrite remove_trailing_chars_strip. apply strip_trailing_id.
  intros y Hy. rewrite Hlast in Hy. injection Hy as <-.
  by apply digit_not_terminator.
Qed.

(** C2: the citation collection of a document is what normalising every raw
    match before the length filter and the sort gives (a citation match ends in
    the last digit of its year, so that stripping the trailing terminators
    changes none), and every element is normalised: it ends in no terminator. *)
Theorem citations_are_normalized (txt : str) :
  citations (law_details txt) = citations_normalized txt /\
  forall c : str, c ∈ citations (law_details txt) ->
    remove_trailing_chars c = c /\
    exists x, last c = Some x /\ terminator x = false.
Proof.
  split.
  - cbn [law_details citations]. unfold citations_normalized.
    do 2 f_equal. symmetry. apply map_id_on.
    apply list.Forall_forall. intros c Hc. by eapply remove_trailing_chars_citation.
  - cbn [law_details citations]. intros c [_ Hc]%list_elem_of_filter.
    rewrite elem_of_sorted in Hc.
    split; [by eapply remove_trailing_chars_citation|].
    destruct (citations_end_in_digit _ _ Hc) as (x & Hlast & Hd).
    exists x. split; [done|]. by apply digit_not_terminator.
Qed.

(** ** Keyword patterns *)

(** A keyword followed by a character of a class: the only match at a position
    is the keyword with that character. *)
Lemma match_keyword_class (kw : str) (b : char -> bool) (c : char) (rest : str) :
  b c = true ->
  match_here (lits kw ++ [Cls b]) (kw ++ c :: rest) = Some (kw ++ [c], rest).
Proof.
  intros Hb. unfold lits. induction kw as [|x kw IH]; simpl.
  - by rewrite Hb.
  - by rewrite N.eqb_refl, IH.
Qed.

Lemma match_keyword_class_inv (kw : str) (b : char -> bool) (s m rest : str) :
  match_here (lits kw ++ [Cls b]) s = Some (m, rest) ->
  exists c, m = kw ++ [c] /\ b c = true /\ s = kw ++ c :: rest.
Proof.
  unfold lits. revert s m. induction kw as [|x kw IH]; intros s m; simpl.
  - destruct s as [|c s]; [done|]. destruct (b c) eqn:Hb; [|done].
    intros [= <- <-]. by exists c.
  - destruct s as [|y s]; [done|]. destruct (N.eqb_spec y x) as [->|]; [|done].
    intros Hc. apply consume_Some in Hc as (m' & -> & Hm).
    destruct (IH _ _ Hm) as (c & -> & Hb & ->). by exists c.
Qed.

(** An occurrence of the keyword followed by a character of the class is
    reported by the scan: no earlier match can reach into it, because a match
    ends in a character of the class and the keyword has none. *)
Lemma spans_tokens_keyword (kw : str) (b : char -> bool) (c : char) (pre rest : str)
    (pos skip : nat) :
  kw <> [] ->
  Forall (fun x => b x = false) kw ->
  b c = true ->
  (skip = 0 \/ exists k x, skip = S k /\ k < length kw /\
                           (pre ++ kw ++ c :: rest) !! k = Some x /\ b x = true) ->
  (pos + length pre, kw ++ [c])
    ∈ spans (pos + skip) (tokens (lits kw ++ [Cls b]) (pre ++ kw ++ c :: rest) skip).
Proof.
  intros Hne Hkw Hb. revert pos skip.
  induction pre as [|a pre IH]; intros pos skip Hinv.
  - assert (skip = 0) as ->.
    { destruct Hinv as [?|(k & x & -> & Hk & Hx & Hbx)]; [done|].
      exfalso. simpl in Hx. rewrite lookup_app_l in Hx by done.
      apply list_elem_of_lookup_2 in Hx.
      rewrite (proj1 (list.Forall_forall _ _) Hkw x Hx) in Hbx. done. }
    destruct kw as [|y kw]; [done|].
    pose proof (match_keyword_class (y :: kw) b c rest Hb) as Hm.
    cbn [app] in Hm. cbn [app length tokens]. rewrite Hm.
    cbn [app spans]. rewrite !Nat.add_0_r. left.
  - cbn [app length tokens]. destruct skip as [|k].
    + destruct (match_here _ (a :: pre ++ kw ++ c :: rest)) as [[[|x m'] rest']|] eqn:Hm.
      * cbn [spans]. right.
        replace (S (pos + 0 + length (@nil char))) with (S pos + 0) by (simpl; lia).
        replace (pos + S (length pre)) with (S pos + length pre) by lia.
        apply IH. by left.
      * cbn [spans]. right.
        apply match_keyword_class_inv in Hm as (c' & Hxm & Hb' & Hs).
        assert (Hlen : length m' = length kw).
        { apply (f_equal length) in Hxm. rewrite length_app in Hxm. simpl in Hxm. lia. }
        replace (pos + 0 + length (x :: m')) with (S pos + length m') by (simpl; lia).
        replace (pos + S (length pre)) with (S pos + length pre) by lia.
        apply IH. right. destruct kw as [|y kw]; [done|].
        exists (length kw), c'. rewrite Hlen. simpl.
        repeat split; [lia| |done].
        injection Hs as _ Hs. rewrite Hs.
        by rewrite list_lookup_middle.
      * cbn [spans].
        replace (S (pos + 0)) with (S pos + 0) by lia.
        replace (pos + S (length pre)) with (S pos + length pre) by lia.
        apply IH. by left.
    + replace (pos + S k) with (S pos + k) by lia.
      replace (pos + S (length pre)) with (S pos + length pre) by lia.
      apply IH. destruct Hinv as [?|(k' & x & [= <-] & Hk & Hx & Hbx)]; [done|].
      destruct k as [|k]; [by left|]. right.
      exists k, x. repeat split; [lia|done|done].
Qed.

Lemma re_finditer_keyword (kw : str) (b : char -> bool) (c : char) (pre rest : str) :
  kw <> [] ->
  Forall (fun x => b x = false) kw ->
  b c = true ->
  (length pre, kw ++ [c]) ∈ re_finditer (lits kw ++ [Cls b]) (pre ++ kw ++ c :: rest).
Proof.
  intros Hne Hkw Hb.
  apply (spans_tokens_keyword kw b c pre rest 0 0 Hne Hkw Hb). by left.
Qed.

(** Every action pattern is its keyword followed by the word-boundary class,
    and no keyword has a character of that class. *)
Lemma action_pattern_shape (f : string * regex) :
  f ∈ ACTION_RES ->
  f.2 = lits (keyword f.2) ++ [Cls boundary] /\
  keyword f.2 <> [] /\
  Forall (fun x => boundary x = false) (keyword f.2).
Proof.
  unfold ACTION_RES. rewrite !elem_of_cons, elem_of_nil.
  intros Hf.
  repeat destruct Hf as [->|Hf]; try done;
    (split; [reflexivity|split; [done|repeat constructor]]).
Qed.

Lemma boundary_spec (c : char) :
  boundary c = true <->
  c = 32%N \/ c = 46%N \/ c = 59%N \/ c = 44%N \/ is_space c = true.
Proof.
  unfold boundary. rewrite !orb_true_iff, !N.eqb_eq. tauto.
Qed.

(** C6: for every action pattern and every text, an occurrence of the keyword
    that is not followed by a word-boundary character (it is the prefix of a
    longer word, or the text ends) is not matched, and an occurrence
    immediately followed by a space, a full stop, a semicolon, a comma or
    another white space character is matched, with that character. *)
Theorem action_word_boundary (f : string * regex) (pre rest : str) :
  f ∈ ACTION_RES ->
  ((forall c, head rest = Some c -> boundary c = false) ->
   forall m, (length pre, m) ∉ re_finditer f.2 (pre ++ keyword f.2 ++ rest)) /\
  (forall c, head rest = Some c -> boundary c = true ->
   (length pre, keyword f.2 ++ [c]) ∈ re_finditer f.2 (pre ++ keyword f.2 ++ rest) /\
   keyword f.2 ++ [c] ∈ re_findall f.2 (pre ++ keyword f.2 ++ rest)) /\
  (forall c, boundary c = true <->
   c = 32%N \/ c = 46%N \/ c = 59%N \/ c = 44%N \/ is_space c = true).
Proof.
  intros (Hshape & Hne & Hkw)%action_pattern_shape.
  remember (keyword f.2) as kw eqn:Ekw. clear Ekw. rewrite Hshape. clear Hshape.
  split; [|split; [|apply boundary_spec]].
  - intros Hrest m (rest' & Hm)%re_finditer_sound.
    rewrite drop_app_length in Hm.
    apply match_keyword_class_inv in Hm as (c & _ & Hb & Heq).
    apply app_inv_head in Heq. rewrite Heq in Hrest.
    rewrite (Hrest c eq_refl) in Hb. done.
  - intros c Hhead Hb. destruct rest as [|c' rest]; [done|].
    injection Hhead as ->.
    assert (Hin : (length pre, kw ++ [c])
                    ∈ re_finditer (lits kw ++ [Cls boundary]) (pre ++ kw ++ c :: rest)).
    { by apply re_finditer_keyword. }
    split; [done|]. rewrite re_findall_spans.
    apply list_elem_of_fmap. by exists (length pre, kw ++ [c]).
Qed.

(** C10: an action keyword at the very end of the text is never matched: the
    pattern of the keyword does not match there, and every match that any
    action pattern reports ends before that occurrence begins. *)
Theorem action_at_end_of_text_not_matched (f g : string * regex) (pre : str) :
  f ∈ ACTION_RES -> g ∈ ACTION_RES ->
  match_here g.2 (keyword g.2) = None /\
  (forall m, (length pre, m) ∉ re_finditer g.2 (pre ++ keyword g.2)) /\
  (forall i m, (i, m) ∈ re_finditer f.2 (pre ++ keyword g.2) ->
     i + length m <= length pre).
Proof.
  intros (Hf & _ & _)%action_pattern_shape (Hg & _ & Hkw)%action_pattern_shape.
  remember (keyword f.2) as kwf eqn:Ef. clear Ef.
  remember (keyword g.2) as kwg eqn:Eg. clear Eg.
  rewrite Hf, Hg. clear Hf Hg.
  assert (Hnone : match_here (lits kwg ++ [Cls boundary]) kwg = None).
  { destruct (match_here _ kwg) as [[m rest]|] eqn:Hm; [|done].
    apply match_keyword_class_inv in Hm as (c & _ & _ & Heq).
    apply (f_equal length) in Heq. rewrite length_app in Heq. simpl in Heq. lia. }
  split; [done|]. split.
  - intros m (rest & Hm)%re_finditer_sound.
    rewrite drop_app_length in Hm. congruence.
  - intros i m (rest & Hm)%re_finditer_sound.
    apply match_keyword_class_inv in Hm as (c & -> & Hb & Heq).
    assert (Hc : (pre ++ kwg) !! (i + length kwf) = Some c).
    { rewrite <- lookup_drop, Heq. by rewrite list_lookup_middle. }
    rewrite length_app. simpl.
    destruct (decide (i + length kwf < length pre)) as [|Hge]; [lia|].
    exfalso. rewrite lookup_app_r in Hc by lia.
    apply list_elem_of_lookup_2 in Hc.
    rewrite (proj1 (list.Forall_forall _ _) Hkw c Hc) in Hb. done.
Qed.

(** ** Every table goes through [write_list_out] *)

Lemma write_list_out_table_lines (fout enum : list str) :
  Forall table_line fout -> Forall table_line (write_list_out fout enum).1.
Proof.
  intros Hfout. rewrite write_list_out_written. cbn [fst].
  apply Forall_app. split; [done|].
  apply list.Forall_forall. intros chunk (e & -> & _)%list_elem_of_fmap.
  exists (clean_list_item e). split; [done|apply clean_list_item_no_LF].
Qed.

Lemma write_encodable (fout : list str) (s : str) :
  utf8_encodable s = true -> write fout s = (fout ++ [s], None).
Proof.
  unfold utf8_encodable, write, encode_utf8. intros Hs%negb_true_iff. by rewrite Hs.
Qed.

Section Tables.
Context `{SetIteration}.

(** C9: every line that [write_list_out] writes is its value with every
    maximal run of line feeds replaced by one space, followed by CR LF, so
    that no value written contains a line feed.  It writes the lines of the
    values in order, up to the first value UTF-8 cannot encode, where it
    raises; when every value can be encoded it writes the lines of all of
    them and returns.  The lines of every output table (the four edge
    tables, the four listing tables) are written by [write_list_out], as are
    the lists of the reports: each of these functions leaves in its file
    what [write_list_out] wrote, and raises what it raised. *)
Theorem write_list_out_collapses_newlines (fs : files) (law_name : str) (d : details)
    (fout enum : list str) :
  let written_by := fun (r : outcome files) (path : str) (w : outcome (list str)) =>
    r.1 !! path = Some w.1 /\ r.2 = w.2 in
  (write_list_out fout enum).1
    = fout ++ map (fun e => collapse_newlines e ++ CRLF) (written enum) /\
  (Forall (fun e => utf8_encodable e = true) enum ->
   write_list_out fout enum
     = (fout ++ map (fun e => collapse_newlines e ++ CRLF) enum, None)) /\
  (forall e : str, clean_list_item e = collapse_newlines e /\ LF ∉ clean_list_item e) /\
  (Forall table_line fout -> Forall table_line (write_list_out fout enum).1) /\
  written_by (write_to_fout_entities_actions fs d) (out_path ENTITIES_CONNECTED_BY_ACTIONS)
    (write_list_out (default [] (fs !! out_path ENTITIES_CONNECTED_BY_ACTIONS))
       (entities_actions_out_list d)) /\
  written_by (write_to_fout_entities_laws fs law_name d) (out_path ENTITIES_LAWS_BIPARTITE)
    (write_list_out (default [] (fs !! out_path ENTITIES_LAWS_BIPARTITE))
       (entities_laws_out_list law_name d)) /\
  written_by (write_to_fout_entities_citations fs d) (out_path ENTITIES_CITATIONS_BIPARTITE)
    (write_list_out (default [] (fs !! out_path ENTITIES_CITATIONS_BIPARTITE))
       (entities_citations_out_list d)) /\
  written_by (write_to_fout_laws_citations fs law_name d) (out_path LAWS_CITATIONS_BIPARTITE)
    (write_list_out (default [] (fs !! out_path LAWS_CITATIONS_BIPARTITE))
       (laws_citations_out_list law_name d)) /\
  (forall name x,
     written_by (write_all name x fs enum) (out_path name)
       (write_list_out []
          (iter_to_list_of_strings (set_iter (set_of (map clean_list_item enum))) x))) /\
  written_by (write_to_fout_txt fs law_name d)
    (out_path (str_replace (u "htm") (u "out.txt") law_name))
    (let! fout := write_list_out [CITATIONS_HEADER ++ CRLF] (citations d) in
     let! fout := write_list_out (fout ++ [CRLF ++ CRLF; ACTIONS_HEADER ++ CRLF]) (actions d) in
     write_list_out (fout ++ [CRLF ++ CRLF; ENTITIES_HEADER ++ CRLF]) (entities d)).
Proof.
  intros written_by. split; [|split; [|split; [|split]]].
  - rewrite write_list_out_written. cbn [fst]. f_equal. apply map_ext. intros e.
    by rewrite clean_list_item_collapse.
  - intros Henum. rewrite write_list_out_app by done. do 2 f_equal.
    apply map_ext. intros e. by rewrite clean_list_item_collapse.
  - intros e. split; [apply clean_list_item_collapse|apply clean_list_item_no_LF].
  - apply write_list_out_table_lines.
  - assert (Htxt :
      (let! fout := write [] (CITATIONS_HEADER ++ CRLF) in
       let! fout := write_list_out fout (citations d) in
       let! fout := write fout (CRLF ++ CRLF) in
       let! fout := write fout (ACTIONS_HEADER ++ CRLF) in
       let! fout := write_list_out fout (actions d) in
       let! fout := write fout (CRLF ++ CRLF) in
       let! fout := write fout (ENTITIES_HEADER ++ CRLF) in
       write_list_out fout (entities d))
      = (let! fout := write_list_out [CITATIONS_HEADER ++ CRLF] (citations d) in
         let! fout := write_list_out (fout ++ [CRLF ++ CRLF; ACTIONS_HEADER ++ CRLF])
                        (actions d) in
         write_list_out (fout ++ [CRLF ++ CRLF; ENTITIES_HEADER ++ CRLF]) (entities d))).
    { rewrite write_encodable by (by vm_compute). cbn [and_then app].
      destruct (write_list_out _ (citations d)) as [f1 [e|]]; [done|]. cbn [and_then].
      do 2 (rewrite write_encodable by (by vm_compute); cbn [and_then]).
      rewrite <- app_assoc. cbn [app].
      destruct (write_list_out _ (actions d)) as [f2 [e|]]; [done|]. cbn [and_then].
      do 2 (rewrite write_encodable by (by vm_compute); cbn [and_then]).
      by rewrite <- app_assoc. }
    unfold written_by, write_to_fout_entities_actions, write_to_fout_entities_laws,
      write_to_fout_entities_citations, write_to_fout_laws_citations, write_all,
      write_to_fout_txt, leave, close, open_ab, open_wb. cbn [fst snd].
    rewrite Htxt, !lookup_insert_eq. repeat split. by rewrite lookup_insert_eq.
Qed.
End Tables.

(** ** The listing tables *)

Lemma bind_singleton_map {A B : Type} (h : A -> B) (l : list A) :
  l ≫= (fun x => [h x]) = map h l.
Proof. induction l as [|x l IH]; [done|]. by rewrite bind_cons, IH. Qed.

Lemma iter_to_list_of_strings_rows (iterable : list str) (x_coord : nat) :
  iter_to_list_of_strings iterable x_coord = listing_rows iterable x_coord.
Proof.
  unfold iter_to_list_of_strings, listing_rows.
  rewrite (fold_left_app_bind _ (fun p : nat * str =>
    [p.2 ++ [TAB] ++ str_of_int x_coord ++ [TAB] ++ str_of_int (p.1 + 1)])).
  - rewrite bind_singleton_map. change (map ?f ?l) with (f <$> l).
    by rewrite fmap_imap.
  - by intros acc [idx item].
Qed.

Lemma decimal_digits (d : Decimal.uint) :
  Forall (fun c => digit c = true) (u (NilEmpty.string_of_uint d)).
Proof.
  unfold u. induction d; simpl; constructor; auto.
Qed.

Lemma str_of_int_digits (n : nat) :
  Forall (fun c => digit c = true) (str_of_int n) /\ str_of_int n <> [].
Proof.
  unfold str_of_int, NilZero.string_of_uint.
  destruct (Nat.to_uint n) eqn:Hd; rewrite <- ?Hd;
    (split; [first [by repeat constructor | apply decimal_digits]|]);
    rewrite ?Hd; done.
Qed.

Lemma str_of_int_no_LF (n : nat) : LF ∉ str_of_int n.
Proof.
  intros Hin. destruct (str_of_int_digits n) as [Hall _].
  by apply (proj1 (list.Forall_forall _ _) Hall) in Hin.
Qed.

Lemma LISTING_HEADER_no_LF : LF ∉ LISTING_HEADER.
Proof. by apply (bool_decide_unpack _); vm_compute. Qed.

(** A data row ends in a digit, the header does not. *)
Lemma listing_row_not_header (item : str) (x y : nat) :
  item ++ [TAB] ++ str_of_int x ++ [TAB] ++ str_of_int y <> LISTING_HEADER.
Proof.
  intros Heq. apply (f_equal last) in Heq.
  destruct (str_of_int_digits y) as [Hall Hne].
  destruct (last (str_of_int y)) as [c|] eqn:Hlast; [|by apply last_None in Hlast].
  rewrite !app_assoc, last_app, Hlast in Heq.
  apply last_Some_elem_of in Hlast.
  apply (proj1 (list.Forall_forall _ _) Hall) in Hlast.
  vm_compute in Heq. injection Heq as ->. done.
Qed.

Section ListingTables.
Context `{SetIteration}.

Lemma listing_rows_clean (rows : list str) (x : nat) :
  Forall (fun item => LF ∉ item) rows ->
  map (fun e => clean_list_item e ++ CRLF) (listing_rows rows x)
    = map (fun row => row ++ CRLF) (listing_rows rows x).
Proof.
  intros Hrows. apply map_ext_in. intros row Hrow%list_elem_of_In.
  f_equal. apply clean_list_item_id.
  unfold listing_rows in Hrow. apply elem_of_cons in Hrow as [->|Hrow];
    [apply LISTING_HEADER_no_LF|].
  apply list_elem_of_lookup in Hrow as [i Hi].
  rewrite list_lookup_imap in Hi.
  apply fmap_Some in Hi as (item & Hitem & ->).
  apply list_elem_of_lookup_2 in Hitem.
  apply (proj1 (list.Forall_forall _ _) Hrows) in Hitem.
  rewrite !elem_of_app, !list_elem_of_singleton.
  pose proof (str_of_int_no_LF x). pose proof (str_of_int_no_LF (i + 1)).
  intros [?|[[=]|[?|[[=]|?]]]]; done.
Qed.

Lemma digit_not_surrogate (c : char) : digit c = true -> surrogate c = false.
Proof.
  unfold digit, surrogate. intros [_ Hc%N.leb_le]%andb_true_iff.
  apply andb_false_iff. left. apply N.leb_gt. lia.
Qed.

Lemma str_of_int_encodable (n : nat) : utf8_encodable (str_of_int n) = true.
Proof.
  apply utf8_encodable_Forall. destruct (str_of_int_digits n) as [Hall _].
  eapply Forall_impl; [exact Hall|]. apply digit_not_surrogate.
Qed.

Lemma listing_rows_encodable (rows : list str) (x : nat) :
  Forall (fun e => utf8_encodable e = true) rows ->
  Forall (fun e => utf8_encodable e = true) (listing_rows rows x).
Proof.
  intros Hrows. unfold listing_rows. constructor; [by vm_compute|].
  apply list.Forall_forall. intros row Hrow.
  apply list_elem_of_lookup in Hrow as [i Hi].
  rewrite list_lookup_imap in Hi.
  apply fmap_Some in Hi as (item & Hitem & ->).
  apply list_elem_of_lookup_2 in Hitem.
  apply (proj1 (list.Forall_forall _ _) Hrows) in Hitem.
  rewrite !utf8_encodable_app, Hitem, !str_of_int_encodable. done.
Qed.

Lemma set_iter_clean_encodable (items : list str) :
  Forall (fun e => utf8_encodable e = true) items ->
  Forall (fun e => utf8_encodable e = true) (set_iter (set_of (map clean_list_item items))).
Proof.
  intros Hitems. apply list.Forall_forall. intros item.
  rewrite elem_of_set_iter_set_of. intros (e & -> & He)%list_elem_of_fmap.
  rewrite utf8_encodable_clean. by apply (proj1 (list.Forall_forall _ _) Hitems).
Qed.

(** When every item can be encoded, a listing function returns, and its
    table is complete. *)
Lemma write_all_table (name : str) (x : nat) (fs : files) (items : list str) :
  Forall (fun e => utf8_encodable e = true) items ->
  write_all name x fs items
    = (<[out_path name :=
           map (fun row => row ++ CRLF)
             (listing_rows (set_iter (set_of (map clean_list_item items))) x)]> fs,
       None).
Proof.
  intros Hitems. unfold write_all, leave, close, open_wb.
  rewrite iter_to_list_of_strings_rows.
  rewrite write_list_out_app
    by (by apply listing_rows_encodable, set_iter_clean_encodable).
  cbn [fst snd app]. do 2 f_equal. apply listing_rows_clean.
  apply list.Forall_forall. intros item.
  rewrite elem_of_set_iter_set_of.
  intros (e & -> & _)%list_elem_of_fmap. apply clean_list_item_no_LF.
Qed.

(** C8, as the code has it: when every item can be encoded in UTF-8, each of
    the four listing functions returns, and its table is the header row
    Id, tab, x_coord, tab, y_coord followed by one row per unique cleaned
    item (the items as [clean_list_item] leaves them, each once), made of the
    cleaned item, a tab, the X coordinate of the table, a tab and the rank
    of the item counted from 1; no data row is the header, and the four
    tables have four distinct X coordinates. *)
Theorem listing_tables_format (fs : files) (items : list str) :
  Forall (fun e => utf8_encodable e = true) items ->
  let rows := set_iter (set_of (map clean_list_item items)) in
  let table := fun x : nat =>
    map (fun row => row ++ CRLF)
      ((u "Id" ++ [TAB] ++ u "x_coord" ++ [TAB] ++ u "y_coord") ::
       imap (fun i item => item ++ [TAB] ++ str_of_int x ++ [TAB] ++ str_of_int (i + 1))
         rows) in
  (NoDup rows /\
   forall item, item ∈ rows <-> exists e, e ∈ items /\ item = clean_list_item e) /\
  write_all_actions fs items = (<[out_path ACTIONS_FILENAME := table 10]> fs, None) /\
  write_all_entities fs items = (<[out_path ENTITIES_FILENAME := table 20]> fs, None) /\
  write_all_laws fs items = (<[out_path LAWS_FILENAME := table 30]> fs, None) /\
  write_all_citations fs items = (<[out_path CITATIONS_FILENAME := table 40]> fs, None) /\
  (forall (iterable : list str) (x : nat),
     iter_to_list_of_strings iterable x = listing_rows iterable x /\
     length (iter_to_list_of_strings iterable x) = S (length iterable) /\
     forall i item, iterable !! i = Some item ->
       iter_to_list_of_strings iterable x !! S i
         = Some (item ++ [TAB] ++ str_of_int x ++ [TAB] ++ str_of_int (i + 1)) /\
       item ++ [TAB] ++ str_of_int x ++ [TAB] ++ str_of_int (i + 1) <> LISTING_HEADER) /\
  NoDup [ACTIONS_X; ENTITIES_X; LAWS_X; CITATIONS_X].
Proof.
  intros Hitems rows table. split; [|split; [|split; [|split; [|split; [|split]]]]].
  - split; [apply NoDup_set_iter|]. intros item. unfold rows.
    rewrite elem_of_set_iter_set_of. change (map ?f ?l) with (f <$> l).
    rewrite list_elem_of_fmap. split; intros (e & ? & ?); by exists e.
  - by apply write_all_table.
  - by apply write_all_table.
  - by apply write_all_table.
  - by apply write_all_table.
  - intros iterable x. rewrite iter_to_list_of_strings_rows. unfold listing_rows.
    split; [done|]. split; [simpl; by rewrite length_imap|].
    intros i item Hi. split; [|apply listing_row_not_header].
    change ((?h :: ?l) !! S i) with (l !! i).
    apply list_lookup_imap_Some. by exists item.
  - apply (bool_decide_unpack _). by vm_compute.
Qed.
End ListingTables.

(** C8, as the specification words it, fails.  The law [law_cited_twice]
    has two citations that differ by a line feed against a space: they are
    two items of the set of all citations, and the run leaves one row for
    both in citations.csv.  And an item that UTF-8 cannot encode gets no row:
    the function raises, and the table stops before it. *)
Lemma cleaned_items_share_a_row :
  (parse_laws [law_cited_twice] = inr corpus_cited_twice /\
   CITATION_LF <> CITATION_SPACE /\
   elements (all_citations corpus_cited_twice) ≡ₚ [CITATION_LF; CITATION_SPACE] /\
   size (all_citations corpus_cited_twice) = 2 /\
   (@main elements_iteration ∅ [law_cited_twice]).2 = inr corpus_cited_twice /\
   (@main elements_iteration ∅ [law_cited_twice]).1 !! out_path CITATIONS_FILENAME
     = Some [LISTING_HEADER ++ CRLF;
             CITATION_SPACE ++ [TAB] ++ u "40" ++ [TAB] ++ u "1" ++ CRLF]) /\
  ((@write_all_laws elements_iteration ∅ [UNDECODABLE_NAME]).1 !! out_path LAWS_FILENAME
     = Some [LISTING_HEADER ++ CRLF] /\
   (@write_all_laws elements_iteration ∅ [UNDECODABLE_NAME]).2
     = Some UnicodeEncodeError) /\
  ~ one_row_per_unique_item.
Proof.
  split; [|split].
  - split; [by vm_compute|]. split; [by intros [=]|].
    split; [apply (bool_decide_unpack _); by vm_compute|].
    split; [by vm_compute|]. split; by vm_compute.
  - split; by vm_compute.
  - intros Hspec.
    destruct (Hspec elements_iteration ∅ [CITATION_LF; CITATION_SPACE]
                CITATIONS_FILENAME CITATIONS_X) as (rows & Hperm & Htable).
    { do 3 right. left. }
    assert (Hrows : length rows = 2).
    { rewrite Hperm. by vm_compute. }
    assert (Hone : forall table,
      (@write_all elements_iteration CITATIONS_FILENAME CITATIONS_X ∅
         [CITATION_LF; CITATION_SPACE]).1 !! out_path CITATIONS_FILENAME = table ->
      length <$> table = Some 2)
      by (intros table <-; by vm_compute).
    apply Hone in Htable as Hone'. clear Hone Htable. rename Hone' into Hone.
    cbn [fmap option_fmap option_map] in Hone.
    rewrite length_map in Hone. unfold listing_rows in Hone.
    cbn [length] in Hone. rewrite length_imap in Hone. injection Hone as Hone.
    unfold str, char in *. lia.
Qed.

(** ** Failures *)

Lemma parse_law_skip (st : corpus) (d : dir_entry) :
  is_law d = false -> parse_law st d = inr st.
Proof.
  unfold is_law, parse_law. intros Hd%negb_false_iff. by rewrite Hd.
Qed.

Lemma parse_law_raise (st : corpus) (d : dir_entry) (e : exn) :
  fails d e -> parse_law st d = inl e.
Proof.
  unfold fails, is_law, parse_law. intros [Hd%negb_true_iff Ht].
  by rewrite Hd, Ht.
Qed.

Lemma parse_law_return (st : corpus) (d : dir_entry) :
  (forall e, ~ fails d e) -> exists st', parse_law st d = inr st'.
Proof.
  intros Hok. destruct (is_law d) eqn:Hd.
  - destruct (law_text d) as [e|txt] eqn:Ht; [by destruct (Hok e)|].
    unfold is_law in Hd. apply negb_true_iff in Hd.
    unfold parse_law. rewrite Hd, Ht. simpl. eauto.
  - rewrite parse_law_skip by done. eauto.
Qed.

Lemma scan_laws_return (st : corpus) (ds : list dir_entry) :
  Forall (fun d => forall e, ~ fails d e) ds -> exists st', scan_laws st ds = inr st'.
Proof.
  intros Hds. revert st. induction Hds as [|d ds Hd _ IH]; intros st; simpl; [eauto|].
  destruct (parse_law_return st d Hd) as [st' ->]. simpl. apply IH.
Qed.

Lemma scan_laws_raise (st : corpus) (ds1 ds2 : list dir_entry) (d : dir_entry) (e : exn) :
  Forall (fun d => forall e, ~ fails d e) ds1 -> fails d e ->
  scan_laws st (ds1 ++ d :: ds2) = inl e.
Proof.
  intros Hds Hd. revert st. induction Hds as [|d1 ds1 Hd1 _ IH]; intros st; simpl.
  - by rewrite (parse_law_raise st d e Hd).
  - destruct (parse_law_return st d1 Hd1) as [st' ->]. simpl. apply IH.
Qed.

(** C3, as the code has it: [parse_laws] handles no exception.  When the laws
    before [d] can be extracted and the extraction of [d] raises [e], the
    whole run raises [e], whatever follows [d], although the run on the laws
    before [d] alone returns. *)
Theorem parse_laws_raises_first_failure (ds1 ds2 : list dir_entry) (d : dir_entry) (e : exn) :
  Forall (fun d' => forall e', ~ fails d' e') ds1 ->
  fails d e ->
  parse_laws (ds1 ++ d :: ds2) = inl e /\
  exists st, parse_laws ds1 = inr st.
Proof.
  intros Hds Hd. unfold parse_laws. split.
  - by rewrite (scan_laws_raise _ ds1 ds2 d e Hds Hd).
  - destruct (scan_laws_return corpus_init ds1 Hds) as [st ->]. simpl. eauto.
Qed.

(** C3, as the specification words it, fails: the run on a law that cannot be
    encoded followed by a law that can be extracted raises, and returns
    nothing. *)
Lemma one_failure_aborts_the_run :
  parse_laws [law_alef; law_plain] = inl UnicodeEncodeError /\
  (exists st, parse_laws [law_plain] = inr st) /\
  ~ survives_failures.
Proof.
  assert (Hrun : parse_laws [law_alef; law_plain] = inl UnicodeEncodeError)
    by (by vm_compute).
  split; [done|]. split.
  - destruct (parse_laws [law_plain]) as [e|st] eqn:Hp; [|by exists st].
    vm_compute in Hp. discriminate.
  - intros Hs. destruct (Hs [law_alef; law_plain]) as (st & Hst & _). congruence.
Qed.

(** ** The theorems at work *)

Lemma entity_entity_multiplicity_witness :
  occurrences (u "A", u "B") (@entities_actions_edges elements_iteration details_AB) = 2 /\
  occurrences (u "B", u "A") (@entities_actions_edges elements_iteration details_AB) = 2 /\
  occurrences (u "A", u "A") (@entities_actions_edges elements_iteration details_AB) = 0.
Proof.
  destruct (@entity_entity_multiplicity elements_iteration details_AB)
    as (_ & Hmul & Hzero & _).
  assert (HA : u "A" ∈ entities details_AB) by left.
  assert (HB : u "B" ∈ entities details_AB) by (right; left).
  assert (Hne : u "A" <> u "B") by (by vm_compute).
  destruct (Hmul (u "A") (u "B") HA HB Hne) as [HAB HBA].
  split; [|split].
  - rewrite HAB. by vm_compute.
  - rewrite HBA. by vm_compute.
  - apply Hzero. by left.
Defined.

Lemma corpus_fold_order_independent_witness :
  all_actions (fold_left fold_in [details_AB; details_AC] corpus_init)
    = all_actions (fold_left fold_in [details_AC; details_AB] corpus_init).
Proof.
  exact (proj1 (corpus_fold_order_independent [details_AB; details_AC]
                  [details_AC; details_AB] corpus_init (perm_swap _ _ _))).
Defined.

Lemma action_word_boundary_witness :
  (2, keyword SET_RE.2 ++ [46%N])
    ∈ re_finditer SET_RE.2 (u "x " ++ keyword SET_RE.2 ++ u ". y").
Proof.
  assert (Hin : SET_RE ∈ ACTION_RES) by (do 3 right; left).
  destruct (action_word_boundary SET_RE (u "x ") (u ". y") Hin) as (_ & Hyes & _).
  exact (proj1 (Hyes 46%N eq_refl eq_refl)).
Defined.

Lemma action_at_end_of_text_not_matched_witness :
  match_here SET_RE.2 (keyword SET_RE.2) = None /\
  forall i m, (i, m) ∈ re_finditer INSTRUCTED_RE.2 (u "x " ++ keyword SET_RE.2) ->
    i + length m <= 2.
Proof.
  assert (Hf : INSTRUCTED_RE ∈ ACTION_RES) by left.
  assert (Hg : SET_RE ∈ ACTION_RES) by (do 3 right; left).
  destruct (action_at_end_of_text_not_matched INSTRUCTED_RE SET_RE (u "x ") Hf Hg)
    as (Hnone & _ & Hall).
  split; [exact Hnone|exact Hall].
Defined.

Lemma listing_tables_format_witness :
  Forall (fun e => utf8_encodable e = true) [CITATION_LF; CITATION_SPACE] /\
  @write_all_citations elements_iteration ∅ [CITATION_LF; CITATION_SPACE]
    = (<[out_path CITATIONS_FILENAME :=
           [LISTING_HEADER ++ CRLF;
            CITATION_SPACE ++ [TAB] ++ u "40" ++ [TAB] ++ u "1" ++ CRLF]]> ∅,
       None).
Proof.
  assert (Hitems : Forall (fun e => utf8_encodable e = true) [CITATION_LF; CITATION_SPACE])
    by (by repeat constructor).
  split; [exact Hitems|].
  destruct (@listing_tables_format elements_iteration ∅ [CITATION_LF; CITATION_SPACE] Hitems)
    as (_ & _ & _ & _ & Hcitations & _).
  rewrite Hcitations. do 2 f_equal.
Defined.

Lemma parse_laws_raises_first_failure_witness :
  parse_laws ([law_plain] ++ law_alef :: [law_plain]) = inl UnicodeEncodeError.
Proof.
  refine (proj1 (parse_laws_raises_first_failure [law_plain] [law_plain] law_alef
                   UnicodeEncodeError _ _)).
  - constructor; [|constructor]. intros e [_ Hf]. vm_compute in Hf. discriminate.
  - split; by vm_compute.
Defined.

(** * Further properties of the code *)

(** ** Normalisation functions *)

(** X1: [remove_trailing_chars] cuts a suffix made of terminators only, the
    longest one: what is left is a prefix of the text that ends in no
    terminator; a text that ends in none is returned as it is. *)
Theorem remove_trailing_chars_cuts_suffix (s : str) :
  (exists t, s = remove_trailing_chars s ++ t /\ forallb terminator t = true) /\
  (forall x, last (remove_trailing_chars s) = Some x -> terminator x = false) /\
  ((forall x, last s = Some x -> terminator x = false) -> remove_trailing_chars s = s).
Proof.
  rewrite remove_trailing_chars_strip.
  destruct (strip_trailing_spec terminator s) as (t & Hs & Ht & Hlast).
  split; [by exists t|]. split; [done|apply strip_trailing_id].
Qed.

Lemma length_collapse_from (b : bool) (s : str) :
  length (collapse_from b s) <= length s.
Proof.
  revert b. induction s as [|c s IH]; intros b; simpl; [done|].
  destruct (N.eqb c LF); [destruct b|]; simpl;
    [specialize (IH true)|specialize (IH true)|specialize (IH false)]; lia.
Qed.

(** X2: [clean_list_item] is idempotent, never makes a text longer, and leaves a
    text unchanged exactly when it holds no line feed. *)
Theorem clean_list_item_idempotent (item : str) :
  clean_list_item (clean_list_item item) = clean_list_item item /\
  length (clean_list_item item) <= length item /\
  (clean_list_item item = item <-> LF ∉ item).
Proof.
  split; [|split].
  - apply clean_list_item_id, clean_list_item_no_LF.
  - rewrite clean_list_item_collapse. apply length_collapse_from.
  - split; [|apply clean_list_item_id].
    intros <-. apply clean_list_item_no_LF.
Qed.

Lemma lookup_map_Some {A B : Type} (f : A -> B) (l : list A) (i : nat) (x : A) :
  l !! i = Some x -> map f l !! i = Some (f x).
Proof.
  revert i. induction l as [|y l IH]; intros [|i]; simpl; try done.
  - by intros [= ->].
  - apply IH.
Qed.

(** X3: [remove_weird_unicode] keeps the length of the text, puts a space in the
    place of each of the three characters to ignore, keeps every other
    character in its place, and leaves none of the three. *)
Theorem remove_weird_unicode_pointwise (txt : str) :
  length (remove_weird_unicode txt) = length txt /\
  (forall i c, txt !! i = Some c ->
     remove_weird_unicode txt !! i
       = Some (if decide (c = 0x2003 \/ c = 0x3BC \/ c = 0xFC)%N then SPACE else c)) /\
  (forall c, c ∈ remove_weird_unicode txt ->
     c <> 0x2003%N /\ c <> 0x3BC%N /\ c <> 0xFC%N).
Proof.
  assert (Hweird : forall c, weird c = true <-> (c = 0x2003 \/ c = 0x3BC \/ c = 0xFC)%N).
  { intros c. unfold weird. rewrite !orb_true_iff, !N.eqb_eq. intuition congruence. }
  split; [|split].
  - rewrite remove_weird_unicode_map. apply length_map.
  - intros i c Hi. rewrite remove_weird_unicode_map.
    etrans; [by apply lookup_map_Some|]. f_equal.
    destruct (weird c) eqn:Hc.
    + apply Hweird in Hc. by rewrite decide_True.
    + rewrite decide_False; [done|]. rewrite <- Hweird. congruence.
  - intros c Hc.
    pose proof (proj1 (list.Forall_forall _ _) (remove_weird_unicode_clean txt) c Hc) as Hn.
    simpl in Hn. assert (Hnot : ~ (c = 0x2003 \/ c = 0x3BC \/ c = 0xFC)%N).
    { rewrite <- Hweird. congruence. }
    tauto.
Qed.

(** ** The extractor *)

Lemma apply_filter_on_text_concat (txt : str) (filters : list (string * regex)) :
  apply_filter_on_text txt filters = concat (map (fun f => re_findall f.2 txt) filters).
Proof.
  unfold apply_filter_on_text.
  rewrite (fold_left_app_bind _ (fun f => re_findall f.2 txt)); [|done].
  cbn [app]. induction filters as [|f fs IH]; [done|].
  rewrite bind_cons, IH. done.
Qed.

(** X4: [apply_filter_on_text] returns the matches of the first pattern, then
    those of the second, and so on; with two catalogs joined it returns the
    results of the first followed by those of the second; and every match is
    a piece of the text: the text is something, the match, something. *)
Theorem apply_filter_on_text_matches (txt : str) (filters filters' : list (string * regex)) :
  apply_filter_on_text txt filters = concat (map (fun f => re_findall f.2 txt) filters) /\
  apply_filter_on_text txt (filters ++ filters')
    = apply_filter_on_text txt filters ++ apply_filter_on_text txt filters' /\
  apply_filter_on_text txt [] = [] /\
  (forall m, m ∈ apply_filter_on_text txt filters ->
     exists before after, txt = before ++ m ++ after).
Proof.
  split; [apply apply_filter_on_text_concat|]. split; [|split; [done|]].
  - rewrite !apply_filter_on_text_concat, map_app. apply concat_app.
  - intros m (f & _ & Hm)%elem_of_apply_filter_on_text.
    apply re_findall_sound in Hm as (i & rest & Hm%match_here_prefix).
    exists (take i txt), rest. by rewrite <- Hm, take_drop.
Qed.

(** ** The collections of a law *)

Lemma boundary_terminator (c : char) : boundary c = true -> terminator c = true.
Proof.
  unfold boundary, terminator. destruct (is_space c) eqn:Hs.
  - intros _. by rewrite orb_true_r.
  - intros Hb. rewrite orb_false_r, !orb_true_iff, !N.eqb_eq in Hb.
    destruct Hb as [[[->| ->]| ->]| ->]; try reflexivity. by vm_compute in Hs.
Qed.

Lemma strip_trailing_all (p : char -> bool) (t : str) :
  forallb p t = true -> strip_trailing p t = [].
Proof. destruct t as [|x t]; [done|]. cbn [strip_trailing]. by intros ->. Qed.

Lemma strip_trailing_app_all (p : char -> bool) (s t : str) :
  forallb p t = true -> strip_trailing p (s ++ t) = strip_trailing p s.
Proof.
  intros Ht. induction s as [|x s IH]; [by apply strip_trailing_all|].
  cbn [app strip_trailing]. rewrite IH.
  assert (forallb p (x :: s ++ t) = forallb p (x :: s)) as ->; [|done].
  cbn [forallb]. by rewrite forallb_app, Ht, andb_true_r.
Qed.

Lemma action_keyword_stripped (f : string * regex) :
  f ∈ ACTION_RES ->
  remove_trailing_chars (keyword f.2) = keyword f.2 /\ Forall no_break (keyword f.2).
Proof.
  unfold ACTION_RES. rewrite !elem_of_cons, elem_of_nil. intros Hf.
  repeat destruct Hf as [->|Hf]; try done;
    (split; [by vm_compute|repeat constructor; by vm_compute]).
Qed.

(** A raw action match is a keyword with the character after it, and
    stripping gives the keyword back. *)
Lemma action_match_keyword (txt m : str) :
  m ∈ get_actions_from_text txt ->
  exists f c, f ∈ ACTION_RES /\ m = keyword f.2 ++ [c] /\ boundary c = true /\
              remove_trailing_chars m = keyword f.2.
Proof.
  intros (f & Hf & Hm)%elem_of_apply_filter_on_text.
  apply re_findall_sound in Hm as (i & rest & Hm).
  destruct (action_pattern_shape f Hf) as (Hshape & _ & _).
  destruct (action_keyword_stripped f Hf) as [Hkw _].
  remember (keyword f.2) as kw eqn:Ekw. rewrite Hshape in Hm.
  apply match_keyword_class_inv in Hm as (c & -> & Hb & _).
  exists f, c. rewrite <- Ekw. repeat split; [done|done|].
  rewrite remove_trailing_chars_strip in *.
  rewrite strip_trailing_app_all; [done|].
  simpl. by rewrite (boundary_terminator c Hb).
Qed.

(** X5: The recorded actions of a law are action keywords, nothing else: every
    element of the action collection is one of the seven keywords, whatever
    the text (so the corpus has at most seven distinct actions). *)
Theorem actions_are_keywords (txt a : str) :
  a ∈ actions (law_details txt) -> a ∈ ACTION_KEYWORDS.
Proof.
  cbn [law_details actions]. rewrite elem_of_sorted.
  change (map ?f ?l) with (f <$> l).
  intros (m & -> & (f & c & Hf & _ & _ & ->)%action_match_keyword)%list_elem_of_fmap.
  unfold ACTION_KEYWORDS. change (map ?f ?l) with (f <$> l).
  apply list_elem_of_fmap. by exists f.
Qed.

(** X6: Actions and entities are recorded normalised: every element of the two
    collections is left unchanged by [remove_trailing_chars] and ends in no
    terminator. *)
Theorem actions_entities_are_normalized (txt e : str) :
  e ∈ actions (law_details txt) \/ e ∈ entities (law_details txt) ->
  remove_trailing_chars e = e /\
  forall x, last e = Some x -> terminator x = false.
Proof.
  cbn [law_details actions entities]. rewrite !elem_of_sorted.
  change (map ?f ?l) with (f <$> l). rewrite !list_elem_of_fmap.
  assert (Hgen : forall m, remove_trailing_chars (remove_trailing_chars m)
                             = remove_trailing_chars m /\
                           forall x, last (remove_trailing_chars m) = Some x ->
                                     terminator x = false).
  { intros m. split; [apply remove_trailing_chars_idemp|].
    rewrite remove_trailing_chars_strip.
    by destruct (strip_trailing_spec terminator m) as (_ & _ & _ & ?). }
  intros [(m & -> & _)|(m & -> & _)]; apply Hgen.
Qed.

#[global] Instance str_le_trans : Transitive str_le.
Proof.
  unfold str_le. intros a. induction a as [|x a IH]; intros [|y b] [|z c]; simpl; try done.
  destruct (N.ltb_spec x y), (N.ltb_spec y z), (N.ltb_spec x z),
    (N.eqb_spec x y), (N.eqb_spec y z), (N.eqb_spec x z); try done; try lia.
  apply IH.
Qed.

#[global] Instance str_le_antisymm : AntiSymm (=) str_le.
Proof.
  unfold str_le. intros a. induction a as [|x a IH]; intros [|y b]; simpl; try done.
  destruct (N.ltb_spec x y), (N.ltb_spec y x), (N.eqb_spec x y), (N.eqb_spec y x);
    try done; try lia.
  intros Hab Hba. subst. f_equal. by apply IH.
Qed.

Lemma StronglySorted_filter {A : Type} (R : relation A) (P : A -> Prop)
    `{forall x, Decision (P x)} (l : list A) :
  StronglySorted R l -> StronglySorted R (filter P l).
Proof.
  induction 1 as [|x l Hl IH Hx]; [constructor|].
  rewrite filter_cons. destruct (decide (P x)); [|done].
  constructor; [done|]. apply list.Forall_forall.
  intros y [_ Hy]%list_elem_of_filter.
  by apply (proj1 (list.Forall_forall _ _) Hx).
Qed.

(** X7: The three collections of a law are in ascending order, code point by code
    point, with their duplicates: the actions and the entities are the
    ascending arrangement of the stripped matches, the citations that of the
    matches shorter than 200; and there is only one such arrangement. *)
Theorem law_details_sorted (txt : str) :
  let d := law_details txt in
  (Sorted str_le (actions d) /\
   actions d ≡ₚ map remove_trailing_chars (get_actions_from_text txt)) /\
  (Sorted str_le (entities d) /\
   entities d ≡ₚ map remove_trailing_chars (get_entities_from_test txt)) /\
  (Sorted str_le (citations d) /\
   citations d ≡ₚ filter (fun x : str => length x < 200) (get_citations_from_text txt)) /\
  (forall l l' : list str, Sorted str_le l -> Sorted str_le l' -> l ≡ₚ l' -> l = l').
Proof.
  cbn [law_details actions entities citations].
  unfold LONGEST_POSSIBLE_CITATION_LENGTH.
  split; [|split; [|split]].
  - split; [apply sorted_is_sorted|apply sorted_perm].
  - split; [apply sorted_is_sorted|apply sorted_perm].
  - split.
    + apply StronglySorted_Sorted, StronglySorted_filter.
      apply (StronglySorted_merge_sort str_le).
    + by rewrite sorted_perm.
  - intros l l' Hl Hl' Hperm. by apply (Sorted_unique str_le).
Qed.

(** ** White space inside the mentions *)

Lemma match_here_app_takes (P : char -> Prop) (r1 r2 : regex) (s m rest : str) :
  Forall (item_takes P) r1 ->
  match_here (r1 ++ r2) s = Some (m, rest) ->
  exists m1 m2,
    m = m1 ++ m2 /\ Forall P m1 /\ match_here r2 (m2 ++ rest) = Some (m2, rest).
Proof.
  intros Hr1. revert s m. induction Hr1 as [|i r1 Hi _ IH]; intros s m.
  - simpl. intros Hm. exists [], m. split; [done|]. split; [done|].
    by rewrite <- (match_here_prefix _ _ _ _ Hm).
  - assert (Hloop : forall (p : char -> bool) m1 m2 s2,
      (forall x, p x = true -> P x) ->
      Forall (fun x => p x = true) m1 ->
      match_here (r1 ++ r2) s2 = Some (m2, rest) ->
      exists m1' m2', m1 ++ m2 = m1' ++ m2' /\ Forall P m1' /\
                      match_here r2 (m2' ++ rest) = Some (m2', rest)).
    { intros p m1 m2 s2 Hp Hall Hk.
      destruct (IH _ _ Hk) as (m1' & m2' & -> & HP & H2).
      exists (m1 ++ m1'), m2'. rewrite app_assoc. repeat split; [|done].
      apply Forall_app. split; [|done]. eapply Forall_impl; [exact Hall|done]. }
    cbn [app match_here]. destruct i; cbn [item_takes] in Hi.
    + destruct s as [|x s]; [done|]. destruct (N.eqb_spec x c) as [->|]; [|done].
      intros Hc. apply consume_Some in Hc as (m' & -> & Hm).
      destruct (IH _ _ Hm) as (m1 & m2 & -> & HP & H2).
      exists (c :: m1), m2. repeat split; [|done]. by constructor.
    + destruct s as [|x s]; [done|]. destruct (p x) eqn:Hp; [|done].
      intros Hc. apply consume_Some in Hc as (m' & -> & Hm).
      destruct (IH _ _ Hm) as (m1 & m2 & -> & HP & H2).
      exists (x :: m1), m2. repeat split; [|done]. constructor; auto.
    + intros (m1 & m2 & s2 & -> & -> & Hall & Hk)%lazy_star_inv. by eapply Hloop.
    + intros (m1 & m2 & s2 & -> & -> & Hall & _ & Hk)%greedy_plus_inv. by eapply Hloop.
    + intros (m1 & m2 & s2 & -> & -> & Hall & _ & Hk)%greedy_rep_inv. by eapply Hloop.
    + destruct s as [|x [|y s]]; [apply IH| |done].
      destruct (N.eqb x LF); [apply IH|done].
Qed.

(** Anything, lazily, up to a character of a class: the match stops at the
    first character of the class. *)
Lemma lazy_until_class (b : char -> bool) (s m rest : str) :
  match_here [LazyStar any_char; Cls b] s = Some (m, rest) ->
  exists body c, m = body ++ [c] /\ b c = true /\ Forall (fun x => b x = false) body.
Proof.
  cbn [match_here]. revert m. induction s as [|x s IH]; intros m; simpl; [done|].
  destruct (b x) eqn:Hb; simpl.
  - intros [= <- <-]. exists [], x. by repeat split.
  - intros Hc. apply consume_Some in Hc as (m' & -> & Hl).
    destruct (IH _ Hl) as (body & c & -> & Hc & Hbody).
    exists (x :: body), c. repeat split; [done|]. by constructor.
Qed.

Lemma entity_pattern_shape (f : string * regex) :
  f ∈ ENTITIES_RES ->
  exists r1 r2, f.2 = r1 ++ r2 /\ Forall (item_takes no_break) r1 /\
                (r2 = [] \/ r2 = [LazyStar any_char; Cls boundary]).
Proof.
  assert (Hlit : forall c, (is_space c = true -> c = SPACE) -> item_takes no_break (Lit c))
    by done.
  assert (Hopt : forall c, (is_space c = true -> c = SPACE) -> item_takes no_break (opt c)).
  { intros c Hc x ->%N.eqb_eq. exact Hc. }
  unfold ENTITIES_RES. rewrite !elem_of_cons, elem_of_nil. intros Hf.
  repeat destruct Hf as [->|Hf]; try done; cbn [snd];
    first
      [ eexists _, []; split; [by rewrite app_nil_r|]; split; [|by left];
        cbn [app lits map];
        repeat first [apply Forall_nil_2 | apply Forall_cons_2];
        first [apply Hlit | apply Hopt]; intros Hs; vm_compute in Hs |- *;
        congruence
      | eexists (lits _), _; split; [reflexivity|]; split; [|by right];
        cbn [app lits map];
        repeat first [apply Forall_nil_2 | apply Forall_cons_2];
        apply Hlit; intros Hs; vm_compute in Hs |- *; congruence ].
Qed.

Lemma no_break_not_space (x : char) : boundary x = false -> no_break x.
Proof.
  unfold boundary, no_break. intros Hb Hs. rewrite Hs, orb_true_r in Hb. done.
Qed.

Lemma entity_match_no_break (txt m : str) :
  m ∈ get_entities_from_test txt -> Forall no_break (remove_trailing_chars m).
Proof.
  intros (f & Hf & Hm)%elem_of_apply_filter_on_text.
  apply re_findall_sound in Hm as (i & rest & Hm).
  destruct (entity_pattern_shape f Hf) as (r1 & r2 & Hshape & Hr1 & Hr2).
  rewrite Hshape in Hm.
  apply (match_here_app_takes no_break) in Hm as (m1 & m2 & -> & Hm1 & Hm2); [|done].
  rewrite remove_trailing_chars_strip. destruct Hr2 as [->| ->].
  - injection Hm2 as Hm2 _. rewrite <- Hm2, app_nil_r.
    by apply strip_trailing_Forall.
  - apply lazy_until_class in Hm2 as (body & c & -> & Hc & Hbody).
    rewrite !app_assoc, strip_trailing_app_all
      by (simpl; by rewrite (boundary_terminator c Hc)).
    apply strip_trailing_Forall, Forall_app. split; [done|].
    eapply Forall_impl; [exact Hbody|]. apply no_break_not_space.
Qed.

Lemma mention_no_break (txt e : str) :
  e ∈ actions (law_details txt) \/ e ∈ entities (law_details txt) ->
  Forall no_break e /\ (TAB ∉ e) /\ (LF ∉ e) /\ (CR ∉ e) /\ clean_list_item e = e.
Proof.
  intros He. assert (Hnb : Forall no_break e).
  { destruct He as [Ha|He].
    - cbn [law_details actions] in Ha. rewrite elem_of_sorted in Ha.
      change (map ?f ?l) with (f <$> l) in Ha.
      apply list_elem_of_fmap in Ha
        as (m & -> & (f & c & Hf & _ & _ & ->)%action_match_keyword).
      by destruct (action_keyword_stripped f Hf).
    - cbn [law_details entities] in He. rewrite elem_of_sorted in He.
      change (map ?f ?l) with (f <$> l) in He.
      apply list_elem_of_fmap in He as (m & -> & Hm).
      by eapply entity_match_no_break. }
  assert (Hnot : forall c, is_space c = true -> c <> SPACE -> c ∉ e).
  { intros c Hs Hne Hin.
    apply Hne, (proj1 (list.Forall_forall _ _) Hnb c Hin Hs). }
  assert (HLF : LF ∉ e) by (by apply Hnot).
  repeat split; [done|by apply Hnot|done|by apply Hnot|by apply clean_list_item_id].
Qed.

(** X8: The only white space inside a recorded action or entity is the plain
    space: no tab, no line feed, no carriage return.  A recorded mention is
    therefore written to the tables as it is, and a line of an edge table has
    its tab where the two mentions meet. *)
Theorem mentions_have_no_break (txt e : str) :
  e ∈ actions (law_details txt) \/ e ∈ entities (law_details txt) ->
  Forall no_break e /\ (TAB ∉ e) /\ (LF ∉ e) /\ (CR ∉ e) /\ clean_list_item e = e.
Proof. apply mention_no_break. Qed.

(** ** The edge builders *)

Lemma length_bind_const {A B : Type} (f : A -> list B) (l : list A) (k : nat) :
  (forall x, x ∈ l -> length (f x) = k) -> length (l ≫= f) = length l * k.
Proof.
  induction l as [|x l IH]; intros Hf; [done|].
  rewrite bind_cons, length_app, IH, Hf; [simpl; lia|left|].
  intros y Hy. apply Hf. by right.
Qed.

Lemma length_bind_all_but_one {B : Type} (g : str -> list B) (l : list str)
    (e : str) (k : nat) :
  NoDup l -> e ∈ l ->
  (forall x, x ∈ l -> length (g x) = if decide (e = x) then 0 else k) ->
  length (l ≫= g) = (length l - 1) * k.
Proof.
  induction 1 as [|y l Hy Hnd IH]; intros He Hg; [by apply elem_of_nil in He|].
  rewrite bind_cons, length_app, (Hg y) by left.
  destruct (decide (e = y)) as [->|Hne].
  - rewrite (length_bind_const g l k); [simpl; lia|].
    intros x Hx. rewrite Hg by (by right).
    rewrite decide_False; [done|]. by intros ->.
  - apply elem_of_cons in He as [?|He]; [done|].
    rewrite IH; [|done|intros x Hx; apply Hg; by right].
    destruct l as [|z l]; [by apply elem_of_nil in He|]. simpl. lia.
Qed.

Section EdgeBuilders.
Context `{SetIteration}.

(** X9: The entity-entity builder emits n (n - 1) a lines for a document with n
    distinct entities and a distinct actions. *)
Theorem entities_actions_line_count (d : details) :
  length (entities_actions_out_list d)
    = size (set_of (entities d)) * (size (set_of (entities d)) - 1)
      * size (set_of (actions d)).
Proof.
  rewrite entities_actions_out_list_edges, length_map.
  unfold entities_actions_edges. rewrite <- !length_set_iter.
  rewrite (length_bind_const _ _
             ((length (set_iter (set_of (entities d))) - 1)
              * length (set_iter (set_of (actions d))))); [lia|].
  intros e He.
  apply (length_bind_all_but_one _ _ e); [apply NoDup_set_iter|done|].
  intros e2 _. destruct (decide (e = e2)); [done|].
  rewrite (length_bind_const _ _ 1); [lia|done].
Qed.

(** X10: For an extracted law the lines themselves carry the multiplicity: the
    line of two of its entities occurs once per distinct action when they
    differ, and never when they are the same. *)
Theorem entities_actions_lines_of_law (txt e1 e2 : str) :
  e1 ∈ entities (law_details txt) -> e2 ∈ entities (law_details txt) ->
  occurrences (tab_pair e1 e2) (entities_actions_out_list (law_details txt))
    = if decide (e1 = e2) then 0 else size (set_of (actions (law_details txt))).
Proof.
  intros H1 H2.
  assert (Htab : Forall (fun e => TAB ∉ e) (entities (law_details txt))).
  { apply list.Forall_forall. intros e He.
    by destruct (mention_no_break txt e (or_intror He)) as (_ & ? & _). }
  rewrite entities_actions_out_list_occurrences;
    [|done|by apply (proj1 (list.Forall_forall _ _) Htab)].
  rewrite entities_actions_edges_occurrences.
  destruct (decide (e1 = e2)) as [->|Hne].
  - rewrite decide_False; [done|]. by intros (_ & _ & ?).
  - by rewrite decide_True.
Qed.

Lemma entities_laws_out_list_map (law_name : str) (d : details) :
  entities_laws_out_list law_name d
    = map (fun e => tab_pair e law_name) (set_iter (set_of (entities d))).
Proof.
  unfold entities_laws_out_list.
  rewrite (fold_left_app_bind _ (fun e => [tab_pair e law_name])); [|done].
  apply bind_singleton_map.
Qed.

Lemma laws_citations_out_list_map (law_name : str) (d : details) :
  laws_citations_out_list law_name d
    = map (fun c => tab_pair law_name c) (set_iter (set_of (citations d))).
Proof.
  unfold laws_citations_out_list.
  rewrite (fold_left_app_bind _ (fun c => [tab_pair law_name c])); [|done].
  apply bind_singleton_map.
Qed.

Lemma NoDup_map_inj {A B : Type} (f : A -> B) (l : list A) :
  (forall x y, f x = f y -> x = y) -> NoDup l -> NoDup (map f l).
Proof.
  intros Hinj. induction 1 as [|x l Hx Hnd IH]; [constructor|].
  simpl. constructor; [|done].
  change (map f l) with (f <$> l). intros (y & Heq & Hy)%list_elem_of_fmap.
  apply Hinj in Heq as ->. done.
Qed.

(** X11: The entity-law builder emits one line per distinct entity of the
    document: the lines are pairwise different, there are as many as distinct
    entities, and the line of an entity is there exactly when the entity is
    in the document. *)
Theorem entities_laws_one_line_per_entity (law_name : str) (d : details) :
  NoDup (entities_laws_out_list law_name d) /\
  length (entities_laws_out_list law_name d) = size (set_of (entities d)) /\
  forall e, tab_pair e law_name ∈ entities_laws_out_list law_name d <-> e ∈ entities d.
Proof.
  assert (Hinj : forall x y, tab_pair x law_name = tab_pair y law_name -> x = y).
  { intros x y. unfold tab_pair. apply app_inv_tail. }
  rewrite entities_laws_out_list_map. split; [|split].
  - apply NoDup_map_inj; [done|apply NoDup_set_iter].
  - by rewrite length_map, length_set_iter.
  - intros e. change (map ?f ?l) with (f <$> l). rewrite list_elem_of_fmap. split.
    + intros (e' & ->%Hinj & He). by apply elem_of_set_iter_set_of.
    + intros He. exists e. split; [done|]. by apply elem_of_set_iter_set_of.
Qed.

(** X12: The law-citation builder emits one line per distinct citation of the
    document, in the same way. *)
Theorem laws_citations_one_line_per_citation (law_name : str) (d : details) :
  NoDup (laws_citations_out_list law_name d) /\
  length (laws_citations_out_list law_name d) = size (set_of (citations d)) /\
  forall c, tab_pair law_name c ∈ laws_citations_out_list law_name d <-> c ∈ citations d.
Proof.
  assert (Hinj : forall x y, tab_pair law_name x = tab_pair law_name y -> x = y).
  { intros x y. unfold tab_pair. intros Heq%app_inv_head. by injection Heq. }
  rewrite laws_citations_out_list_map. split; [|split].
  - apply NoDup_map_inj; [done|apply NoDup_set_iter].
  - by rewrite length_map, length_set_iter.
  - intros c. change (map ?f ?l) with (f <$> l). rewrite list_elem_of_fmap. split.
    + intros (c' & ->%Hinj & Hc). by apply elem_of_set_iter_set_of.
    + intros Hc. exists c. split; [done|]. by apply elem_of_set_iter_set_of.
Qed.

Lemma entities_citations_out_list_bind (d : details) :
  entities_citations_out_list d
    = (e ← set_iter (set_of (entities d));
       map (fun c => tab_pair e c) (set_iter (set_of (citations d)))).
Proof.
  unfold entities_citations_out_list.
  rewrite (fold_left_app_bind _ (fun e =>
    map (fun c => tab_pair e c) (set_iter (set_of (citations d))))); [done|].
  intros acc e.
  rewrite (fold_left_app_bind _ (fun c => [tab_pair e c])); [|done].
  by rewrite bind_singleton_map.
Qed.

(** X13: The entity-citation builder emits the product of the distinct entities
    and the distinct citations of the document, each pair once, whatever the
    actions: as many lines as pairs, the line of an entity and a citation of
    the document among them, and no line twice when no entity holds a tab. *)
Theorem entities_citations_product (d : details) :
  length (entities_citations_out_list d)
    = size (set_of (entities d)) * size (set_of (citations d)) /\
  (forall row, row ∈ entities_citations_out_list d <->
     exists e c, e ∈ entities d /\ c ∈ citations d /\ row = tab_pair e c) /\
  (Forall (fun e => TAB ∉ e) (entities d) -> NoDup (entities_citations_out_list d)).
Proof.
  rewrite entities_citations_out_list_bind. split; [|split].
  - rewrite (length_bind_const _ _ (size (set_of (citations d)))).
    + by rewrite length_set_iter.
    + intros e _. by rewrite length_map, length_set_iter.
  - intros row. rewrite list_elem_of_bind. split.
    + intros (e & Hrow & He). change (map ?f ?l) with (f <$> l) in Hrow.
      apply list_elem_of_fmap in Hrow as (c & -> & Hc).
      rewrite elem_of_set_iter_set_of in He, Hc. by exists e, c.
    + intros (e & c & He & Hc & ->). exists e.
      rewrite elem_of_set_iter_set_of. split; [|done].
      change (map ?f ?l) with (f <$> l). apply list_elem_of_fmap.
      exists c. by rewrite elem_of_set_iter_set_of.
  - intros Htab. apply NoDup_bind; [| |apply NoDup_set_iter].
    + intros e e' row He He' Hrow Hrow'.
      change (map ?f ?l) with (f <$> l) in Hrow, Hrow'.
      apply list_elem_of_fmap in Hrow as (c & -> & _).
      apply list_elem_of_fmap in Hrow' as (c' & Heq & _).
      rewrite elem_of_set_iter_set_of in He, He'.
      apply (proj1 (list.Forall_forall _ _) Htab) in He, He'.
      by destruct (tab_pair_inj e c e' c' He He' Heq).
    + intros e _. apply NoDup_map_inj; [|apply NoDup_set_iter].
      intros x y. unfold tab_pair. intros Heq%app_inv_head. by injection Heq.
Qed.
End EdgeBuilders.

(** ** The files *)

Lemma out_path_inj (a b : str) : out_path a = out_path b -> a = b.
Proof. unfold out_path. by intros ?%app_inv_head%app_inv_head. Qed.

Lemma lookup_clear (names : list str) (fs : files) (q : str) :
  fold_left (fun fs f => delete (out_path f) fs) names fs !! q
    = if decide (q ∈ map out_path names) then None else fs !! q.
Proof.
  revert fs. induction names as [|f names IH]; intros fs; cbn [fold_left map].
  - rewrite decide_False; [done|]. by intros ?%elem_of_nil.
  - rewrite IH. destruct (decide (q ∈ map out_path names)) as [Hin|Hnin].
    + rewrite decide_True; [done|]. by right.
    + destruct (decide (q = out_path f)) as [->|Hne].
      * rewrite lookup_delete_eq, decide_True; [done|left].
      * rewrite lookup_delete_ne by done.
        rewrite decide_False; [done|]. rewrite elem_of_cons. tauto.
Qed.

(** X14: [clear_old_files] removes the eight output tables and nothing else, and
    clearing twice is clearing once. *)
Theorem clear_old_files_removes_tables (fs : files) (q : str) :
  (forall f, f ∈ OUTPUT_FILES -> clear_old_files fs !! out_path f = None) /\
  ((forall f, f ∈ OUTPUT_FILES -> q <> out_path f) -> clear_old_files fs !! q = fs !! q) /\
  clear_old_files (clear_old_files fs) = clear_old_files fs.
Proof.
  unfold clear_old_files. split; [|split].
  - intros f Hf. rewrite lookup_clear, decide_True; [done|].
    change (map ?g ?l) with (g <$> l). apply list_elem_of_fmap. by exists f.
  - intros Hq. rewrite lookup_clear, decide_False; [done|].
    change (map ?g ?l) with (g <$> l). intros (f & -> & Hf)%list_elem_of_fmap.
    by apply (Hq f).
  - apply map_eq. intros p. rewrite !lookup_clear.
    by destruct (decide (p ∈ map out_path OUTPUT_FILES)).
Qed.

Section Files.
Context `{SetIteration}.

Lemma tab_pair_encodable (a b : str) :
  utf8_encodable (tab_pair a b) = utf8_encodable a && utf8_encodable b.
Proof.
  unfold tab_pair. rewrite !utf8_encodable_app.
  by destruct (utf8_encodable a), (utf8_encodable b).
Qed.

Lemma entities_actions_out_list_encodable (d : details) :
  Forall (fun e => utf8_encodable e = true) (entities d) ->
  Forall (fun e => utf8_encodable e = true) (entities_actions_out_list d).
Proof.
  intros Hent. rewrite entities_actions_out_list_edges.
  apply list.Forall_forall. intros line ([e1 e2] & -> & Hin)%list_elem_of_fmap.
  apply elem_of_entities_actions_edges in Hin as (H1 & H2 & _).
  rewrite tab_pair_encodable. cbn [fst snd].
  by rewrite (proj1 (list.Forall_forall _ _) Hent e1 H1),
    (proj1 (list.Forall_forall _ _) Hent e2 H2).
Qed.

Lemma entities_laws_out_list_encodable (law_name : str) (d : details) :
  utf8_encodable law_name = true ->
  Forall (fun e => utf8_encodable e = true) (entities d) ->
  Forall (fun e => utf8_encodable e = true) (entities_laws_out_list law_name d).
Proof.
  intros Hname Hent. rewrite entities_laws_out_list_map.
  apply list.Forall_forall. intros line (e & -> & He)%list_elem_of_fmap.
  rewrite elem_of_set_iter_set_of in He.
  by rewrite tab_pair_encodable, Hname, (proj1 (list.Forall_forall _ _) Hent e He).
Qed.

Lemma entities_citations_out_list_encodable (d : details) :
  Forall (fun e => utf8_encodable e = true) (entities d) ->
  Forall (fun e => utf8_encodable e = true) (citations d) ->
  Forall (fun e => utf8_encodable e = true) (entities_citations_out_list d).
Proof.
  intros Hent Hcit. rewrite entities_citations_out_list_bind.
  apply list.Forall_forall.
  intros line (e & (c & -> & Hc)%list_elem_of_fmap & He)%list_elem_of_bind.
  rewrite elem_of_set_iter_set_of in He, Hc.
  by rewrite tab_pair_encodable, (proj1 (list.Forall_forall _ _) Hent e He),
    (proj1 (list.Forall_forall _ _) Hcit c Hc).
Qed.

Lemma laws_citations_out_list_encodable (law_name : str) (d : details) :
  utf8_encodable law_name = true ->
  Forall (fun e => utf8_encodable e = true) (citations d) ->
  Forall (fun e => utf8_encodable e = true) (laws_citations_out_list law_name d).
Proof.
  intros Hname Hcit. rewrite laws_citations_out_list_map.
  apply list.Forall_forall. intros line (c & -> & Hc)%list_elem_of_fmap.
  rewrite elem_of_set_iter_set_of in Hc.
  by rewrite tab_pair_encodable, Hname, (proj1 (list.Forall_forall _ _) Hcit c Hc).
Qed.

(** No line is written when none can be encoded. *)
Lemma written_none {A : Type} (line : A -> str) (l : list A) :
  (forall x, utf8_encodable (line x) = false) -> written (map line l) = [].
Proof. intros Hline. destruct l as [|x l]; [done|]. simpl. by rewrite Hline. Qed.

(** What an edge writer leaves, from its list. *)
Lemma edge_writer_outcome (fs : files) (name : str) (out_list : list str) :
  leave fs (out_path name) (write_list_out (open_ab fs (out_path name)) out_list)
    = (<[out_path name :=
           default [] (fs !! out_path name) ++ file_lines (written out_list)]> fs,
       if forallb utf8_encodable out_list then None else Some UnicodeEncodeError).
Proof. by rewrite write_list_out_written. Qed.

(** X15: The four edge writers only append.  Each adds, after what its table
    already holds, the lines of its list up to the first value UTF-8 cannot
    encode, and touches no other file; it returns when every value can be
    encoded, having added all the lines of its list, and raises otherwise.
    Every value can be encoded when the law name, the entities and the
    citations can; with a law name that cannot, the two tables of the laws
    get no line.  Called twice for the same document, a writer leaves its
    lines twice. *)
Theorem edge_writers_append (fs : files) (law_name : str) (d : details) (q : str) :
  let old := fun name : str => default [] (fs !! out_path name) in
  let appends := fun (r : outcome files) (name : str) (out_list : list str) =>
    r.1 !! out_path name = Some (old name ++ file_lines (written out_list)) /\
    r.2 = (if forallb utf8_encodable out_list then None else Some UnicodeEncodeError) /\
    (q <> out_path name -> r.1 !! q = fs !! q) in
  (appends (write_to_fout_entities_actions fs d) ENTITIES_CONNECTED_BY_ACTIONS
     (entities_actions_out_list d) /\
   appends (write_to_fout_entities_laws fs law_name d) ENTITIES_LAWS_BIPARTITE
     (entities_laws_out_list law_name d) /\
   appends (write_to_fout_entities_citations fs d) ENTITIES_CITATIONS_BIPARTITE
     (entities_citations_out_list d) /\
   appends (write_to_fout_laws_citations fs law_name d) LAWS_CITATIONS_BIPARTITE
     (laws_citations_out_list law_name d)) /\
  (forall out_list : list str,
     Forall (fun e => utf8_encodable e = true) out_list ->
     written out_list = out_list /\ forallb utf8_encodable out_list = true) /\
  (utf8_encodable law_name = true ->
   Forall (fun e => utf8_encodable e = true) (entities d) ->
   Forall (fun e => utf8_encodable e = true) (citations d) ->
   Forall (fun e => utf8_encodable e = true) (entities_actions_out_list d) /\
   Forall (fun e => utf8_encodable e = true) (entities_laws_out_list law_name d) /\
   Forall (fun e => utf8_encodable e = true) (entities_citations_out_list d) /\
   Forall (fun e => utf8_encodable e = true) (laws_citations_out_list law_name d)) /\
  (utf8_encodable law_name = false ->
   written (entities_laws_out_list law_name d) = [] /\
   written (laws_citations_out_list law_name d) = []) /\
  (write_to_fout_entities_laws (write_to_fout_entities_laws fs law_name d).1 law_name d).1
    !! out_path ENTITIES_LAWS_BIPARTITE
    = Some (old ENTITIES_LAWS_BIPARTITE
            ++ file_lines (written (entities_laws_out_list law_name d))
            ++ file_lines (written (entities_laws_out_list law_name d))).
Proof.
  intros old appends.
  assert (Happ : forall name out_list,
    appends (leave fs (out_path name)
               (write_list_out (open_ab fs (out_path name)) out_list)) name out_list).
  { intros name out_list. rewrite edge_writer_outcome. unfold appends. cbn [fst snd].
    split; [by rewrite lookup_insert_eq|]. split; [done|].
    intros Hq. by rewrite lookup_insert_ne. }
  split; [|split; [|split; [|split]]].
  - repeat split; apply Happ.
  - intros out_list Hall. split; [by apply written_all|by apply forallb_utf8_encodable].
  - intros Hname Hent Hcit. split; [by apply entities_actions_out_list_encodable|].
    split; [by apply entities_laws_out_list_encodable|].
    split; [by apply entities_citations_out_list_encodable|].
    by apply laws_citations_out_list_encodable.
  - intros Hname. rewrite entities_laws_out_list_map, laws_citations_out_list_map.
    split; apply written_none; intros x; rewrite tab_pair_encodable, Hname;
      [apply andb_false_r|done].
  - unfold write_to_fout_entities_laws. rewrite !edge_writer_outcome. cbn [fst].
    rewrite !lookup_insert_eq. cbn [default from_option id]. by rewrite <- app_assoc.
Qed.
End Files.

(** ** The run over the directory *)

Lemma law_record_extracted_text (d : dir_entry) :
  law_record d = law_details <$> extracted_text d.
Proof.
  unfold law_record, extracted_text.
  destruct (is_law d); [|done]. by destruct (law_text d).
Qed.

Lemma omap_law_record (ds : list dir_entry) :
  omap law_record ds = law_details <$> omap extracted_text ds.
Proof.
  induction ds as [|d ds IH]; [done|]. cbn [omap list_omap].
  rewrite law_record_extracted_text.
  destruct (extracted_text d); simpl; [f_equal|]; exact IH.
Qed.

(** What one turn of the loop does to the variables. *)
Lemma parse_law_inv (st st' : corpus) (d : dir_entry) :
  parse_law st d = inr st' ->
  (extracted_text d = None /\ is_law d = false /\ st' = st) \/
  (exists txt, extracted_text d = Some txt /\ is_law d = true /\
     tot_cites st' = tot_cites st + length (get_citations_from_text txt) /\
     tot_actions st' = tot_actions st + length (actions (law_details txt)) /\
     tot_entities st' = tot_entities st + length (entities (law_details txt)) /\
     laws st' = dict_set (laws st) (d_name d) (law_details txt) /\
     printed st' = printed st ++ [d_name d]).
Proof.
  unfold parse_law, extracted_text, is_law.
  destruct (negb (d_is_file d) || negb (endswith (u "htm") (d_name d))); simpl.
  - intros [= ->]. by left.
  - destruct (law_text d) as [e|txt]; simpl; [done|].
    intros [= <-]. right. exists txt. by repeat split.
Qed.

Lemma scan_laws_filter (st : corpus) (ds : list dir_entry) :
  scan_laws st (filter (fun d => is_law d = true) ds) = scan_laws st ds.
Proof.
  revert st. induction ds as [|d ds IH]; intros st; [done|].
  rewrite filter_cons. destruct (decide (is_law d = true)) as [Hd|Hd].
  - cbn [scan_laws]. destruct (parse_law st d); simpl; [done|apply IH].
  - cbn [scan_laws]. apply not_true_is_false in Hd.
    rewrite (parse_law_skip st d Hd). simpl. apply IH.
Qed.

(** X16: An entry that is no file, or whose name does not end in htm, leaves no
    trace: the run is the run on the laws alone. *)
Theorem parse_laws_ignores_other_entries (ds : list dir_entry) :
  parse_laws (filter (fun d => is_law d = true) ds) = parse_laws ds.
Proof. unfold parse_laws. by rewrite scan_laws_filter. Qed.

Lemma length_sorted (l : list str) : length (sorted l) = length l.
Proof. by rewrite sorted_perm. Qed.

Lemma scan_laws_totals (st st' : corpus) (ds : list dir_entry) :
  scan_laws st ds = inr st' ->
  let texts := omap extracted_text ds in
  tot_cites st' = tot_cites st
    + sum_list (map (fun t => length (get_citations_from_text t)) texts) /\
  tot_actions st' = tot_actions st
    + sum_list (map (fun t => length (get_actions_from_text t)) texts) /\
  tot_entities st' = tot_entities st
    + sum_list (map (fun t => length (get_entities_from_test t)) texts) /\
  printed st' = printed st ++ map d_name (filter (fun d => is_law d = true) ds).
Proof.
  revert st. induction ds as [|d ds IH]; intros st; cbn [scan_laws].
  - intros [= ->]. simpl. by rewrite !Nat.add_0_r, app_nil_r.
  - destruct (parse_law st d) as [e|st1] eqn:Hd; simpl; [done|].
    intros Hscan. destruct (IH _ Hscan) as (-> & -> & -> & ->).
    rewrite filter_cons.
    apply parse_law_inv in Hd
      as [(Ht & Hl & ->)|(txt & Ht & Hl & -> & -> & -> & _ & ->)];
      rewrite Ht, Hl; simpl.
    + done.
    + change (list_omap dir_entry str extracted_text ds) with (omap extracted_text ds).
      rewrite !length_sorted, !length_map, <- !app_assoc.
      repeat split; first [lia|done].
Qed.

Lemma length_filter_le {A : Type} (P : A -> Prop) `{forall x, Decision (P x)}
    (l : list A) : length (filter P l) <= length l.
Proof.
  induction l as [|x l IH]; [done|]. rewrite filter_cons.
  destruct (decide (P x)); simpl; lia.
Qed.

(** X17: The totals a run prints count every match: the citations, actions and
    entities found in the texts of the extracted laws, repeated mentions
    included, and the citations that the length filter keeps out of the
    records as well. *)
Theorem parse_laws_totals (ds : list dir_entry) (st : corpus) :
  parse_laws ds = inr st ->
  let texts := omap extracted_text ds in
  tot_cites st = sum_list (map (fun t => length (get_citations_from_text t)) texts) /\
  tot_actions st = sum_list (map (fun t => length (actions (law_details t))) texts) /\
  tot_entities st = sum_list (map (fun t => length (entities (law_details t))) texts) /\
  sum_list (map (fun t => length (citations (law_details t))) texts) <= tot_cites st /\
  printed st = map d_name (filter (fun d => is_law d = true) ds) ++ [totals_line st].
Proof.
  unfold parse_laws.
  destruct (scan_laws corpus_init ds) as [e|st1] eqn:Hscan; simpl; [done|].
  intros [= <-]. cbn [tot_cites tot_actions tot_entities printed].
  destruct (scan_laws_totals _ _ _ Hscan) as (Hc & Ha & He & Hp).
  simpl in Hc, Ha, He, Hp. split; [done|]. split; [|split; [|split]].
  - rewrite Ha. f_equal. apply map_ext. intros t. cbn [law_details actions].
    by rewrite length_sorted, length_map.
  - rewrite He. f_equal. apply map_ext. intros t. cbn [law_details entities].
    by rewrite length_sorted, length_map.
  - rewrite Hc. generalize (omap extracted_text ds). intros l.
    induction l as [|t l IH]; simpl; [done|].
    pose proof (length_filter_le (fun x : str => length x < LONGEST_POSSIBLE_CITATION_LENGTH)
                  (sorted (get_citations_from_text t))) as Hle.
    rewrite length_sorted in Hle. lia.
  - by rewrite Hp.
Qed.

(** *** The dict of the laws *)

Lemma dict_set_keys {A : Type} (l : list (str * A)) (k : str) (v : A) :
  (dict_set l k v).*1 = if decide (k ∈ l.*1) then l.*1 else l.*1 ++ [k].
Proof.
  induction l as [|[k' v'] l IH].
  - destruct (decide (k ∈ (@nil (str * A)).*1)) as [Hin|_]; [|done].
    by apply elem_of_nil in Hin.
  - cbn [dict_set]. destruct (decide (k' = k)) as [->|Hne].
    + rewrite decide_True; [done|]. rewrite fmap_cons. left.
    + rewrite !fmap_cons, IH. cbn [fst].
      destruct (decide (k ∈ l.*1)) as [Hin|Hnin].
      * rewrite decide_True; [done|by right].
      * rewrite decide_False; [done|]. rewrite elem_of_cons. intros [?|?]; congruence.
Qed.

Lemma elem_of_dict_set {A : Type} (l : list (str * A)) (k : str) (v : A) (p : str * A) :
  p ∈ dict_set l k v -> p = (k, v) \/ p ∈ l.
Proof.
  induction l as [|[k' v'] l IH]; simpl.
  - intros ->%list_elem_of_singleton. by left.
  - destruct (decide (k' = k)) as [->|Hne]; rewrite !elem_of_cons; [tauto|].
    intros [->|Hp]; [tauto|]. destruct (IH Hp); tauto.
Qed.

Lemma NoDup_dict_set_keys {A : Type} (l : list (str * A)) (k : str) (v : A) :
  NoDup l.*1 -> NoDup (dict_set l k v).*1.
Proof.
  intros Hnd. rewrite dict_set_keys. destruct (decide (k ∈ l.*1)); [done|].
  apply NoDup_app. split; [done|]. split; [|apply NoDup_singleton].
  intros x Hx ->%list_elem_of_singleton. done.
Qed.

(** Assigning to a key and reading it back gives the value assigned; the
    other keys keep their values, and the keys keep their places, a new key
    going to the end. *)
Theorem dict_set_get {A : Type} (l : list (str * A)) (k : str) (v : A) :
  NoDup l.*1 ->
  (forall v', (k, v') ∈ dict_set l k v <-> v' = v) /\
  (forall k' v', k' <> k -> (k', v') ∈ dict_set l k v <-> (k', v') ∈ l) /\
  (dict_set l k v).*1 = (if decide (k ∈ l.*1) then l.*1 else l.*1 ++ [k]) /\
  NoDup (dict_set l k v).*1.
Proof.
  intros Hnd. split; [|split; [|split; [apply dict_set_keys|by apply NoDup_dict_set_keys]]].
  - induction l as [|[k1 v1] l IH]; intros v'; simpl.
    + rewrite list_elem_of_singleton. split; [by intros [= ->]|by intros ->].
    + apply NoDup_cons in Hnd as [Hk1 Hnd]. simpl in Hk1.
      destruct (decide (k1 = k)) as [->|Hne]; rewrite elem_of_cons.
      * split; [|intros ->; by left]. intros [[= ->]|Hin]; [done|].
        exfalso. apply Hk1. apply list_elem_of_fmap. by exists (k, v').
      * rewrite (IH Hnd). split; [|tauto]. intros [[= ? ?]|?]; [done|tauto].
  - intros k' v' Hne. clear Hnd. induction l as [|[k1 v1] l IH]; simpl.
    + rewrite list_elem_of_singleton. split; [by intros [= -> ->]|by intros ?%elem_of_nil].
    + destruct (decide (k1 = k)) as [->|Hne1]; rewrite !elem_of_cons.
      * split; (intros [[= ? ?]|?]; [done|tauto]).
      * by rewrite IH.
Qed.

Lemma scan_laws_laws (st st' : corpus) (ds : list dir_entry) :
  scan_laws st ds = inr st' ->
  (NoDup (laws st).*1 -> NoDup (laws st').*1) /\
  (forall p, p ∈ laws st' ->
     p ∈ laws st \/
     exists d txt, d ∈ ds /\ extracted_text d = Some txt /\ p = (d_name d, law_details txt)) /\
  (forall k, k ∈ (laws st).*1 -> k ∈ (laws st').*1) /\
  (forall d, d ∈ ds -> is_law d = true -> d_name d ∈ (laws st').*1).
Proof.
  revert st. induction ds as [|d ds IH]; intros st; cbn [scan_laws].
  - intros [= ->]. repeat split; [done|by left|done|by intros d ?%elem_of_nil].
  - destruct (parse_law st d) as [e|st1] eqn:Hd; simpl; [done|].
    intros Hscan. destruct (IH _ Hscan) as (Hnd & Hfrom & Hkeys & Hall).
    apply parse_law_inv in Hd
      as [(Ht & Hl & ->)|(txt & Ht & Hl & _ & _ & _ & Hlaws & _)].
    + repeat split; [done| |done|].
      * intros p Hp. destruct (Hfrom p Hp) as [?|(d' & txt & Hd' & ? & ?)]; [by left|].
        right. exists d', txt. split; [by right|done].
      * intros d' [->|Hd']%elem_of_cons Hlaw; [congruence|by apply Hall].
    + assert (Hk : d_name d ∈ (laws st1).*1).
      { rewrite Hlaws, dict_set_keys. destruct (decide _); [done|].
        apply elem_of_app. right. left. }
      repeat split.
      * intros Hst. apply Hnd. rewrite Hlaws. by apply NoDup_dict_set_keys.
      * intros p Hp. destruct (Hfrom p Hp) as [Hp1|(d' & txt' & Hd' & ? & ?)].
        -- rewrite Hlaws in Hp1. apply elem_of_dict_set in Hp1 as [->|?]; [|by left].
           right. exists d, txt. split; [left|done].
        -- right. exists d', txt'. split; [by right|done].
      * intros k Hin. apply Hkeys. rewrite Hlaws, dict_set_keys.
        destruct (decide _); [done|]. apply elem_of_app. by left.
      * intros d' [->|Hd']%elem_of_cons Hlaw; [by apply Hkeys|by apply Hall].
Qed.

(** X18: The dict that a run returns has one record per law name: no name twice,
    the name of every law of the directory, and under each name the details
    of a law of that name. *)
Theorem parse_laws_records (ds : list dir_entry) (st : corpus) :
  parse_laws ds = inr st ->
  NoDup (laws st).*1 /\
  (forall d, d ∈ ds -> is_law d = true -> d_name d ∈ (laws st).*1) /\
  (forall name det, (name, det) ∈ laws st ->
     exists d txt, d ∈ ds /\ d_name d = name /\ extracted_text d = Some txt /\
                   det = law_details txt).
Proof.
  unfold parse_laws.
  destruct (scan_laws corpus_init ds) as [e|st1] eqn:Hscan; simpl; [done|].
  intros [= <-]. cbn [laws].
  destruct (scan_laws_laws _ _ _ Hscan) as (Hnd & Hfrom & _ & Hall).
  split; [apply Hnd; constructor|]. split; [done|].
  intros name det Hp.
  destruct (Hfrom _ Hp) as [?%elem_of_nil|(d & txt & Hd & Ht & [= -> ->])]; [done|].
  by exists d, txt.
Qed.

Lemma elem_of_parse_laws_sets (ds : list dir_entry) (st : corpus) (x : str) :
  parse_laws ds = inr st ->
  (x ∈ all_actions st <->
     exists txt, txt ∈ omap extracted_text ds /\ x ∈ actions (law_details txt)) /\
  (x ∈ all_entities st <->
     exists txt, txt ∈ omap extracted_text ds /\ x ∈ entities (law_details txt)) /\
  (x ∈ all_citations st <->
     exists txt, txt ∈ omap extracted_text ds /\ x ∈ citations (law_details txt)).
Proof.
  unfold parse_laws.
  destruct (scan_laws corpus_init ds) as [e|st1] eqn:Hscan; simpl; [done|].
  intros [= <-]. cbn [all_actions all_entities all_citations].
  destruct (scan_laws_fold_in _ _ _ Hscan) as (-> & -> & ->).
  destruct (fold_in_union (omap law_record ds) corpus_init) as (-> & -> & ->).
  cbn [corpus_init all_actions all_entities all_citations].
  rewrite omap_law_record. change (map ?f ?l) with (f <$> l). rewrite <- !list_fmap_compose.
  rewrite !elem_of_union, !elem_of_union_list.
  repeat split.
  - intros [?%elem_of_empty|(X & (txt & -> & Ht)%list_elem_of_fmap & Hx)]; [done|].
    exists txt. split; [done|]. by apply elem_of_list_to_set in Hx.
  - intros (txt & Ht & Hx). right. exists (set_of (actions (law_details txt))).
    split; [apply list_elem_of_fmap; by exists txt|by apply elem_of_list_to_set].
  - intros [?%elem_of_empty|(X & (txt & -> & Ht)%list_elem_of_fmap & Hx)]; [done|].
    exists txt. split; [done|]. by apply elem_of_list_to_set in Hx.
  - intros (txt & Ht & Hx). right. exists (set_of (entities (law_details txt))).
    split; [apply list_elem_of_fmap; by exists txt|by apply elem_of_list_to_set].
  - intros [?%elem_of_empty|(X & (txt & -> & Ht)%list_elem_of_fmap & Hx)]; [done|].
    exists txt. split; [done|]. by apply elem_of_list_to_set in Hx.
  - intros (txt & Ht & Hx). right. exists (set_of (citations (law_details txt))).
    split; [apply list_elem_of_fmap; by exists txt|by apply elem_of_list_to_set].
Qed.

(** X19: The three sets that a run returns hold the mentions of the extracted
    laws and nothing else. *)
Theorem parse_laws_sets (ds : list dir_entry) (st : corpus) (x : str) :
  parse_laws ds = inr st ->
  (x ∈ all_actions st <->
     exists txt, txt ∈ omap extracted_text ds /\ x ∈ actions (law_details txt)) /\
  (x ∈ all_entities st <->
     exists txt, txt ∈ omap extracted_text ds /\ x ∈ entities (law_details txt)) /\
  (x ∈ all_citations st <->
     exists txt, txt ∈ omap extracted_text ds /\ x ∈ citations (law_details txt)).
Proof. apply elem_of_parse_laws_sets. Qed.

(** ** The whole run *)

Section Main.
Context `{SetIteration}.

Lemma set_of_clean_id (X : gset str) :
  (forall x, x ∈ X -> LF ∉ x) -> set_of (map clean_list_item (set_iter X)) = X.
Proof.
  intros HX. apply set_eq. intros x. unfold set_of.
  rewrite elem_of_list_to_set. change (map ?f ?l) with (f <$> l).
  rewrite list_elem_of_fmap. split.
  - intros (y & -> & Hy%elem_of_set_iter). by rewrite clean_list_item_id by auto.
  - intros Hx. exists x. rewrite elem_of_set_iter.
    split; [|done]. symmetry. apply clean_list_item_id. auto.
Qed.

(** X21: A run that fails on a law has already deleted the eight output tables,
    and writes nothing: it ends with none of them and with the other files as
    they were. *)
Theorem main_failure_leaves_no_table (fs : files) (ds : list dir_entry) (e : exn) (q : str) :
  parse_laws ds = inl e ->
  (main fs ds).2 = inl e /\
  (forall f, f ∈ OUTPUT_FILES -> (main fs ds).1 !! out_path f = None) /\
  ((forall f, f ∈ OUTPUT_FILES -> q <> out_path f) -> (main fs ds).1 !! q = fs !! q).
Proof.
  intros Hparse. unfold main. rewrite Hparse. cbn [fst snd].
  unfold clear_old_files. split; [done|]. split.
  - intros f Hf. rewrite lookup_clear, decide_True; [done|].
    change (map ?g ?l) with (g <$> l). apply list_elem_of_fmap. by exists f.
  - intros Hq. rewrite lookup_clear, decide_False; [done|].
    change (map ?g ?l) with (g <$> l). intros (f & -> & Hf)%list_elem_of_fmap.
    by apply (Hq f).
Qed.
End Main.

(** ** The repair of the encoding *)

Lemma index_of_lookup (c : char) (tbl : list char) (i : nat) :
  index_of c tbl = Some i -> tbl !! i = Some c.
Proof.
  revert i. induction tbl as [|x tbl IH]; intros i; simpl; [done|].
  destruct (N.eqb_spec x c) as [->|_].
  - by intros [= <-].
  - destruct (index_of c tbl) as [j|]; simpl; [|done].
    intros [= <-]. by apply IH.
Qed.

Lemma charmap_recode_Some (tbl1 tbl2 : list char) (c h : char) :
  charmap_encode tbl1 c ≫= charmap_decode tbl2 = Some h ->
  ((c < 0x80)%N /\ h = c) \/
  ((0x80 <= c)%N /\ (c, h) ∈ zip tbl1 tbl2 /\ h <> UNDEFINED).
Proof.
  unfold charmap_encode.
  destruct (N.ltb_spec c 0x80) as [Hlt|Hge]; simpl.
  - unfold charmap_decode. apply N.ltb_lt in Hlt. rewrite Hlt.
    intros [= <-]. left. split; [by apply N.ltb_lt|done].
  - destruct (N.eqb c UNDEFINED); simpl; [done|].
    destruct (index_of c tbl1) as [i|] eqn:Hi; simpl; [|done].
    apply index_of_lookup in Hi. unfold charmap_decode.
    destruct (N.ltb_spec (0x80 + N.of_nat i) 0x80) as [|_]; [lia|].
    replace (N.to_nat (0x80 + N.of_nat i - 0x80)) with i by lia.
    destruct (tbl2 !! i) as [h'|] eqn:Hh; [|done].
    destruct (N.eqb_spec h' UNDEFINED) as [|Hne]; [done|].
    intros [= <-]. right. split; [done|]. split; [|done].
    apply list_elem_of_lookup. exists i. apply lookup_zip_with_Some. eauto.
Qed.

(** A character that is repaired is an ASCII character, kept, or stands at
    some place of the upper half of Windows-1252, and becomes what
    Windows-1255 has at that place. *)
Lemma recode_char_Some (c h : char) :
  recode_char c = Some h ->
  ((c < 0x80)%N /\ h = c) \/
  ((0x80 <= c)%N /\ (c, h) ∈ zip cp1252_high cp1255_high /\ h <> UNDEFINED).
Proof. apply charmap_recode_Some. Qed.

Lemma recode_Forall2 (txt t : str) :
  recode txt = inr t -> Forall2 (fun c h => recode_char c = Some h) txt t.
Proof.
  unfold recode.
  destruct (mapM (charmap_encode cp1252_high) txt) as [bytes|] eqn:He; [|done].
  destruct (mapM (charmap_decode cp1255_high) bytes) as [t'|] eqn:Hd; [|done].
  intros [= <-]. apply mapM_Some in He, Hd.
  revert t' Hd. induction He as [|c b txt bytes Hc _ IH]; intros t' Hd.
  - inversion Hd. constructor.
  - inversion Hd as [|b' h bytes' t'' Hh Hd']; subst.
    constructor; [|by apply IH]. unfold recode_char. by rewrite Hc.
Qed.

Lemma high_tables_facts :
  Forall (fun p : char * char =>
    (0x80 <= p.2)%N /\
    (p.2 <> UNDEFINED -> weird p.1 = false /\ weird p.2 = false) /\
    ((0xE0 <= p.1 <= 0xFA)%N -> p.2 = (p.1 + 0x4F0)%N) /\
    Forall (fun q : char * char => q.2 = p.2 -> p.2 <> UNDEFINED -> q.1 = p.1)
      (zip cp1252_high cp1255_high))
    (zip cp1252_high cp1255_high).
Proof. apply (bool_decide_unpack _). by vm_compute. Qed.

(** X22: The repair succeeds only on a text free of the three characters to
    ignore, which is why they are replaced first, and none of them is in a
    repaired text; so no extracted mention holds one. *)
Theorem recode_needs_no_weird_unicode (txt t : str) :
  recode txt = inr t ->
  Forall (fun c => weird c = false) txt /\ Forall (fun c => weird c = false) t.
Proof.
  intros Hr%recode_Forall2.
  induction Hr as [|c h txt t Hc _ [IH1 IH2]]; [done|].
  assert (weird c = false /\ weird h = false) as [? ?]; [|by split; constructor].
  apply recode_char_Some in Hc as [[Hlt ->]|(_ & Hin & Hne)].
  - assert (weird c = false); [|done]. unfold weird.
    rewrite !orb_false_iff, !N.eqb_neq. lia.
  - destruct (proj1 (list.Forall_forall _ _) high_tables_facts _ Hin) as (_ & Hw & _).
    by apply Hw.
Qed.

(** X23: The repair changes no ASCII character, turns the Latin letters from
    0xE0 to 0xFA into the Hebrew letters alef to tav, keeps the length of the
    text, and loses nothing: two texts with the same repaired text are the
    same. *)
Theorem recode_pointwise_injective (txt txt' t : str) :
  recode txt = inr t ->
  length t = length txt /\
  (forall i c, txt !! i = Some c -> (c < 0x80)%N -> t !! i = Some c) /\
  (forall i c, txt !! i = Some c -> (0xE0 <= c <= 0xFA)%N ->
     t !! i = Some (c + 0x4F0)%N) /\
  (recode txt' = inr t -> txt' = txt).
Proof.
  intros Hr%recode_Forall2. split; [|split; [|split]].
  - symmetry. by eapply Forall2_length.
  - intros i c Hi Hc.
    destruct (Forall2_lookup_l _ _ _ _ _ Hr Hi) as (h & Hh & Hch).
    apply recode_char_Some in Hch as [[_ ->]|(Hge & _)]; [exact Hh|lia].
  - intros i c Hi Hc.
    destruct (Forall2_lookup_l _ _ _ _ _ Hr Hi) as (h & Hh & Hch).
    apply recode_char_Some in Hch as [[Hlt _]|(_ & Hin & _)]; [lia|].
    destruct (proj1 (list.Forall_forall _ _) high_tables_facts _ Hin) as (_ & _ & Hheb & _).
    simpl in Hheb. rewrite <- (Hheb Hc). exact Hh.
  - intros Hr'%recode_Forall2. revert txt' Hr'.
    induction Hr as [|c h txt t Hc _ IH]; intros txt' Hr'.
    + by inversion Hr'.
    + inversion Hr' as [|c' h' txt'' t' Hc' Hr'']; subst. f_equal; [|by apply IH].
      apply recode_char_Some in Hc as [[Hlt ->]|(Hge & Hin & Hne)];
        apply recode_char_Some in Hc' as [[Hlt' Heq]|(Hge' & Hin' & Hne')].
      * done.
      * destruct (proj1 (list.Forall_forall _ _) high_tables_facts _ Hin') as (? & _).
        simpl in *. lia.
      * destruct (proj1 (list.Forall_forall _ _) high_tables_facts _ Hin) as (? & _).
        simpl in *. lia.
      * destruct (proj1 (list.Forall_forall _ _) high_tables_facts _ Hin)
          as (_ & _ & _ & Hinj).
        by apply (proj1 (list.Forall_forall _ _) Hinj _ Hin').
Qed.

(** ** The tables of a run *)

Lemma cp1255_high_no_surrogate : Forall (fun c => surrogate c = false) cp1255_high.
Proof. apply (bool_decide_unpack _). by vm_compute. Qed.

(** A repaired text can be encoded in UTF-8: it is made of ASCII characters
    and of characters of Windows-1255. *)
Lemma recode_encodable (txt t : str) : recode txt = inr t -> utf8_encodable t = true.
Proof.
  intros Hr%recode_Forall2. apply utf8_encodable_Forall.
  induction Hr as [|c h txt t Hc _ IH]; constructor; [|done].
  apply recode_char_Some in Hc as [[Hlt ->]|(_ & Hin & _)].
  - unfold surrogate. apply andb_false_iff. left. apply N.leb_gt. lia.
  - apply elem_of_zip_r in Hin.
    by apply (proj1 (list.Forall_forall _ _) cp1255_high_no_surrogate).
Qed.

Lemma extracted_text_encodable (d : dir_entry) (txt : str) :
  extracted_text d = Some txt -> utf8_encodable txt = true.
Proof.
  unfold extracted_text, law_text. destruct (is_law d); [|done].
  destruct (get_text d) as [e|body]; simpl; [done|].
  destruct (recode (remove_weird_unicode body)) as [e|t] eqn:Hr; [done|].
  intros [= <-]. by eapply recode_encodable.
Qed.

(** A match is a piece of the text. *)
Lemma apply_filter_on_text_encodable (txt : str) (filters : list (string * regex)) :
  utf8_encodable txt = true ->
  Forall (fun m => utf8_encodable m = true) (apply_filter_on_text txt filters).
Proof.
  intros Htxt%utf8_encodable_Forall. apply list.Forall_forall. intros m.
  rewrite elem_of_apply_filter_on_text.
  intros (f & _ & (i & rest & Hm%match_here_prefix)%re_findall_sound).
  apply utf8_encodable_Forall.
  apply (Forall_drop _ i) in Htxt. rewrite Hm in Htxt.
  by apply Forall_app in Htxt as [? _].
Qed.

Lemma remove_trailing_chars_encodable (s : str) :
  utf8_encodable s = true -> utf8_encodable (remove_trailing_chars s) = true.
Proof.
  rewrite !utf8_encodable_Forall, remove_trailing_chars_strip.
  apply strip_trailing_Forall.
Qed.

Lemma law_details_encodable (txt : str) :
  utf8_encodable txt = true ->
  Forall (fun e => utf8_encodable e = true) (citations (law_details txt)) /\
  Forall (fun e => utf8_encodable e = true) (actions (law_details txt)) /\
  Forall (fun e => utf8_encodable e = true) (entities (law_details txt)).
Proof.
  intros Htxt. cbn [law_details citations actions entities].
  split; [|split]; apply list.Forall_forall; intros x.
  - rewrite list_elem_of_filter, elem_of_sorted. intros [_ Hx].
    by apply (proj1 (list.Forall_forall _ _)
                (apply_filter_on_text_encodable txt CITATION_RES Htxt)).
  - rewrite elem_of_sorted. change (map ?f ?l) with (f <$> l).
    intros (m & -> & Hm)%list_elem_of_fmap. apply remove_trailing_chars_encodable.
    by apply (proj1 (list.Forall_forall _ _)
                (apply_filter_on_text_encodable txt ACTION_RES Htxt)).
  - rewrite elem_of_sorted. change (map ?f ?l) with (f <$> l).
    intros (m & -> & Hm)%list_elem_of_fmap. apply remove_trailing_chars_encodable.
    by apply (proj1 (list.Forall_forall _ _)
                (apply_filter_on_text_encodable txt ENTITIES_RES Htxt)).
Qed.

(** What a run returns can be encoded, but for the names of the laws, which
    are those of their files. *)
Lemma parse_laws_encodable (ds : list dir_entry) (st : corpus) :
  parse_laws ds = inr st ->
  (forall x, x ∈ all_actions st \/ x ∈ all_entities st \/ x ∈ all_citations st ->
     utf8_encodable x = true) /\
  (forall name det, (name, det) ∈ laws st ->
     (exists d, d ∈ ds /\ is_law d = true /\ d_name d = name) /\
     Forall (fun e => utf8_encodable e = true) (citations det) /\
     Forall (fun e => utf8_encodable e = true) (actions det) /\
     Forall (fun e => utf8_encodable e = true) (entities det)).
Proof.
  intros Hparse. split.
  - intros x Hx.
    destruct (elem_of_parse_laws_sets ds st x Hparse) as (Ha & He & Hc).
    assert (exists txt, txt ∈ omap extracted_text ds /\
              (x ∈ actions (law_details txt) \/ x ∈ entities (law_details txt) \/
               x ∈ citations (law_details txt))) as (txt & Htxt & Hin).
    { destruct Hx as [Hx|[Hx|Hx]].
      - apply Ha in Hx as (txt & ? & ?). exists txt. auto.
      - apply He in Hx as (txt & ? & ?). exists txt. auto.
      - apply Hc in Hx as (txt & ? & ?). exists txt. auto. }
    apply list_elem_of_omap in Htxt as (d & _ & Hd%extracted_text_encodable).
    destruct (law_details_encodable txt Hd) as (Hcit & Hact & Hent).
    destruct Hin as [Hin|[Hin|Hin]].
    + by apply (proj1 (list.Forall_forall _ _) Hact).
    + by apply (proj1 (list.Forall_forall _ _) Hent).
    + by apply (proj1 (list.Forall_forall _ _) Hcit).
  - unfold parse_laws in Hparse.
    destruct (scan_laws corpus_init ds) as [e|st1] eqn:Hscan; simpl in Hparse; [done|].
    injection Hparse as <-. cbn [laws].
    destruct (scan_laws_laws _ _ _ Hscan) as (_ & Hfrom & _).
    intros name det Hp.
    destruct (Hfrom _ Hp) as [?%elem_of_nil|(d & txt & Hd & Ht & [= -> ->])]; [done|].
    split.
    + exists d. split; [done|]. split; [|done].
      unfold extracted_text in Ht. by destruct (is_law d).
    + by apply law_details_encodable, (extracted_text_encodable d).
Qed.

Section Run.
Context `{SetIteration}.

(** The report of a law is written when its mentions can be encoded. *)
Lemma write_to_fout_txt_returns (fs : files) (law_name : str) (d : details) :
  Forall (fun e => utf8_encodable e = true) (citations d) ->
  Forall (fun e => utf8_encodable e = true) (actions d) ->
  Forall (fun e => utf8_encodable e = true) (entities d) ->
  exists fs', write_to_fout_txt fs law_name d = (fs', None).
Proof.
  intros Hcit Hact Hent. unfold write_to_fout_txt, leave.
  rewrite write_encodable by (by vm_compute). cbn [and_then].
  rewrite write_list_out_app by done. cbn [and_then].
  do 2 (rewrite write_encodable by (by vm_compute); cbn [and_then]).
  rewrite write_list_out_app by done. cbn [and_then].
  do 2 (rewrite write_encodable by (by vm_compute); cbn [and_then]).
  rewrite write_list_out_app by done. cbn [fst snd]. eauto.
Qed.

Lemma write_to_fout_returns (fs : files) (law_name : str) (d : details) :
  utf8_encodable law_name = true ->
  Forall (fun e => utf8_encodable e = true) (citations d) ->
  Forall (fun e => utf8_encodable e = true) (actions d) ->
  Forall (fun e => utf8_encodable e = true) (entities d) ->
  exists fs', write_to_fout fs law_name d = (fs', None).
Proof.
  intros Hname Hcit Hact Hent. unfold write_to_fout.
  destruct (write_to_fout_txt_returns fs law_name d Hcit Hact Hent) as [fs1 ->].
  cbn [and_then].
  unfold write_to_fout_entities_actions, write_to_fout_entities_laws,
    write_to_fout_entities_citations, write_to_fout_laws_citations, leave.
  rewrite write_list_out_app by (by apply entities_actions_out_list_encodable).
  cbn [and_then fst snd].
  rewrite write_list_out_app by (by apply entities_laws_out_list_encodable).
  cbn [and_then fst snd].
  rewrite write_list_out_app by (by apply entities_citations_out_list_encodable).
  cbn [and_then fst snd].
  rewrite write_list_out_app by (by apply laws_citations_out_list_encodable).
  cbn [fst snd]. eauto.
Qed.

Lemma write_laws_return (fs : files) (laws : list (str * details)) :
  Forall (fun p : str * details =>
            utf8_encodable p.1 = true /\
            Forall (fun e => utf8_encodable e = true) (citations p.2) /\
            Forall (fun e => utf8_encodable e = true) (actions p.2) /\
            Forall (fun e => utf8_encodable e = true) (entities p.2)) laws ->
  exists fs',
    fold_left (fun r '(law, det) => let! fs := r in write_to_fout fs law det)
      laws (fs, None) = (fs', None).
Proof.
  intros Hlaws. revert fs.
  induction Hlaws as [|[law det] laws (Hname & Hcit & Hact & Hent) _ IH]; intros fs.
  - simpl. eauto.
  - cbn [fold_left and_then].
    destruct (write_to_fout_returns fs law det Hname Hcit Hact Hent) as [fs1 ->].
    apply IH.
Qed.

(** X20: A run that extracts every law, on a directory where the names of
    the laws can be encoded in UTF-8, returns and ends with the four listing
    tables of the corpus, whatever the output directory held: one row per
    distinct action in actions.csv and per distinct entity in entities.csv,
    as they are in the sets, and one row per distinct cleaned citation and
    law name in citations.csv and laws.csv. *)
Theorem main_writes_listing_tables (fs : files) (ds : list dir_entry) (st : corpus) :
  parse_laws ds = inr st ->
  (forall d, d ∈ ds -> is_law d = true -> utf8_encodable (d_name d) = true) ->
  let table := fun (rows : list str) (x : nat) =>
    Some (map (fun row => row ++ CRLF) (listing_rows rows x)) in
  (main fs ds).2 = inr st /\
  (main fs ds).1 !! out_path ACTIONS_FILENAME
    = table (set_iter (all_actions st)) ACTIONS_X /\
  (main fs ds).1 !! out_path ENTITIES_FILENAME
    = table (set_iter (all_entities st)) ENTITIES_X /\
  (main fs ds).1 !! out_path CITATIONS_FILENAME
    = table (set_iter (set_of (map clean_list_item (set_iter (all_citations st)))))
        CITATIONS_X /\
  (main fs ds).1 !! out_path LAWS_FILENAME
    = table (set_iter (set_of (map clean_list_item (laws st).*1))) LAWS_X.
Proof.
  intros Hparse Hnames table. unfold main. rewrite Hparse.
  destruct (parse_laws_encodable ds st Hparse) as (Hsets & Hlaws).
  assert (Hact : forall x, x ∈ all_actions st -> LF ∉ x).
  { intros x Hx. destruct (elem_of_parse_laws_sets ds st x Hparse) as (Ha & _ & _).
    apply Ha in Hx as (txt & _ & Hx).
    by destruct (mention_no_break txt x (or_introl Hx)) as (_ & _ & ? & _). }
  assert (Hent : forall x, x ∈ all_entities st -> LF ∉ x).
  { intros x Hx. destruct (elem_of_parse_laws_sets ds st x Hparse) as (_ & He & _).
    apply He in Hx as (txt & _ & Hx).
    by destruct (mention_no_break txt x (or_intror Hx)) as (_ & _ & ? & _). }
  destruct (write_laws_return (clear_old_files fs) (laws st)) as [fs1 ->].
  { apply list.Forall_forall. intros [name det] Hp.
    destruct (Hlaws name det Hp) as ((d & Hd & Hlaw & <-) & Hdet).
    split; [by apply Hnames|done]. }
  cbn [and_then].
  unfold write_all_actions, write_all_entities, write_all_citations, write_all_laws.
  rewrite write_all_table; cycle 1.
  { apply list.Forall_forall. intros x Hx%elem_of_set_iter. apply Hsets. auto. }
  cbn [and_then]. rewrite write_all_table; cycle 1.
  { apply list.Forall_forall. intros x Hx%elem_of_set_iter. apply Hsets. auto. }
  cbn [and_then]. rewrite write_all_table; cycle 1.
  { apply list.Forall_forall. intros x Hx%elem_of_set_iter. apply Hsets. auto. }
  cbn [and_then]. rewrite write_all_table; cycle 1.
  { apply list.Forall_forall. intros name ([name' det] & -> & Hp)%list_elem_of_fmap.
    destruct (Hlaws name' det Hp) as ((d & Hd & Hlaw & <-) & _). by apply Hnames. }
  cbn [fst snd]. split; [done|]. repeat split.
  - rewrite !lookup_insert_ne by (by intros ?%out_path_inj).
    by rewrite lookup_insert_eq, set_of_clean_id.
  - rewrite !lookup_insert_ne by (by intros ?%out_path_inj).
    by rewrite lookup_insert_eq, set_of_clean_id.
  - rewrite !lookup_insert_ne by (by intros ?%out_path_inj).
    by rewrite lookup_insert_eq.
  - by rewrite lookup_insert_eq.
Qed.

(** An exception, once raised, ends the loop over the laws. *)
Lemma write_laws_raised (fs : files) (e : exn) (laws : list (str * details)) :
  fold_left (fun r '(law, det) => let! fs := r in write_to_fout fs law det)
    laws (fs, Some e) = (fs, Some e).
Proof. induction laws as [|[law det] laws IH]; [done|]. cbn [fold_left and_then]. apply IH. Qed.

(** The functions that write raise nothing but [UnicodeEncodeError]. *)
Lemma write_list_out_raises (fout enum : list str) :
  (write_list_out fout enum).2 = None \/
  (write_list_out fout enum).2 = Some UnicodeEncodeError.
Proof. rewrite write_list_out_written. cbn [snd]. destruct (forallb _ _); auto. Qed.

Lemma and_then_raises {S : Type} (r : outcome S) (k : S -> outcome S) :
  (r.2 = None \/ r.2 = Some UnicodeEncodeError) ->
  (forall s, (k s).2 = None \/ (k s).2 = Some UnicodeEncodeError) ->
  (and_then r k).2 = None \/ (and_then r k).2 = Some UnicodeEncodeError.
Proof. destruct r as [s [e|]]; simpl; [tauto|]. intros _ Hk. apply Hk. Qed.

Lemma write_raises (fout : list str) (s : str) :
  (write fout s).2 = None \/ (write fout s).2 = Some UnicodeEncodeError.
Proof. unfold write, encode_utf8. destruct (existsb surrogate s); auto. Qed.

Lemma write_to_fout_txt_raises (fs : files) (law_name : str) (d : details) :
  (write_to_fout_txt fs law_name d).2 = None \/
  (write_to_fout_txt fs law_name d).2 = Some UnicodeEncodeError.
Proof.
  unfold write_to_fout_txt, leave. cbn [snd].
  apply and_then_raises; [apply write_raises|intros f1].
  apply and_then_raises; [apply write_list_out_raises|intros f2].
  apply and_then_raises; [apply write_raises|intros f3].
  apply and_then_raises; [apply write_raises|intros f4].
  apply and_then_raises; [apply write_list_out_raises|intros f5].
  apply and_then_raises; [apply write_raises|intros f6].
  apply and_then_raises; [apply write_raises|intros f7].
  apply write_list_out_raises.
Qed.

Lemma write_to_fout_raises (fs : files) (law_name : str) (d : details) :
  (write_to_fout fs law_name d).2 = None \/
  (write_to_fout fs law_name d).2 = Some UnicodeEncodeError.
Proof.
  unfold write_to_fout.
  apply and_then_raises; [apply write_to_fout_txt_raises|intros fs1].
  apply and_then_raises; [apply write_list_out_raises|intros fs2].
  apply and_then_raises; [apply write_list_out_raises|intros fs3].
  apply and_then_raises; [apply write_list_out_raises|intros fs4].
  apply write_list_out_raises.
Qed.

(** The lines of a law whose name cannot be encoded: the first one of the
    laws-entities table, or of the laws-citations table, stops the run. *)
Lemma write_to_fout_unencodable_name (fs : files) (law_name : str) (d : details) :
  utf8_encodable law_name = false ->
  Forall (fun e => utf8_encodable e = true) (citations d) ->
  Forall (fun e => utf8_encodable e = true) (actions d) ->
  Forall (fun e => utf8_encodable e = true) (entities d) ->
  entities d <> [] \/ citations d <> [] ->
  (write_to_fout fs law_name d).2 = Some UnicodeEncodeError.
Proof.
  intros Hname Hcit Hact Hent Hsome. unfold write_to_fout.
  destruct (write_to_fout_txt_returns fs law_name d Hcit Hact Hent) as [fs1 ->].
  cbn [and_then].
  assert (Hbad : forall (line : str -> str) (l : list str),
    (forall x, utf8_encodable (line x) = false) -> l <> [] ->
    forallb utf8_encodable (map line l) = false).
  { intros line [|x l] Hline Hl; [done|]. simpl. by rewrite Hline. }
  unfold write_to_fout_entities_actions, write_to_fout_entities_laws,
    write_to_fout_entities_citations, write_to_fout_laws_citations.
  rewrite !edge_writer_outcome.
  rewrite forallb_utf8_encodable by (by apply entities_actions_out_list_encodable).
  cbn [and_then]. rewrite edge_writer_outcome.
  destruct (entities d) as [|e ents] eqn:Hents.
  - destruct Hsome as [?|Hc]; [done|].
    assert (Hnil : entities_laws_out_list law_name d = []).
    { rewrite entities_laws_out_list_map, Hents.
      change (set_of []) with (∅ : gset str). by rewrite set_iter_empty. }
    assert (Hnil' : entities_citations_out_list d = []).
    { rewrite entities_citations_out_list_bind, Hents.
      change (set_of []) with (∅ : gset str). by rewrite set_iter_empty. }
    rewrite Hnil. cbn [forallb and_then]. rewrite edge_writer_outcome, Hnil'.
    cbn [forallb and_then]. rewrite edge_writer_outcome. cbn [snd].
    rewrite laws_citations_out_list_map, Hbad; [done| |].
    + intros x. by rewrite tab_pair_encodable, Hname.
    + destruct (citations d) as [|c cits] eqn:Hcits; [done|].
      intros Hempty. assert (Hin : c ∈ set_iter (set_of (c :: cits))).
      { apply elem_of_set_iter_set_of. left. }
      rewrite Hempty in Hin. by apply elem_of_nil in Hin.
  - rewrite entities_laws_out_list_map, Hbad; [done| |].
    + intros x. rewrite tab_pair_encodable, Hname. apply andb_false_r.
    + rewrite Hents. intros Hempty.
      assert (Hin : e ∈ set_iter (set_of (e :: ents))).
      { apply elem_of_set_iter_set_of. left. }
      rewrite Hempty in Hin. by apply elem_of_nil in Hin.
Qed.

Lemma write_laws_raise (laws : list (str * details)) (r : outcome files) (p : str * details) :
  (r.2 = None \/ r.2 = Some UnicodeEncodeError) ->
  p ∈ laws ->
  (forall fs, (write_to_fout fs p.1 p.2).2 = Some UnicodeEncodeError) ->
  (fold_left (fun r '(law, det) => let! fs := r in write_to_fout fs law det) laws r).2
    = Some UnicodeEncodeError.
Proof.
  intros Hr Hp Hraise. revert r Hr.
  induction laws as [|[law det] laws IH]; intros [fs o] Hr; [by apply elem_of_nil in Hp|].
  cbn [fold_left]. simpl in Hr. destruct Hr as [->| ->].
  - cbn [and_then]. apply elem_of_cons in Hp as [->|Hp].
    + specialize (Hraise fs). cbn [fst snd] in Hraise.
      destruct (write_to_fout fs law det) as [fs1 o1]. simpl in Hraise. subst o1.
      by rewrite write_laws_raised.
    + apply IH; [done|]. apply write_to_fout_raises.
  - cbn [and_then]. by rewrite write_laws_raised.
Qed.

(** X24: A law whose file name cannot be encoded in UTF-8, and that mentions an
    entity or a citation, ends the run: when [parse_laws] returns with such a
    law in its dict, [main] raises [UnicodeEncodeError]. *)
Theorem main_raises_on_unencodable_name (fs : files) (ds : list dir_entry) (st : corpus)
    (name : str) (det : details) :
  parse_laws ds = inr st ->
  (name, det) ∈ laws st ->
  utf8_encodable name = false ->
  entities det <> [] \/ citations det <> [] ->
  (main fs ds).2 = inl UnicodeEncodeError.
Proof.
  intros Hparse Hp Hname Hsome. unfold main. rewrite Hparse.
  destruct (parse_laws_encodable ds st Hparse) as (_ & Hlaws).
  destruct (Hlaws name det Hp) as (_ & Hcit & Hact & Hent).
  pose proof (write_laws_raise (laws st) (clear_old_files fs, None) (name, det)
                (or_introl eq_refl) Hp
                (fun fs' => write_to_fout_unencodable_name fs' name det
                              Hname Hcit Hact Hent Hsome)) as Hloop.
  destruct (fold_left _ (laws st) _) as [fs1 o]. simpl in Hloop. subst o. done.
Qed.
End Run.

(** ** The further properties at work *)

Lemma parse_laws_example : parse_laws [law_example] = inr corpus_example.
Proof. by vm_compute. Qed.

Lemma actions_are_keywords_witness : keyword SET_RE.2 ∈ ACTION_KEYWORDS.
Proof.
  apply (actions_are_keywords text_example).
  apply (bool_decide_unpack _). by vm_compute.
Defined.

Lemma actions_entities_are_normalized_witness : remove_trailing_chars KABLAN = KABLAN.
Proof.
  refine (proj1 (actions_entities_are_normalized text_example KABLAN (or_intror _))).
  apply (bool_decide_unpack _). by vm_compute.
Defined.

Lemma mentions_have_no_break_witness : TAB ∉ HAMAASIK.
Proof.
  refine (proj1 (proj2 (mentions_have_no_break text_example HAMAASIK (or_intror _)))).
  apply (bool_decide_unpack _). by vm_compute.
Defined.

Lemma entities_actions_lines_of_law_witness :
  occurrences (tab_pair KABLAN HAMAASIK)
    (@entities_actions_out_list elements_iteration (law_details text_example)) = 1.
Proof.
  rewrite (@entities_actions_lines_of_law elements_iteration text_example KABLAN HAMAASIK).
  - by vm_compute.
  - apply (bool_decide_unpack _). by vm_compute.
  - apply (bool_decide_unpack _). by vm_compute.
Defined.

Lemma parse_laws_totals_witness :
  tot_cites corpus_example = 1 /\ tot_actions corpus_example = 1 /\
  tot_entities corpus_example = 2.
Proof.
  destruct (parse_laws_totals [law_example] corpus_example parse_laws_example)
    as (Hc & Ha & He & _).
  rewrite Hc, Ha, He. by vm_compute.
Defined.

Lemma dict_set_get_witness :
  (u "a", 2) ∈ dict_set [(u "a", 1); (u "b", 3)] (u "a") 2.
Proof.
  assert (Hnd : NoDup [(u "a", 1); (u "b", 3)].*1)
    by (apply (bool_decide_unpack _); by vm_compute).
  destruct (dict_set_get [(u "a", 1); (u "b", 3)] (u "a") 2 Hnd) as (Hget & _).
  by apply Hget.
Defined.

Lemma parse_laws_records_witness : u "example.htm" ∈ (laws corpus_example).*1.
Proof.
  destruct (parse_laws_records [law_example] corpus_example parse_laws_example)
    as (_ & Hnames & _).
  apply (Hnames law_example); [left|by vm_compute].
Defined.

Lemma parse_laws_sets_witness : KABLAN ∈ all_entities corpus_example.
Proof.
  destruct (parse_laws_sets [law_example] corpus_example KABLAN parse_laws_example)
    as (_ & He & _).
  apply He. exists text_example. split.
  - apply (bool_decide_unpack _). by vm_compute.
  - apply (bool_decide_unpack _). by vm_compute.
Defined.

Lemma main_writes_listing_tables_witness :
  (@main elements_iteration ∅ [law_example]).1 !! out_path ACTIONS_FILENAME
    = Some [LISTING_HEADER ++ CRLF;
            keyword SET_RE.2 ++ [TAB] ++ u "10" ++ [TAB] ++ u "1" ++ CRLF].
Proof.
  assert (Hnames : forall d, d ∈ [law_example] -> is_law d = true ->
                     utf8_encodable (d_name d) = true).
  { intros d ->%list_elem_of_singleton _. by vm_compute. }
  destruct (@main_writes_listing_tables elements_iteration ∅ [law_example]
              corpus_example parse_laws_example Hnames) as (_ & Ha & _).
  rewrite Ha. by vm_compute.
Defined.

Lemma main_raises_on_unencodable_name_witness :
  parse_laws [law_undecodable] = inr corpus_undecodable /\
  (@main elements_iteration ∅ [law_undecodable]).2 = inl UnicodeEncodeError.
Proof.
  assert (Hparse : parse_laws [law_undecodable] = inr corpus_undecodable)
    by (by vm_compute).
  split; [exact Hparse|].
  apply (@main_raises_on_unencodable_name elements_iteration ∅ [law_undecodable]
           corpus_undecodable UNDECODABLE_NAME (law_details text_example) Hparse).
  - assert (Hlaws : laws corpus_undecodable
                    = [(UNDECODABLE_NAME, law_details text_example)]) by (by vm_compute).
    rewrite Hlaws. left.
  - by vm_compute.
  - left. intros Hnil. vm_compute in Hnil. discriminate.
Defined.

Lemma main_failure_leaves_no_table_witness :
  (@main elements_iteration {[ out_path ACTIONS_FILENAME := [u "old"] ]} [law_alef]).1
    !! out_path ACTIONS_FILENAME = None.
Proof.
  assert (Hp : parse_laws [law_alef] = inl UnicodeEncodeError) by (by vm_compute).
  destruct (@main_failure_leaves_no_table elements_iteration
              {[ out_path ACTIONS_FILENAME := [u "old"] ]} [law_alef]
              UnicodeEncodeError [] Hp) as (_ & Hnone & _).
  apply Hnone. unfold OUTPUT_FILES. do 7 right. left.
Defined.

Lemma recode_needs_no_weird_unicode_witness :
  Forall (fun c => weird c = false) latin_example.
Proof.
  refine (proj1 (recode_needs_no_weird_unicode latin_example text_example _)).
  by vm_compute.
Defined.

Lemma recode_pointwise_injective_witness : length text_example = length latin_example.
Proof.
  refine (proj1 (recode_pointwise_injective latin_example [] text_example _)).
  by vm_compute.
Defined.
